(** * SDT.lab: graph engine, shortest paths and packet replay

    A shallow embedding of [Graph.h], [GraphAlgorithms.h], [Network.h] and
    [NetworkSimulator.h], followed by the properties of the specification
    that were checked against it.

    Conventions of the embedding:
    - [std::map<K,V>] is a [gmap K V]; [operator[]] on a missing key inserts
      the value-initialised element, which is written out in [map_index];
    - [std::vector<T>] is a [list T], [push_back] appends at the end;
    - [std::set<K>] is a [gset K];
    - [double] is idealised as an exact rational extended with the two
      infinities and NaN (type [double] below): comparisons and the special
      values follow IEEE 754, rounding and the sign of zero are not modelled;
    - console output ([std::cout << node]) is the list of emitted nodes;
    - a C++ exception is an [inl] result of the state-and-error monad [M]. *)

From Stdlib Require Import QArith Lqa.
From stdpp Require Import gmap strings list fin_maps sorting.

Local Open Scope Z_scope.

(** ** The [double] model *)

Module Dbl.

Inductive double : Type :=
| Fin (q : Q)
| PInf
| NInf
| NaN.

Definition zero : double := Fin 0.
Definition infinity : double := PInf.

(** Sign of a rational: -1, 0 or 1. *)
Definition Qsgn (q : Q) : Z := Z.sgn (Qnum q).

Definition add (a b : double) : double :=
  match a, b with
  | NaN, _ | _, NaN => NaN
  | PInf, NInf | NInf, PInf => NaN
  | PInf, _ | _, PInf => PInf
  | NInf, _ | _, NInf => NInf
  | Fin x, Fin y => Fin (x + y)
  end.

Definition signed_inf (s : Z) : double :=
  match s with
  | Z0 => NaN
  | Zpos _ => PInf
  | Zneg _ => NInf
  end.

Definition sgn (a : double) : option Z :=
  match a with
  | NaN => None
  | PInf => Some 1
  | NInf => Some (-1)
  | Fin q => Some (Qsgn q)
  end.

Definition mul (a b : double) : double :=
  match a, b with
  | Fin x, Fin y => Fin (x * y)
  | _, _ =>
      match sgn a, sgn b with
      | Some s, Some t => signed_inf (s * t)
      | _, _ => NaN
      end
  end.

(** Division; a zero divisor is taken as +0, so [x / 0] has the sign of [x]. *)
Definition div (a b : double) : double :=
  match a, b with
  | NaN, _ | _, NaN => NaN
  | Fin x, Fin y => if Qeq_bool y 0 then signed_inf (Qsgn x) else Fin (x / y)
  | Fin _, (PInf | NInf) => Fin 0
  | (PInf | NInf), (PInf | NInf) => NaN
  | PInf, Fin y => if Qle_bool 0 y then PInf else NInf
  | NInf, Fin y => if Qle_bool 0 y then NInf else PInf
  end.

(** [a < b]; false as soon as one side is NaN. *)
Definition ltb (a b : double) : bool :=
  match a, b with
  | NaN, _ | _, NaN => false
  | Fin x, Fin y => negb (Qle_bool y x)
  | Fin _, PInf => true
  | Fin _, NInf => false
  | PInf, _ => false
  | NInf, NInf => false
  | NInf, _ => true
  end.

(** [a == b]; false as soon as one side is NaN. *)
Definition eqb (a b : double) : bool :=
  match a, b with
  | Fin x, Fin y => Qeq_bool x y
  | PInf, PInf => true
  | NInf, NInf => true
  | _, _ => false
  end.

(** [a <= b]. *)
Definition leb (a b : double) : bool := ltb a b || eqb a b.

(** [a > b], [a >= b], [a != b]. *)
Definition gtb (a b : double) : bool := ltb b a.
Definition geb (a b : double) : bool := leb b a.
Definition neqb (a b : double) : bool := negb (eqb a b).

(** [static_cast<double>(n)] for a [std::size_t]. *)
Definition of_size_t (n : N) : double := Fin (inject_Z (Z.of_N n)).

(** A value that is neither NaN nor negative. *)
Definition nonneg (a : double) : Prop := leb zero a = true.

End Dbl.

Abbreviation double := Dbl.double.

(** ** Graph.h *)

(** [m[k]] on a [std::map]: the mapped value, and the map in which a missing
    key has been inserted with the value-initialised element [dflt]. *)
Definition map_index `{Countable K} {V : Type} (dflt : V) (m : gmap K V) (k : K)
  : V * gmap K V :=
  match m !! k with
  | Some v => (v, m)
  | None => (dflt, <[k := dflt]> m)
  end.

(** [m[k].push_back(x)]. *)
Definition map_push_back `{Countable K} {T : Type} (m : gmap K (list T)) (k : K) (x : T)
  : gmap K (list T) :=
  let '(l, m') := map_index [] m k in <[k := l ++ [x]]> m'.

(** [v.erase(std::remove_if(v.begin(), v.end(), [&](auto& p){ return p.first == node; }), v.end())] *)
Definition erase_first_eq `{EqDecision K} {E : Type} (node : K) (v : list (K * E))
  : list (K * E) :=
  filter (λ p, p.1 ≠ node) v.

Section GraphADT.
Context `{Countable K} {E : Type}.

Record Graph : Type := mkGraph {
  adjacency : gmap K (list (K * E));
  directed_ : bool
}.

(** [explicit Graph(bool directed = true)] *)
Definition newGraph (directed : bool) : Graph :=
  {| adjacency := ∅; directed_ := directed |}.

Definition addNode (g : Graph) (node : K) : Graph :=
  {| adjacency := (map_index [] (adjacency g) node).2;
     directed_ := directed_ g |}.

Definition addEdge (g : Graph) (from to : K) (edge : E) : Graph :=
  let g1 := addNode g from in
  let g2 := addNode g1 to in
  let adj3 := map_push_back (adjacency g2) from (to, edge) in
  let adj4 :=
    if negb (directed_ g2) then map_push_back adj3 to (from, edge) else adj3 in
  {| adjacency := adj4; directed_ := directed_ g2 |}.

Definition removeNode (g : Graph) (node : K) : Graph :=
  {| adjacency := erase_first_eq node <$> delete node (adjacency g);
     directed_ := directed_ g |}.

Definition removeEdge (g : Graph) (from to : K) : Graph :=
  let adj1 := alter (erase_first_eq to) from (adjacency g) in
  let adj2 :=
    if negb (directed_ g) then alter (erase_first_eq from) to adj1 else adj1 in
  {| adjacency := adj2; directed_ := directed_ g |}.

Definition getNeighbors (g : Graph) (node : K) : list K :=
  match adjacency g !! node with
  | Some l => l.*1
  | None => []
  end.

Definition clear (g : Graph) : Graph :=
  {| adjacency := ∅; directed_ := directed_ g |}.

Definition graph_size (g : Graph) : nat := size (adjacency g).

(** [adjacency.count(node) != 0] *)
Definition hasNode (g : Graph) (node : K) : bool :=
  bool_decide (is_Some (adjacency g !! node)).

Definition data (g : Graph) : gmap K (list (K * E)) := adjacency g.

(** The adjacency sequence of a node, empty for a node that is absent. *)
Definition adj (g : Graph) (node : K) : list (K * E) :=
  default [] (adjacency g !! node).

(** Every edge ends in a node of the graph: the invariant that the public
    operations of [Graph] maintain (the adjacency map is private). *)
Definition graph_wf (g : Graph) : Prop :=
  ∀ u l v e, adjacency g !! u = Some l → (v, e) ∈ l → is_Some (adjacency g !! v).

(** How often [v] occurs in a sequence of nodes. *)
Definition occurrences (v : K) (l : list K) : nat :=
  length (filter (λ x, x = v) l).

(** The nodes that occur in the graph, as a key or as the target of an
    adjacency entry. *)
Definition graph_nodes (g : Graph) : gset K :=
  dom (adjacency g) ∪ list_to_set (map_to_list (adjacency g) ≫= λ kv, kv.2.*1).

(** ** GraphAlgorithms.h: traversals

    Both loops are given a bound on the number of iterations ([fuel]);
    [None] means that the bound was reached before the container emptied.
    The result is the sequence of nodes written to [std::cout] and the
    [visited] field as the run leaves it. *)

(** The [for] loop over the neighbours of a dequeued node. *)
Definition bfs_visit (acc : list K * gset K) (neighbor : K) : list K * gset K :=
  let '(q, visited) := acc in
  if decide (neighbor ∈ visited) then (q, visited)
  else (q ++ [neighbor], {[neighbor]} ∪ visited).

Fixpoint bfs_loop (fuel : nat) (g : Graph) (q : list K) (visited : gset K)
  (out : list K) : option (list K * gset K) :=
  match fuel with
  | O => None
  | S fuel' =>
      match q with
      | [] => Some (out, visited)
      | node :: q' =>
          let '(q'', visited') :=
            fold_left bfs_visit (getNeighbors g node) (q', visited) in
          bfs_loop fuel' g q'' visited' (out ++ [node])
      end
  end.

Definition BFS_run (fuel : nat) (g : Graph) (start : K) : option (list K * gset K) :=
  bfs_loop fuel g [start] {[start]} [].

(** The stack is a list whose head is the top; pushing the neighbours one
    after the other leaves the last of them on top. *)
Fixpoint dfs_loop (fuel : nat) (g : Graph) (st : list K) (visited : gset K)
  (out : list K) : option (list K * gset K) :=
  match fuel with
  | O => None
  | S fuel' =>
      match st with
      | [] => Some (out, visited)
      | node :: st' =>
          if decide (node ∈ visited) then dfs_loop fuel' g st' visited out
          else
            dfs_loop fuel' g
              (fold_left (λ s neighbor, neighbor :: s) (getNeighbors g node) st')
              ({[node]} ∪ visited) (out ++ [node])
      end
  end.

Definition DFS_run (fuel : nat) (g : Graph) (start : K) : option (list K * gset K) :=
  dfs_loop fuel g [start] ∅ [].

(** Invariant of the breadth-first loop: the queue and the output hold the
    visited nodes, each of them once. *)
Definition bfs_inv (q : list K) (visited : gset K) (out : list K) : Prop :=
  NoDup (out ++ q) ∧ ∀ x, x ∈ out ++ q ↔ x ∈ visited.

End GraphADT.

Arguments Graph K {_ _} E.

(** ** GraphAlgorithms.h: Dijkstra *)

Record WeightedEdge : Type := mkWeightedEdge { weight : double }.

Section DijkstraDefs.
Context `{Countable K}.

(** [operator<] of the node type, which orders queue items of equal distance. *)
Variable node_ltb : K → K → bool.

(** [using QItem = std::pair<double, TNode>] *)
Definition QItem : Type := double * K.

(** [operator<] of [std::pair]. *)
Definition qitem_ltb (a b : QItem) : bool :=
  Dbl.ltb a.1 b.1 || (negb (Dbl.ltb b.1 a.1) && node_ltb a.2 b.2).

(** [std::priority_queue<QItem, std::vector<QItem>, std::greater<QItem>>]: the
    queue is the list of its items, [top] is a least item for [qitem_ltb].
    [pq_extract x l] is the pair of [top] and of the items that [pop] leaves,
    for the non-empty queue [x :: l]. *)
Fixpoint pq_extract (x : QItem) (l : list QItem) : QItem * list QItem :=
  match l with
  | [] => (x, [])
  | y :: l' =>
      let '(m, r) := pq_extract y l' in
      if qitem_ltb m x then (m, x :: r) else (x, m :: r)
  end.

Record Dijkstra : Type := mkDijkstra {
  dist : gmap K double;
  parent : gmap K K
}.

(** The body of the relaxation loop for one adjacency entry [(v, w)] of [u]. *)
Definition relax (du : double) (u : K)
  (acc : gmap K double * gmap K K * list QItem) (entry : K * WeightedEdge)
  : gmap K double * gmap K K * list QItem :=
  let '(dist, parent, pq) := acc in
  let '(v, w) := entry in
  let nd := Dbl.add du (weight w) in
  let '(dv, dist') := map_index Dbl.zero dist v in
  if Dbl.ltb nd dv then (<[v := nd]> dist', <[v := u]> parent, pq ++ [(nd, v)])
  else (dist', parent, pq).

(** The [while (!pq.empty())] loop, at most [fuel] iterations. *)
Fixpoint dijkstra_loop (fuel : nat) (g : Graph K WeightedEdge)
  (dist : gmap K double) (parent : gmap K K) (pq : list QItem)
  : option Dijkstra :=
  match fuel with
  | O => None
  | S fuel' =>
      match pq with
      | [] => Some {| dist := dist; parent := parent |}
      | x :: l =>
          let '((du, u), pq') := pq_extract x l in
          let '(dist_u, dist1) := map_index Dbl.zero dist u in
          if Dbl.neqb du dist_u then dijkstra_loop fuel' g dist1 parent pq'
          else
            match data g !! u with
            | None => dijkstra_loop fuel' g dist1 parent pq'
            | Some entries =>
                let '(dist2, parent2, pq2) :=
                  fold_left (relax du u) entries (dist1, parent, pq') in
                dijkstra_loop fuel' g dist2 parent2 pq2
            end
      end
  end.

(** [dist] after the initialisation loop: every node of the graph at
    [+infinity]. *)
Definition dist_init (g : Graph K WeightedEdge) : gmap K double :=
  (λ _, Dbl.infinity) <$> data g.

(** [Dijkstra::run]; both maps are cleared first, so the fields that the
    object held before do not matter. *)
Definition Dijkstra_run (fuel : nat) (g : Graph K WeightedEdge) (start : K)
  : option Dijkstra :=
  let dist0 := dist_init g in
  if negb (hasNode g start) then Some {| dist := dist0; parent := ∅ |}
  else dijkstra_loop fuel g (<[start := Dbl.zero]> dist0) ∅ [(Dbl.zero, start)].

(** The [while (cur != start)] loop of [getPathTo], at most [fuel] iterations. *)
Fixpoint getPathTo_loop (fuel : nat) (parent : gmap K K) (start cur : K)
  (path : list K) : option (list K) :=
  match fuel with
  | O => None
  | S fuel' =>
      if decide (cur ≠ start) then
        let path' := path ++ [cur] in
        match parent !! cur with
        | None => Some []
        | Some p => getPathTo_loop fuel' parent start p path'
        end
      else Some (reverse (path ++ [start]))
  end.

Definition getPathTo (fuel : nat) (dj : Dijkstra) (start target : K)
  : option (list K) :=
  match dist dj !! target with
  | None => Some []
  | Some d =>
      if Dbl.eqb d Dbl.infinity then Some []
      else getPathTo_loop fuel (parent dj) start target []
  end.

End DijkstraDefs.

Arguments Dijkstra K {_ _}.

(** ** Network.h *)

Record Device : Type := mkDevice {
  id_ : Z;
  name_ : string;
  kind : string
}.

Record Link : Type := mkLink {
  latencyMs : double;
  bandwidthMbps : double;
  reliability : double
}.

(** The literals [1000.0], [8.0], [1'000'000.0] and [1e9]. *)
Definition d1000 : double := Dbl.Fin 1000.
Definition d8 : double := Dbl.Fin 8.
Definition d1e6 : double := Dbl.Fin 1000000.
Definition d1e9 : double := Dbl.Fin 1000000000.

Definition costForBytes (l : Link) (bytes : N) : double :=
  let secondsLatency := Dbl.div (latencyMs l) d1000 in
  let secondsPayload :=
    if Dbl.gtb (bandwidthMbps l) Dbl.zero
    then Dbl.div (Dbl.mul (Dbl.of_size_t bytes) d8) (Dbl.mul (bandwidthMbps l) d1e6)
    else d1e9 in
  Dbl.add secondsLatency secondsPayload.

(** Modelled from the spec: the fields of [Packet], which [Network.h] elides
    ("identity (source, destination names), ttl (mutable counter), size in
    bytes, and an ordered hop history"). The counter is a signed [int], as
    the guard [pkt.ttl() <= 0] and the tests have it. *)
Record Packet : Type := mkPacket {
  src_ : string;
  dst_ : string;
  ttl_ : Z;
  size_ : N;
  hops_ : list string
}.

(** [--ttl_]. The [int] is modelled on [Z]: [sendPacket], the only caller
    in the sources, decrements a positive counter, so the subtraction stays
    in range. *)
Definition decTTL (p : Packet) : Packet :=
  {| src_ := src_ p; dst_ := dst_ p; ttl_ := ttl_ p - 1; size_ := size_ p;
     hops_ := hops_ p |}.

Definition addHop (p : Packet) (nodeName : string) : Packet :=
  {| src_ := src_ p; dst_ := dst_ p; ttl_ := ttl_ p; size_ := size_ p;
     hops_ := hops_ p ++ [nodeName] |}.

(** ** NetworkSimulator.h *)

Inductive exception : Type :=
| runtime_error (what : string).

(** Computations over a state [S] that may throw: the result and the state
    in which the computation stopped. *)
Definition M (S A : Type) : Type := S → (exception + A) * S.

Definition ret {S A} (a : A) : M S A := λ s, (inr a, s).
Definition throw {S A} (e : exception) : M S A := λ s, (inl e, s).
Definition bind {S A B} (m : M S A) (k : A → M S B) : M S B :=
  λ s, match m s with
       | (inl e, s') => (inl e, s')
       | (inr a, s') => k a s'
       end.
Definition get {S} : M S S := λ s, (inr s, s).
Definition put {S} (s : S) : M S unit := λ _, (inr tt, s).

Record NetworkSimulator : Type := mkNetworkSimulator {
  graph_ : Graph string Link;
  devices_ : gmap string Device
}.

(** A simulator as its constructor leaves it: [graph_] is default
    constructed, hence directed. *)
Definition newNetworkSimulator : NetworkSimulator :=
  {| graph_ := newGraph true; devices_ := ∅ |}.

(** [Device* d]: [None] is the null pointer. *)
Definition addDevice (d : option Device) : M NetworkSimulator unit :=
  match d with
  | None => throw (runtime_error "Null device")
  | Some dev =>
      bind get (λ s,
      bind (put {| graph_ := graph_ s;
                   devices_ := <[name_ dev := dev]> (devices_ s) |}) (λ _,
      bind get (λ s,
      put {| graph_ := addNode (graph_ s) (name_ dev); devices_ := devices_ s |})))
  end.

Definition connect (a b : string) (link : Link) (bidir : bool)
  : M NetworkSimulator unit :=
  bind get (λ s,
  if negb (hasNode (graph_ s) a) || negb (hasNode (graph_ s) b)
  then throw (runtime_error "Unknown node in connect()")
  else
    bind (put {| graph_ := addEdge (graph_ s) a b link; devices_ := devices_ s |}) (λ _,
    if bidir then
      bind get (λ s,
      put {| graph_ := addEdge (graph_ s) b a link; devices_ := devices_ s |})
    else ret tt)).

(** The inner [for] loop of [sendPacket] with its [break]: the cost of the
    first entry toward [v], or [edgeCost] as it was initialised. *)
Fixpoint first_entry_cost (entries : list (string * Link)) (v : string)
  (bytes : N) (edgeCost : double) : double :=
  match entries with
  | [] => edgeCost
  | (to, link) :: entries' =>
      if decide (to = v) then costForBytes link bytes
      else first_entry_cost entries' v bytes edgeCost
  end.

(** [edgeCost] at the end of one iteration of the outer loop. *)
Definition hop_cost (g : Graph string Link) (u v : string) (bytes : N) : double :=
  match data g !! u with
  | Some entries => first_entry_cost entries v bytes d1e9
  | None => d1e9
  end.

(** The outer loop of [sendPacket] from index [i] on: [u] is [path[i-1]] and
    [rest] is [path[i..]]. *)
Fixpoint send_loop (g : Graph string Link) (u : string) (rest : list string)
  (totalSeconds : double) (pkt : Packet) : double * Packet :=
  match rest with
  | [] => (totalSeconds, pkt)
  | v :: rest' =>
      if ttl_ pkt <=? 0 then (totalSeconds, pkt)
      else
        let edgeCost := hop_cost g u v (size_ pkt) in
        send_loop g v rest' (Dbl.add totalSeconds edgeCost) (addHop (decTTL pkt) v)
  end.

Definition sendPacket (sim : NetworkSimulator) (path : list string) (pkt : Packet)
  : double * Packet :=
  if (length path <? 2)%nat then (Dbl.zero, pkt)
  else
    match path with
    | front :: rest =>
        send_loop (graph_ sim) front rest Dbl.zero (addHop pkt front)
    | [] => (Dbl.zero, pkt)
    end.

(** ** Vocabulary of the statements *)

(** The consecutive pairs [(path[i-1], path[i])] of a path. *)
Definition consecutive_pairs {A : Type} (path : list A) : list (A * A) :=
  zip path (tail path).

(** The number of hops that a replay performs: one per consecutive pair,
    as long as the counter, which loses one per hop, is positive. *)
Definition hops_replayed (path : list string) (pkt : Packet) : nat :=
  Nat.min (length path - 1) (Z.to_nat (ttl_ pkt)).

(** What each replayed hop is charged. *)
Definition hop_charges (g : Graph string Link) (path : list string) (pkt : Packet)
  : list double :=
  (λ p, hop_cost g p.1 p.2 (size_ pkt)) <$> take (hops_replayed path pkt) (consecutive_pairs path).

(** Left-to-right sum, as [totalSeconds += edgeCost] accumulates it. *)
Definition sum_from (total : double) (costs : list double) : double :=
  fold_left Dbl.add costs total.

(** A computation throws from the state [s]. *)
Definition raises {S A : Type} (m : M S A) (s : S) : Prop :=
  ∃ e, (m s).1 = inl e.


(** ** Sample values for the concrete instances *)

Definition sample_link : Link := mkLink (Dbl.Fin 1) (Dbl.Fin 100) (Dbl.Fin 1).
Definition slow_link : Link := mkLink (Dbl.Fin 50) (Dbl.Fin 1) (Dbl.Fin 1).

(** Devices R1, S1 and H1 with the one-way link R1 -> S1. *)
Definition sample_sim : NetworkSimulator :=
  let s0 := newNetworkSimulator in
  let s1 := (addDevice (Some (mkDevice 1 "R1" "Router")) s0).2 in
  let s2 := (addDevice (Some (mkDevice 2 "S1" "Switch")) s1).2 in
  let s3 := (addDevice (Some (mkDevice 3 "H1" "Host")) s2).2 in
  (connect "R1" "S1" sample_link false s3).2.

(** Devices R1 and S1 with two parallel links R1 -> S1, the slow one first. *)
Definition parallel_sim : NetworkSimulator :=
  let s0 := newNetworkSimulator in
  let s1 := (addDevice (Some (mkDevice 1 "R1" "Router")) s0).2 in
  let s2 := (addDevice (Some (mkDevice 2 "S1" "Switch")) s1).2 in
  let s3 := (connect "R1" "S1" slow_link false s2).2 in
  (connect "R1" "S1" sample_link false s3).2.

Definition sample_packet (ttl : Z) : Packet := mkPacket "R1" "H1" ttl 1500 [].

(** ** Vocabulary of the shortest-path statements *)

Section ShortestPathSpec.
Context `{Countable K}.
Implicit Types (g : Graph K WeightedEdge) (p : list (K * WeightedEdge)).

(** A walk is the list of the adjacency entries that it takes, each with the
    node that it enters. Its weight is summed from the source on, in the
    order in which the algorithm adds weights up. *)
Definition walk_weight_from (d : double) p : double :=
  fold_left (λ acc step, Dbl.add acc (weight step.2)) p d.

Definition walk_weight p : double := walk_weight_from Dbl.zero p.

Inductive walk g (s : K) : list (K * WeightedEdge) → K → Prop :=
| walk_nil : walk g s [] s
| walk_snoc p u v w :
    walk g s p u → (v, w) ∈ adj g u → walk g s (p ++ [(v, w)]) v.

(** The nodes of a walk from [s], and the node where it ends. *)
Definition walk_nodes (s : K) p : list K := s :: p.*1.
Definition walk_end (s : K) p : K := default s (last p.*1).

(** The weight of the cheapest entry from [u] toward [v], when there is one:
    what a pair of consecutive nodes of a path weighs. *)
Definition pair_weight g (u v : K) : option double :=
  foldr (λ e acc,
           if decide (e.1 = v) then
             match acc with
             | Some m => Some (if Dbl.ltb (weight e.2) m then weight e.2 else m)
             | None => Some (weight e.2)
             end
           else acc)
        None (adj g u).

(** The sum of the pair weights along a sequence of nodes, left to right;
    [None] when two consecutive nodes are not joined by an entry. *)
Fixpoint path_weight_from g (d : double) (u : K) (rest : list K) : option double :=
  match rest with
  | [] => Some d
  | v :: rest' =>
      match pair_weight g u v with
      | Some w => path_weight_from g (Dbl.add d w) v rest'
      | None => None
      end
  end.

Definition path_weight g (nodes : list K) : option double :=
  match nodes with
  | [] => None
  | u :: rest => path_weight_from g Dbl.zero u rest
  end.

Definition finite_nonneg (a : double) : Prop := ∃ q, a = Dbl.Fin q ∧ (0 <= q)%Q.

(** The precondition of [Dijkstra::run]: no weight is negative (or NaN). *)
Definition weights_nonneg g : Prop :=
  ∀ u v w, (v, w) ∈ adj g u → finite_nonneg (weight w).

(** The walks along [parent] through settled nodes, on which [dist] is the
    weight of the walk. *)
Inductive tree_walk g (s : K) (settled : gset K) (dist : gmap K double)
  (parent : gmap K K) : list (K * WeightedEdge) → K → Prop :=
| tree_walk_nil : tree_walk g s settled dist parent [] s
| tree_walk_snoc p u v w :
    tree_walk g s settled dist parent p u →
    u ∈ settled → dist !! u = Some (walk_weight p) →
    v ≠ s → parent !! v = Some u → (v, w) ∈ adj g u →
    tree_walk g s settled dist parent (p ++ [(v, w)]) v.

(** The invariant of the main loop. [settled] is the set of the nodes whose
    adjacency entries have been relaxed, [lo] the distance of the last of
    them; while the entries of [cur] are being relaxed, [pending] are those
    still to come. *)
Record dijkstra_inv g (s : K) (settled : gset K) (lo : double)
  (dist : gmap K double) (parent : gmap K K) (pq : list (double * K))
  (cur : K) (pending : list (K * WeightedEdge)) : Prop := {
  inv_dom : dom dist = dom (adjacency g);
  inv_start : dist !! s = Some Dbl.zero;
  inv_start_parent : parent !! s = None;
  inv_lo : Dbl.nonneg lo;
  inv_nonneg : ∀ v dv, dist !! v = Some dv → Dbl.nonneg dv;
  inv_tree : ∀ v dv,
    dist !! v = Some dv → Dbl.eqb dv Dbl.infinity = false →
    ∃ p, tree_walk g s settled dist parent p v ∧ dv = walk_weight p;
  inv_queued : ∀ v dv,
    dist !! v = Some dv → Dbl.eqb dv Dbl.infinity = false → v ∉ settled →
    (dv, v) ∈ pq;
  inv_items : ∀ d v,
    (d, v) ∈ pq →
    Dbl.nonneg d ∧ Dbl.eqb d Dbl.infinity = false ∧ Dbl.leb lo d = true ∧
    ∃ dv, dist !! v = Some dv ∧ Dbl.leb dv d = true ∧
          (Dbl.eqb d dv = true → d = dv);
  inv_settled : ∀ u,
    u ∈ settled →
    ∃ du, dist !! u = Some du ∧ Dbl.eqb du Dbl.infinity = false ∧
          Dbl.leb du lo = true ∧
          ∀ v w, (v, w) ∈ adj g u →
                 (u = cur ∧ (v, w) ∈ pending) ∨
                 ∃ dv, dist !! v = Some dv ∧
                       Dbl.leb dv (Dbl.add du (weight w)) = true
}.

(** Following [parent] from [cur] meets, after [n] steps and before any
    visit of [start], a node that has no parent entry. *)
Fixpoint broken_chain (parent : gmap K K) (start cur : K) (n : nat) : Prop :=
  cur ≠ start ∧
  match parent !! cur, n with
  | None, O => True
  | Some p, S n' => broken_chain parent start p n'
  | _, _ => False
  end.

End ShortestPathSpec.

(** The weighted graph A -> B (5), B -> C (2), A -> C (9) with the isolated
    node D. *)
Definition sample_graph : Graph string WeightedEdge :=
  let g0 := addNode (newGraph true) "D" in
  let g1 := addEdge g0 "A" "B" (mkWeightedEdge (Dbl.Fin 5)) in
  let g2 := addEdge g1 "B" "C" (mkWeightedEdge (Dbl.Fin 2)) in
  addEdge g2 "A" "C" (mkWeightedEdge (Dbl.Fin 9)).

(** ** Vocabulary of the further statements about [Graph] *)

Section GraphSpec.
Context `{Countable K} {E : Type}.

(** One call of a mutator of [Graph]. *)
Inductive graph_op : Type :=
| OpAddNode (node : K)
| OpAddEdge (from to : K) (edge : E)
| OpRemoveNode (node : K)
| OpRemoveEdge (from to : K)
| OpClear.

Definition apply_op (g : Graph K E) (op : graph_op) : Graph K E :=
  match op with
  | OpAddNode n => addNode g n
  | OpAddEdge u v e => addEdge g u v e
  | OpRemoveNode n => removeNode g n
  | OpRemoveEdge u v => removeEdge g u v
  | OpClear => clear g
  end.

(** A sequence of calls, the first one first. *)
Definition apply_ops (g : Graph K E) (ops : list graph_op) : Graph K E :=
  fold_left apply_op ops g.

(** Every entry has its mirror entry, with the same payload. *)
Definition adj_symmetric (g : Graph K E) : Prop :=
  ∀ u v e, (v, e) ∈ adj g u → (u, e) ∈ adj g v.

(** The nodes that can be reached from [s] along adjacency entries. *)
Inductive reachable (g : Graph K E) (s : K) : K → Prop :=
| reachable_refl : reachable g s s
| reachable_step u v :
    reachable g s u → v ∈ getNeighbors g u → reachable g s v.

(** [v] is at the end of [n] adjacency entries that start at [s]; the hop
    distance of [v] is the least such [n]. *)
Inductive reach_in (g : Graph K E) (s : K) : nat → K → Prop :=
| reach_in_O : reach_in g s O s
| reach_in_S n u v :
    reach_in g s n u → v ∈ getNeighbors g u → reach_in g s (S n) v.

Definition hop_distance (g : Graph K E) (s v : K) (n : nat) : Prop :=
  reach_in g s n v ∧ ∀ m, reach_in g s m v → (n ≤ m)%nat.

(** Invariant of the breadth-first loop with the level [lvl] at which each
    visited node entered the queue: levels are lengths of chains of entries
    from the start, the output is in level order and closed under
    neighbours up to one more level, and the queue holds nodes of one level
    followed by nodes of the next. *)
Definition bfs_level_inv (g : Graph K E) (s : K) (lvl : gmap K nat)
  (q : list K) (visited : gset K) (out : list K) : Prop :=
  visited = dom lvl ∧
  (∀ x, x ∈ out ++ q ↔ x ∈ visited) ∧
  lvl !! s = Some O ∧
  (∀ x n, lvl !! x = Some n → reach_in g s n x) ∧
  (∀ x y nx, x ∈ out → y ∈ getNeighbors g x → lvl !! x = Some nx →
     ∃ ny, lvl !! y = Some ny ∧ (ny ≤ S nx)%nat) ∧
  (∀ (i j : nat) x y nx ny, (i < j)%nat → out !! i = Some x → out !! j = Some y →
     lvl !! x = Some nx → lvl !! y = Some ny → (nx ≤ ny)%nat) ∧
  ∃ n qa qb, q = qa ++ qb ∧
     (∀ x, x ∈ qa → lvl !! x = Some n) ∧
     (∀ x, x ∈ qb → lvl !! x = Some (S n)) ∧
     (∀ x nx, x ∈ out → lvl !! x = Some nx → (nx ≤ n)%nat).

(** Recursive depth-first search over a list of pending nodes: a pending
    node that is visited already is skipped; another one is emitted, then
    its neighbours are searched from the last to the first, then the rest of
    the pending nodes. [recursive_dfs g pending visited out visited'] relates
    the pending nodes and the visited set to the nodes emitted and the
    visited set at the end. *)
Inductive recursive_dfs (g : Graph K E) :
  list K → gset K → list K → gset K → Prop :=
| recursive_dfs_nil visited : recursive_dfs g [] visited [] visited
| recursive_dfs_skip x pending visited out visited' :
    x ∈ visited →
    recursive_dfs g pending visited out visited' →
    recursive_dfs g (x :: pending) visited out visited'
| recursive_dfs_visit x pending visited out1 visited1 out2 visited2 :
    x ∉ visited →
    recursive_dfs g (reverse (getNeighbors g x)) ({[x]} ∪ visited) out1 visited1 →
    recursive_dfs g pending visited1 out2 visited2 →
    recursive_dfs g (x :: pending) visited (x :: out1 ++ out2) visited2.

End GraphSpec.

Arguments graph_op K E : clear implicits.

(** ** NetworkSimulator.h: the routing adapter *)

(** [DijkstraRouting::linkToWeightedEdge] *)
Definition linkToWeightedEdge (link : Link) (payloadBytes : N) : WeightedEdge :=
  let cost := costForBytes link payloadBytes in
  {| weight := cost |}.

(** The entries of a [std::map] with [std::string] keys in the order in
    which a range-[for] visits them: by ascending key. *)
Definition key_le {V : Type} (a b : string * V) : Prop := String.leb a.1 b.1 = true.

#[global] Instance key_le_dec {V : Type} (a b : string * V) : Decision (key_le a b) :=
  decide (String.leb a.1 b.1 = true).

Definition entries_in_key_order {V : Type} (m : gmap string V) : list (string * V) :=
  merge_sort key_le (map_to_list m).

(** The two loops of [route] that build the weighted graph [wg], run over
    the entries [entries] of [g.data()]. *)
Definition route_graph_from (entries : list (string * list (string * Link)))
  (payloadBytes : N) : Graph string WeightedEdge :=
  let wg := newGraph true in
  let wg := fold_left (λ wg entry, addNode wg entry.1) entries wg in
  fold_left
    (λ wg entry,
       fold_left
         (λ wg p, addEdge wg entry.1 p.1 (linkToWeightedEdge p.2 payloadBytes))
         entry.2 wg)
    entries wg.

Definition route_graph (g : Graph string Link) (payloadBytes : N)
  : Graph string WeightedEdge :=
  route_graph_from (entries_in_key_order (data g)) payloadBytes.

(** [DijkstraRouting::route]; [fuel] bounds the loops of [Dijkstra::run] and
    of [getPathTo]. *)
Definition route (fuel : nat) (g : Graph string Link) (src dst : string)
  (payloadBytes : N) : option (list string) :=
  let wg := route_graph g payloadBytes in
  match Dijkstra_run String.ltb fuel wg src with
  | Some dj => getPathTo fuel dj src dst
  | None => None
  end.

(** An adjacency sequence of links as the sequence of weighted entries that
    [route] makes of it. *)
Definition weighted_entries (payloadBytes : N) (l : list (string * Link))
  : list (string * WeightedEdge) :=
  (λ p, (p.1, linkToWeightedEdge p.2 payloadBytes)) <$> l.

(** No link of the topology has a latency that is negative, infinite or NaN. *)
Definition latencies_nonneg (g : Graph string Link) : Prop :=
  ∀ u v link, (v, link) ∈ adj g u → finite_nonneg (latencyMs link).

(** ** Sequences of simulator calls *)

(** The two calls that change a simulator. *)
Inductive sim_call : Type :=
| CallAddDevice (d : option Device)
| CallConnect (a b : string) (link : Link) (bidir : bool).

(** One call by a caller that catches what the call throws and goes on
    with the simulator as the call left it. *)
Definition run_call (sim : NetworkSimulator) (c : sim_call) : NetworkSimulator :=
  match c with
  | CallAddDevice d => (addDevice d sim).2
  | CallConnect a b link bidir => (connect a b link bidir sim).2
  end.

Definition run_calls (sim : NetworkSimulator) (calls : list sim_call)
  : NetworkSimulator :=
  fold_left run_call calls sim.

(** The links that the calls of a sequence pass to [connect]. *)
Definition call_links (calls : list sim_call) : list Link :=
  calls ≫= λ c, match c with
                | CallConnect _ _ link _ => [link]
                | CallAddDevice _ => []
                end.

(** What holds of a simulator between calls: the topology is directed, its
    links end in nodes, its nodes are the registered names, every device is
    registered under its own name, and every link satisfies [P]. *)
Definition sim_consistent (P : Link → Prop) (sim : NetworkSimulator) : Prop :=
  directed_ (graph_ sim) = true ∧
  graph_wf (graph_ sim) ∧
  (∀ n, hasNode (graph_ sim) n = true ↔ is_Some (devices_ sim !! n)) ∧
  (∀ n d, devices_ sim !! n = Some d → name_ d = n) ∧
  (∀ u v link, (v, link) ∈ adj (graph_ sim) u → P link).

(** The topology of the test [BuildDemoRouteAndSend] ([bidir] defaults to
    [true]) and its packet. *)
Definition demo_calls : list sim_call :=
  [ CallAddDevice (Some (mkDevice 1 "R1" "Router"));
    CallAddDevice (Some (mkDevice 2 "S1" "Switch"));
    CallAddDevice (Some (mkDevice 3 "H1" "Host"));
    CallAddDevice (Some (mkDevice 4 "H2" "Host"));
    CallConnect "R1" "S1" (mkLink (Dbl.Fin 0.5) (Dbl.Fin 100) (Dbl.Fin 0.999)) true;
    CallConnect "S1" "H1" (mkLink (Dbl.Fin 1) (Dbl.Fin 100) (Dbl.Fin 0.999)) true;
    CallConnect "R1" "H2" (mkLink (Dbl.Fin 3) (Dbl.Fin 20) (Dbl.Fin 0.98)) true ].

Definition demo_sim : NetworkSimulator := run_calls newNetworkSimulator demo_calls.

Definition demo_packet : Packet := mkPacket "H1" "H2" 8 1500 [].

(** * Properties *)

(** ** [std::map] indexing *)

Section MapIndex.
Context `{Countable K} {V : Type}.
Implicit Types (m : gmap K V) (k : K).

Lemma map_index_fst dflt m k : (map_index dflt m k).1 = default dflt (m !! k).
Proof. unfold map_index. by destruct (m !! k). Qed.

Lemma map_index_snd_lookup dflt m k k' :
  (map_index dflt m k).2 !! k' =
  if decide (k = k') then Some (default dflt (m !! k)) else m !! k'.
Proof.
  unfold map_index. destruct (m !! k) eqn:Hk; simpl.
  - case_decide; [congruence|done].
  - rewrite lookup_insert. by case_decide.
Qed.

End MapIndex.

Lemma map_push_back_lookup `{Countable K} {T : Type} (m : gmap K (list T)) k x k' :
  map_push_back m k x !! k' =
  if decide (k = k') then Some (default [] (m !! k) ++ [x]) else m !! k'.
Proof.
  unfold map_push_back.
  pose proof (map_index_fst [] m k) as Hfst.
  pose proof (map_index_snd_lookup [] m k k') as Hsnd.
  destruct (map_index [] m k) as [l m']; simpl in *.
  rewrite lookup_insert. case_decide; by subst.
Qed.

(** ** The graph container *)

Section GraphProps.
Context `{Countable K} {E : Type}.
Implicit Types (g : Graph K E) (u v w : K) (e : E).

Lemma lookup_addNode g n k :
  adjacency (addNode g n) !! k =
  if decide (n = k) then Some (adj g n) else adjacency g !! k.
Proof. unfold addNode, adj; simpl. apply map_index_snd_lookup. Qed.

Lemma adj_addNode g n k : adj (addNode g n) k = adj g k.
Proof.
  unfold adj at 1. rewrite lookup_addNode. case_decide; by subst.
Qed.

Lemma directed_addEdge g u v e : directed_ (addEdge g u v e) = directed_ g.
Proof. done. Qed.

Lemma lookup_addEdge g u v e k :
  adjacency (addEdge g u v e) !! k =
  if decide (k = u ∨ k = v)
  then Some (adj g k ++ (if decide (u = k) then [(v, e)] else [])
                     ++ (if directed_ g then []
                         else if decide (v = k) then [(u, e)] else []))
  else adjacency g !! k.
Proof.
  unfold addEdge; simpl.
  set (a2 := adjacency (addNode (addNode g u) v)).
  assert (Ha2 : ∀ k, a2 !! k =
    if decide (k = u ∨ k = v) then Some (adj g k) else adjacency g !! k).
  { intros k'. unfold a2. rewrite lookup_addNode, adj_addNode, lookup_addNode.
    repeat case_decide; subst; try done; naive_solver. }
  destruct (directed_ g); simpl.
  - rewrite map_push_back_lookup, !Ha2.
    repeat case_decide; subst; simpl; rewrite ?app_nil_r; try done; naive_solver.
  - rewrite !map_push_back_lookup, !Ha2.
    repeat case_decide; subst; simpl; rewrite ?app_nil_r, <-?app_assoc;
      try done; naive_solver.
Qed.

Lemma adj_addEdge g u v e k :
  adj (addEdge g u v e) k =
  adj g k ++ (if decide (u = k) then [(v, e)] else [])
          ++ (if directed_ g then [] else if decide (v = k) then [(u, e)] else []).
Proof.
  unfold adj at 1. rewrite lookup_addEdge.
  case_decide as Hk; [done|].
  repeat case_decide; subst; try naive_solver.
  all: destruct (directed_ g); by rewrite ?app_nil_r.
Qed.

Lemma getNeighbors_adj g k : getNeighbors g k = (adj g k).*1.
Proof. unfold getNeighbors, adj. by destruct (adjacency g !! k). Qed.

Lemma hasNode_true g k : hasNode g k = true ↔ is_Some (adjacency g !! k).
Proof. unfold hasNode. by rewrite bool_decide_eq_true. Qed.

Lemma hasNode_false g k : hasNode g k = false ↔ adjacency g !! k = None.
Proof.
  unfold hasNode. rewrite bool_decide_eq_false. by rewrite eq_None_not_Some.
Qed.

Lemma occurrences_app v (l1 l2 : list K) :
  occurrences v (l1 ++ l2) = (occurrences v l1 + occurrences v l2)%nat.
Proof. unfold occurrences. by rewrite filter_app, length_app. Qed.

Lemma occurrences_singleton v x :
  occurrences v [x] = if decide (x = v) then 1%nat else 0%nat.
Proof.
  unfold occurrences. rewrite filter_cons, filter_nil. by case_decide.
Qed.

Lemma hasNode_addEdge_l g u v e : hasNode (addEdge g u v e) u = true.
Proof.
  apply hasNode_true. rewrite lookup_addEdge.
  rewrite decide_True by auto. eauto.
Qed.

Lemma hasNode_addEdge_r g u v e : hasNode (addEdge g u v e) v = true.
Proof.
  apply hasNode_true. rewrite lookup_addEdge.
  rewrite decide_True by auto. eauto.
Qed.

Lemma getNeighbors_addEdge_directed g u v e k :
  directed_ g = true →
  getNeighbors (addEdge g u v e) k =
  getNeighbors g k ++ (if decide (u = k) then [v] else []).
Proof.
  intros Hd. rewrite !getNeighbors_adj, adj_addEdge, Hd, app_nil_r, fmap_app.
  by case_decide.
Qed.

Lemma iter_addEdge_directed g u v e n :
  directed_ g = true →
  directed_ (Nat.iter n (λ h, addEdge h u v e) g) = true ∧
  getNeighbors (Nat.iter n (λ h, addEdge h u v e) g) u =
  getNeighbors g u ++ replicate n v.
Proof.
  intros Hd. induction n as [|n [IHd IHn]]; simpl.
  - by rewrite app_nil_r.
  - split; [done|].
    rewrite getNeighbors_addEdge_directed by done.
    rewrite decide_True by done.
    rewrite IHn, <-app_assoc. f_equal.
    change (v :: replicate n v) with (replicate (S n) v).
    by rewrite replicate_S_end.
Qed.

Lemma occurrences_replicate v n : occurrences v (replicate n v) = n.
Proof.
  induction n as [|n IH]; [done|].
  change (replicate (S n) v) with ([v] ++ replicate n v).
  rewrite occurrences_app, occurrences_singleton, decide_True by done.
  by rewrite IH.
Qed.

(** C5: [addEdge] creates both endpoints; on a directed graph every call adds
    exactly one more occurrence of [v] to the neighbours of [u] (parallel
    edges are kept) and leaves the neighbours of every other node, [v]
    included, as they were; on an undirected graph the mirror entry [(u, e)]
    is appended to the adjacency sequence of [v] as well. *)
Theorem addEdge_endpoints_and_neighbors g u v e :
  hasNode (addEdge g u v e) u = true ∧
  hasNode (addEdge g u v e) v = true ∧
  (directed_ g = true →
     occurrences v (getNeighbors (addEdge g u v e) u)
       = S (occurrences v (getNeighbors g u)) ∧
     (∀ n : nat,
        occurrences v (getNeighbors (Nat.iter n (λ h, addEdge h u v e) g) u)
          = (occurrences v (getNeighbors g u) + n)%nat) ∧
     (∀ k, k ≠ u → getNeighbors (addEdge g u v e) k = getNeighbors g k) ∧
     occurrences u (getNeighbors (addEdge g u v e) v)
       = (occurrences u (getNeighbors g v) + if decide (u = v) then 1 else 0)%nat) ∧
  (directed_ g = false →
     adj (addEdge g u v e) u = adj g u ++ [(v, e)] ++ (if decide (v = u) then [(u, e)] else []) ∧
     (v, e) ∈ adj (addEdge g u v e) u ∧
     (u, e) ∈ adj (addEdge g u v e) v ∧
     v ∈ getNeighbors (addEdge g u v e) u ∧
     u ∈ getNeighbors (addEdge g u v e) v).
Proof.
  split; [apply hasNode_addEdge_l|].
  split; [apply hasNode_addEdge_r|].
  split.
  - intros Hd. repeat split.
    + rewrite getNeighbors_addEdge_directed, decide_True by done.
      rewrite occurrences_app, occurrences_singleton, decide_True by done. lia.
    + intros n. destruct (iter_addEdge_directed g u v e n Hd) as [_ ->].
      by rewrite occurrences_app, occurrences_replicate.
    + intros k Hk. rewrite getNeighbors_addEdge_directed by done.
      rewrite decide_False by done. by rewrite app_nil_r.
    + rewrite getNeighbors_addEdge_directed by done.
      rewrite occurrences_app. f_equal.
      case_decide; [by rewrite occurrences_singleton, decide_True|done].
  - intros Hd.
    assert (Hu : adj (addEdge g u v e) u
                 = adj g u ++ [(v, e)] ++ (if decide (v = u) then [(u, e)] else [])).
    { rewrite adj_addEdge, Hd. by rewrite decide_True by done. }
    assert (Hv : (u, e) ∈ adj (addEdge g u v e) v).
    { rewrite adj_addEdge, Hd. rewrite (decide_True (P := v = v)) by done.
      rewrite !elem_of_app. right; right. apply list_elem_of_singleton. done. }
    assert (Hu' : (v, e) ∈ adj (addEdge g u v e) u).
    { rewrite Hu. rewrite !elem_of_app. right; left. by apply list_elem_of_singleton. }
    repeat split; try done.
    + rewrite getNeighbors_adj. apply list_elem_of_fmap. exists (v, e). by split.
    + rewrite getNeighbors_adj. apply list_elem_of_fmap. exists (u, e). by split.
Qed.

End GraphProps.

Section GraphProps2.
Context `{Countable K} {E : Type}.
Implicit Types (g : Graph K E) (u v w : K) (e : E).

Lemma lookup_removeNode g n k :
  adjacency (removeNode g n) !! k =
  if decide (n = k) then None else erase_first_eq n <$> adjacency g !! k.
Proof.
  unfold removeNode; simpl. rewrite lookup_fmap, lookup_delete.
  by case_decide.
Qed.

Lemma erase_first_eq_spec (n : K) (l : list (K * E)) p :
  p ∈ erase_first_eq n l ↔ p ∈ l ∧ p.1 ≠ n.
Proof. unfold erase_first_eq. rewrite list_elem_of_filter. tauto. Qed.

(** C6: after [removeNode n] the node is gone, no adjacency sequence that
    remains mentions it, and every other entry is kept in its place. *)
Theorem removeNode_no_dangling_edges g n :
  hasNode (removeNode g n) n = false ∧
  (∀ u l, adjacency (removeNode g n) !! u = Some l → n ∉ l.*1) ∧
  (∀ u, n ∉ getNeighbors (removeNode g n) u) ∧
  (∀ u, u ≠ n → adj (removeNode g n) u = filter (λ p, p.1 ≠ n) (adj g u)).
Proof.
  assert (Hno : ∀ u l, adjacency (removeNode g n) !! u = Some l → n ∉ l.*1).
  { intros u l. rewrite lookup_removeNode. case_decide; [done|].
    intros Hl Hin. apply fmap_Some in Hl as (l0 & _ & ->).
    apply list_elem_of_fmap in Hin as (p & Hp1 & Hp).
    apply erase_first_eq_spec in Hp as [_ Hne]. by subst. }
  split; [|split; [done|split]].
  - apply hasNode_false. rewrite lookup_removeNode. by rewrite decide_True.
  - intros u. unfold getNeighbors.
    destruct (adjacency (removeNode g n) !! u) eqn:Hu; [by eapply Hno|].
    apply not_elem_of_nil.
  - intros u Hu. unfold adj. rewrite lookup_removeNode.
    rewrite decide_False by done. by destruct (adjacency g !! u).
Qed.

Lemma graph_wf_newGraph d : graph_wf (newGraph d : Graph K E).
Proof. intros u l v e. unfold newGraph; simpl. by rewrite lookup_empty. Qed.

Lemma graph_wf_clear g : graph_wf (clear g).
Proof. intros u l v e. unfold clear; simpl. by rewrite lookup_empty. Qed.

Lemma graph_wf_addNode g n : graph_wf g → graph_wf (addNode g n).
Proof.
  intros Hwf u l v e. rewrite !lookup_addNode.
  case_decide as Hu.
  - intros [= <-] Hin. case_decide; [eauto|].
    unfold adj in Hin. destruct (adjacency g !! n) eqn:Hn; simpl in Hin.
    + eapply Hwf; eauto.
    + by apply elem_of_nil in Hin.
  - intros Hl Hin. case_decide; [eauto|]. eapply Hwf; eauto.
Qed.

Lemma elem_of_adj g u p :
  p ∈ adj g u ↔ ∃ l, adjacency g !! u = Some l ∧ p ∈ l.
Proof.
  unfold adj. destruct (adjacency g !! u); simpl.
  - naive_solver.
  - split; [by intros ?%elem_of_nil|naive_solver].
Qed.

Lemma graph_wf_adj g : graph_wf g ↔ ∀ u v e, (v, e) ∈ adj g u → is_Some (adjacency g !! v).
Proof.
  split.
  - intros Hwf u v e (l & Hl & Hin)%elem_of_adj. eapply Hwf; eauto.
  - intros Hwf u l v e Hl Hin. apply (Hwf u v e). apply elem_of_adj. eauto.
Qed.

Lemma is_Some_lookup_addEdge g u v e k :
  is_Some (adjacency (addEdge g u v e) !! k) ↔
  k = u ∨ k = v ∨ is_Some (adjacency g !! k).
Proof.
  rewrite lookup_addEdge. case_decide; [|tauto].
  split; [tauto|eauto].
Qed.

Lemma graph_wf_addEdge g u v e : graph_wf g → graph_wf (addEdge g u v e).
Proof.
  rewrite !graph_wf_adj. intros Hwf a b e' Hin.
  apply is_Some_lookup_addEdge.
  rewrite adj_addEdge, !elem_of_app in Hin.
  destruct Hin as [Hin|[Hin|Hin]].
  - right; right. eapply Hwf; eauto.
  - case_decide; [|by apply elem_of_nil in Hin].
    apply list_elem_of_singleton in Hin as [= -> ->]. tauto.
  - destruct (directed_ g); [by apply elem_of_nil in Hin|].
    case_decide; [|by apply elem_of_nil in Hin].
    apply list_elem_of_singleton in Hin as [= -> ->]. tauto.
Qed.

Lemma graph_wf_removeNode g n : graph_wf g → graph_wf (removeNode g n).
Proof.
  intros Hwf u l v e. rewrite !lookup_removeNode.
  case_decide; [done|]. intros (l0 & Hl0 & ->)%fmap_Some Hin.
  apply erase_first_eq_spec in Hin as [Hin Hne]; simpl in Hne.
  rewrite decide_False by done.
  destruct (Hwf u l0 v e Hl0 Hin) as [x ->]. eauto.
Qed.

Lemma graph_wf_removeEdge g u v : graph_wf g → graph_wf (removeEdge g u v).
Proof.
  intros Hwf.
  assert (Hsub : ∀ a l, adjacency (removeEdge g u v) !! a = Some l →
                        ∃ l0, adjacency g !! a = Some l0 ∧ l ⊆ l0).
  { intros a l. unfold removeEdge; simpl.
    assert (Hf : ∀ (x : K) (l1 : list (K * E)), erase_first_eq x l1 ⊆ l1).
    { intros x l1 p. rewrite erase_first_eq_spec. tauto. }
    destruct (directed_ g); simpl.
    - rewrite lookup_alter. case_decide; subst.
      + intros (l0 & -> & ->)%fmap_Some. eauto.
      + intros ->. eauto.
    - rewrite !lookup_alter. repeat case_decide; subst.
      + intros (l1 & (l0 & -> & ->)%fmap_Some & ->)%fmap_Some.
        eexists; split; [done|]. etrans; apply Hf.
      + intros (l0 & -> & ->)%fmap_Some. eauto.
      + intros (l0 & -> & ->)%fmap_Some. eauto.
      + intros ->. eauto. }
  assert (Hdom : ∀ a, is_Some (adjacency g !! a) → is_Some (adjacency (removeEdge g u v) !! a)).
  { intros a [l Hl]. unfold removeEdge; simpl.
    destruct (directed_ g); simpl; rewrite ?lookup_alter;
      repeat case_decide; subst; rewrite ?Hl; simpl; eauto. }
  intros a l b e Hl Hin. destruct (Hsub _ _ Hl) as (l0 & Hl0 & Hsubl).
  apply Hdom. eapply Hwf; eauto.
Qed.

End GraphProps2.

(** ** The link cost *)

Lemma Dbl_nonneg_cases (a : double) :
  Dbl.nonneg a ↔ (∃ q, a = Dbl.Fin q ∧ (0 <= q)%Q) ∨ a = Dbl.PInf.
Proof.
  unfold Dbl.nonneg, Dbl.leb, Dbl.zero. destruct a as [q| | |]; simpl.
  - rewrite orb_true_iff, negb_true_iff, <-not_true_iff_false.
    rewrite Qle_bool_iff, Qeq_bool_iff. split.
    + intros [Hlt|Heq]; left; exists q; split; try done; lra.
    + intros [(q' & [= <-] & Hq)|[=]].
      destruct (Qlt_le_dec 0 q); [left; lra|right; lra].
  - naive_solver.
  - naive_solver.
  - naive_solver.
Qed.




(** ** The simulator: registration and links *)

Lemma connect_returns sim a b link bidir :
  hasNode (graph_ sim) a = true → hasNode (graph_ sim) b = true →
  connect a b link bidir sim =
  (inr tt,
   {| graph_ := if bidir then addEdge (addEdge (graph_ sim) a b link) b a link
                else addEdge (graph_ sim) a b link;
      devices_ := devices_ sim |}).
Proof.
  intros Ha Hb. unfold connect, bind, get, put, ret. rewrite Ha, Hb.
  by destruct bidir.
Qed.

(** The topology graph of a simulator stays directed. *)
Lemma addDevice_directed sim d :
  directed_ (graph_ sim) = true → directed_ (graph_ (addDevice d sim).2) = true.
Proof. by destruct d. Qed.

Lemma connect_directed sim a b link bidir :
  directed_ (graph_ sim) = true →
  directed_ (graph_ (connect a b link bidir sim).2) = true.
Proof.
  intros Hd. unfold connect, bind, get, put, throw, ret.
  destruct (negb (hasNode (graph_ sim) a) || negb (hasNode (graph_ sim) b)); [done|].
  by destruct bidir.
Qed.

(** C7: [addDevice] throws exactly on the null pointer and [connect] exactly
    when an end is not a node of the topology; a call that throws leaves the
    simulator as it found it; a call of [connect] that returns has appended
    the entry [(b, link)] to the adjacency sequence of [a] and, when [bidir]
    is set, the entry [(a, link)] to that of [b], and nothing else. *)
Theorem addDevice_connect_errors (sim : NetworkSimulator) :
  (∀ d, raises (addDevice d) sim ↔ d = None) ∧
  (∀ d, raises (addDevice d) sim →
        addDevice d sim = (inl (runtime_error "Null device"), sim)) ∧
  (∀ a b link bidir,
     raises (connect a b link bidir) sim ↔
     hasNode (graph_ sim) a = false ∨ hasNode (graph_ sim) b = false) ∧
  (∀ a b link bidir,
     raises (connect a b link bidir) sim →
     connect a b link bidir sim
       = (inl (runtime_error "Unknown node in connect()"), sim)) ∧
  (∀ a b link bidir,
     ¬ raises (connect a b link bidir) sim →
     directed_ (graph_ sim) = true →
     ∃ sim', connect a b link bidir sim = (inr tt, sim') ∧
       devices_ sim' = devices_ sim ∧
       directed_ (graph_ sim') = true ∧
       dom (adjacency (graph_ sim')) = dom (adjacency (graph_ sim)) ∧
       ∀ k, adj (graph_ sim') k =
            adj (graph_ sim) k
              ++ (if decide (a = k) then [(b, link)] else [])
              ++ (if bidir then if decide (b = k) then [(a, link)] else [] else [])).
Proof.
  assert (Hc : ∀ a b link bidir,
     raises (connect a b link bidir) sim ↔
     hasNode (graph_ sim) a = false ∨ hasNode (graph_ sim) b = false).
  { intros a b link bidir. unfold raises, connect, bind, get, put, throw, ret; simpl.
    destruct (hasNode (graph_ sim) a), (hasNode (graph_ sim) b); simpl.
    - destruct bidir; simpl; (split; [intros [e [=]]|intros [[=]|[=]]]).
    - split; [auto|eauto].
    - split; [auto|eauto].
    - split; [auto|eauto]. }
  split; [|split; [|split; [done|split]]].
  - intros [d|]; unfold raises; simpl.
    + split; [intros [e [=]]|done].
    + split; [done|]. intros _. by eexists.
  - intros [d|] [e He]; [done|]. done.
  - intros a b link bidir Hr%Hc. unfold connect, bind, get, throw; simpl.
    by destruct Hr as [-> | ->]; rewrite ?orb_true_r.
  - intros a b link bidir Hr Hd.
    assert (Ha : hasNode (graph_ sim) a = true).
    { destruct (hasNode (graph_ sim) a) eqn:Ha; [done|]. destruct Hr. apply Hc. auto. }
    assert (Hb : hasNode (graph_ sim) b = true).
    { destruct (hasNode (graph_ sim) b) eqn:Hb; [done|]. destruct Hr. apply Hc. auto. }
    apply hasNode_true in Ha, Hb.
    assert (Hdom : ∀ g : Graph string Link,
      dom (adjacency (addEdge g a b link)) = {[a; b]} ∪ dom (adjacency g)).
    { intros g. apply set_eq. intros k.
      rewrite elem_of_union, !elem_of_dom, is_Some_lookup_addEdge, <-elem_of_dom.
      set_solver. }
    assert (Hdom' : ∀ g : Graph string Link,
      dom (adjacency (addEdge g b a link)) = {[a; b]} ∪ dom (adjacency g)).
    { intros g. apply set_eq. intros k.
      rewrite elem_of_union, !elem_of_dom, is_Some_lookup_addEdge, <-elem_of_dom.
      set_solver. }
    rewrite (connect_returns sim a b link bidir) by (by apply hasNode_true).
    apply (elem_of_dom (D := gset string)) in Ha, Hb.
    eexists; split; [reflexivity|].
    destruct bidir; cbn [graph_ devices_].
    + split; [done|]. split; [done|]. split.
      * rewrite Hdom', Hdom. set_solver.
      * intros k. rewrite !adj_addEdge, directed_addEdge, Hd.
        by rewrite !app_nil_r, <-app_assoc.
    + split; [done|]. split; [done|]. split.
      * rewrite Hdom. set_solver.
      * intros k. rewrite !adj_addEdge, Hd. by rewrite !app_nil_r.
Qed.

(** ** The simulator: packet replay *)

Lemma send_loop_spec g rest : ∀ u total pkt,
  send_loop g u rest total pkt =
  (sum_from total
     ((λ p, hop_cost g p.1 p.2 (size_ pkt))
        <$> take (Nat.min (length rest) (Z.to_nat (ttl_ pkt))) (zip (u :: rest) rest)),
   {| src_ := src_ pkt; dst_ := dst_ pkt;
      ttl_ := ttl_ pkt - Z.of_nat (Nat.min (length rest) (Z.to_nat (ttl_ pkt)));
      size_ := size_ pkt;
      hops_ := hops_ pkt ++ take (Nat.min (length rest) (Z.to_nat (ttl_ pkt))) rest |}).
Proof.
  induction rest as [|v rest IH]; intros u total pkt.
  - simpl. destruct pkt; simpl. f_equal. f_equal; [lia|by rewrite app_nil_r].
  - cbn [send_loop]. destruct (Z.leb_spec (ttl_ pkt) 0) as [Hle|Hgt].
    + replace (Z.to_nat (ttl_ pkt)) with O by lia.
      rewrite Nat.min_0_r. simpl. destruct pkt; simpl.
      f_equal. f_equal; [lia|by rewrite app_nil_r].
    + rewrite IH. cbn [size_ ttl_ hops_ src_ dst_ addHop decTTL length].
      replace (Z.to_nat (ttl_ pkt)) with (S (Z.to_nat (ttl_ pkt - 1))) by lia.
      rewrite <-Nat.succ_min_distr. cbn [zip zip_with take fmap list_fmap].
      unfold sum_from. cbn [fold_left fst snd].
      f_equal. f_equal; [lia|]. by rewrite <-app_assoc.
Qed.

(** What a replay along a path of at least two nodes returns and leaves in
    the packet. *)
Lemma sendPacket_spec sim path pkt :
  (2 ≤ length path)%nat →
  sendPacket sim path pkt =
  (sum_from Dbl.zero (hop_charges (graph_ sim) path pkt),
   {| src_ := src_ pkt; dst_ := dst_ pkt;
      ttl_ := ttl_ pkt - Z.of_nat (hops_replayed path pkt);
      size_ := size_ pkt;
      hops_ := hops_ pkt ++ take (S (hops_replayed path pkt)) path |}).
Proof.
  intros Hlen. unfold sendPacket, hop_charges, hops_replayed, consecutive_pairs.
  destruct (Nat.ltb_spec (length path) 2) as [?|_]; [lia|].
  destruct path as [|front rest]; [simpl in Hlen; lia|].
  rewrite send_loop_spec. cbn [size_ ttl_ hops_ src_ dst_ addHop length tail].
  rewrite Nat.sub_succ, Nat.sub_0_r. f_equal. f_equal.
  by rewrite <-app_assoc.
Qed.

Lemma sendPacket_short sim path pkt :
  (length path < 2)%nat → sendPacket sim path pkt = (Dbl.zero, pkt).
Proof.
  intros Hlen. unfold sendPacket.
  by destruct (Nat.ltb_spec (length path) 2) as [_|?]; [|lia].
Qed.

(** C3, as amended: along a path of [N >= 2] nodes the counter loses
    [min (N-1, max (TTL, 0))], the hop history gains the front of the path
    and one name per hop taken, and nothing else in the packet changes; a
    path of fewer than two nodes costs 0 and leaves the packet alone. *)
Theorem sendPacket_ttl_and_hops (sim : NetworkSimulator) (path : list string)
  (pkt : Packet) :
  ((length path < 2)%nat → sendPacket sim path pkt = (Dbl.zero, pkt)) ∧
  ((2 ≤ length path)%nat →
   ∃ taken : nat,
     Z.of_nat taken = Z.min (Z.of_nat (length path) - 1) (Z.max (ttl_ pkt) 0) ∧
     ttl_ (sendPacket sim path pkt).2 = ttl_ pkt - Z.of_nat taken ∧
     hops_ (sendPacket sim path pkt).2 = hops_ pkt ++ take (1 + taken) path ∧
     length (hops_ (sendPacket sim path pkt).2)
       = (length (hops_ pkt) + 1 + taken)%nat ∧
     src_ (sendPacket sim path pkt).2 = src_ pkt ∧
     dst_ (sendPacket sim path pkt).2 = dst_ pkt ∧
     size_ (sendPacket sim path pkt).2 = size_ pkt).
Proof.
  split; [apply sendPacket_short|].
  intros Hlen. exists (hops_replayed path pkt).
  rewrite sendPacket_spec by done. cbn [snd ttl_ hops_ src_ dst_ size_].
  assert (Hk : Z.of_nat (hops_replayed path pkt)
               = Z.min (Z.of_nat (length path) - 1) (Z.max (ttl_ pkt) 0)).
  { unfold hops_replayed. lia. }
  repeat split; try done.
  rewrite length_app, length_take. unfold hops_replayed. lia.
Qed.

(** C3 as stated fails on a packet whose counter is negative: nothing is
    subtracted, whereas [min (N-1, TTL)] is -1. *)
Lemma sendPacket_negative_ttl_not_min :
  let pkt := mkPacket "H1" "H2" (-1) 100 [] in
  let path := ["H1"; "H2"] in
  ttl_ (sendPacket newNetworkSimulator path pkt).2
    ≠ ttl_ pkt - Z.min (Z.of_nat (length path) - 1) (ttl_ pkt).
Proof. vm_compute. discriminate. Qed.

Lemma first_entry_cost_first l1 : ∀ v link l2 bytes dflt,
  v ∉ l1.*1 →
  first_entry_cost (l1 ++ (v, link) :: l2) v bytes dflt = costForBytes link bytes.
Proof.
  induction l1 as [|[to lk] l1 IH]; intros v link l2 bytes dflt Hnot; simpl.
  - by rewrite decide_True.
  - rewrite fmap_cons, not_elem_of_cons in Hnot. destruct Hnot as [Hne Hnot].
    simpl in Hne. rewrite decide_False by done. by apply IH.
Qed.

Lemma first_entry_cost_none l : ∀ v bytes dflt,
  v ∉ l.*1 → first_entry_cost l v bytes dflt = dflt.
Proof.
  induction l as [|[to lk] l IH]; intros v bytes dflt Hnot; simpl; [done|].
  rewrite fmap_cons, not_elem_of_cons in Hnot. destruct Hnot as [Hne Hnot].
  simpl in Hne. rewrite decide_False by done. by apply IH.
Qed.

Lemma hop_cost_first (g : Graph string Link) u v l1 link l2 bytes :
  adj g u = l1 ++ (v, link) :: l2 → v ∉ l1.*1 →
  hop_cost g u v bytes = costForBytes link bytes.
Proof.
  unfold hop_cost, adj, data. destruct (adjacency g !! u) as [l|]; simpl.
  - intros -> Hnot. by apply first_entry_cost_first.
  - by destruct l1.
Qed.

Lemma hop_cost_none (g : Graph string Link) u v bytes :
  v ∉ getNeighbors g u → hop_cost g u v bytes = d1e9.
Proof.
  unfold hop_cost, getNeighbors, data. destruct (adjacency g !! u) as [l|]; [|done].
  apply first_entry_cost_none.
Qed.

Lemma hop_charges_lookup (g : Graph string Link) path pkt i u v :
  path !! i = Some u → path !! S i = Some v → (i < hops_replayed path pkt)%nat →
  hop_charges g path pkt !! i = Some (hop_cost g u v (size_ pkt)).
Proof.
  intros Hu Hv Hi. unfold hop_charges, consecutive_pairs.
  rewrite list_lookup_fmap, lookup_take_lt by done.
  assert (Hz : zip path (tail path) !! i = Some (u, v)).
  { apply lookup_zip_with_Some. exists u, v. split; [done|]. split; [done|].
    by rewrite lookup_tail. }
  by rewrite Hz.
Qed.

Lemma hop_charges_length (g : Graph string Link) path pkt :
  (2 ≤ length path)%nat → length (hop_charges g path pkt) = hops_replayed path pkt.
Proof.
  intros Hlen. unfold hop_charges, consecutive_pairs.
  rewrite length_fmap, length_take, length_zip_with.
  destruct path as [|x rest]; [simpl in Hlen; lia|].
  unfold hops_replayed. cbn [length tail]. lia.
Qed.


Lemma sample_sim_adjacency :
  map_to_list (adjacency (graph_ sample_sim))
  = [("S1", []); ("R1", [("S1", sample_link)]); ("H1", [])].
Proof. vm_compute. reflexivity. Qed.

Lemma parallel_sim_adj_R1 :
  adj (graph_ parallel_sim) "R1" = [("S1", slow_link); ("S1", sample_link)].
Proof. vm_compute. reflexivity. Qed.


(** On the two parallel links the replay is charged the first one, which
    is not the cheaper one. *)
Example sendPacket_first_not_cheapest :
  (sendPacket parallel_sim ["R1"; "S1"] (sample_packet 8)).1
    = Dbl.add Dbl.zero (costForBytes slow_link 1500) ∧
  Dbl.ltb (costForBytes sample_link 1500) (costForBytes slow_link 1500) = true.
Proof. split; vm_compute; reflexivity. Qed.

(** C10, as amended: when the pair [(u, v)] at position [i] of the path has
    no adjacency entry and the counter is large enough for the replay to get
    there ([i < TTL]), the hop is charged 1e9 in the returned sum, is counted
    in what the counter loses, and [v] is appended to the hop history. *)
Theorem sendPacket_missing_edge (sim : NetworkSimulator) (path : list string)
  (pkt : Packet) (i : nat) (u v : string) :
  path !! i = Some u → path !! S i = Some v →
  v ∉ getNeighbors (graph_ sim) u →
  Z.of_nat i < ttl_ pkt →
  ∃ taken : nat,
    (i < taken)%nat ∧
    (sendPacket sim path pkt).1
      = sum_from Dbl.zero (hop_charges (graph_ sim) path pkt) ∧
    length (hop_charges (graph_ sim) path pkt) = taken ∧
    hop_charges (graph_ sim) path pkt !! i = Some d1e9 ∧
    ttl_ (sendPacket sim path pkt).2 = ttl_ pkt - Z.of_nat taken ∧
    hops_ (sendPacket sim path pkt).2 !! (length (hops_ pkt) + S i)%nat = Some v.
Proof.
  intros Hu Hv Hnone Hi.
  assert (Hlen : (S i < length path)%nat) by (by eapply lookup_lt_Some).
  assert (Hk : (i < hops_replayed path pkt)%nat) by (unfold hops_replayed; lia).
  exists (hops_replayed path pkt).
  split; [done|]. split; [by rewrite sendPacket_spec by lia|].
  split; [apply hop_charges_length; lia|]. split.
  - rewrite (hop_charges_lookup _ _ _ _ u v) by done.
    f_equal. by apply hop_cost_none.
  - rewrite sendPacket_spec by lia. cbn [snd ttl_ hops_]. split; [done|].
    rewrite lookup_app_r by lia.
    replace (length (hops_ pkt) + S i - length (hops_ pkt))%nat with (S i) by lia.
    rewrite lookup_take_lt by lia. done.
Qed.

Lemma sendPacket_missing_edge_witness :
  ∃ taken : nat,
    (1 < taken)%nat ∧
    (sendPacket sample_sim ["R1"; "S1"; "H1"] (sample_packet 8)).1
      = sum_from Dbl.zero (hop_charges (graph_ sample_sim) ["R1"; "S1"; "H1"] (sample_packet 8)) ∧
    length (hop_charges (graph_ sample_sim) ["R1"; "S1"; "H1"] (sample_packet 8)) = taken ∧
    hop_charges (graph_ sample_sim) ["R1"; "S1"; "H1"] (sample_packet 8) !! 1%nat = Some d1e9 ∧
    ttl_ (sendPacket sample_sim ["R1"; "S1"; "H1"] (sample_packet 8)).2
      = ttl_ (sample_packet 8) - Z.of_nat taken ∧
    hops_ (sendPacket sample_sim ["R1"; "S1"; "H1"] (sample_packet 8)).2
      !! (length (hops_ (sample_packet 8)) + 2)%nat = Some "H1".
Proof.
  apply (sendPacket_missing_edge sample_sim ["R1"; "S1"; "H1"] (sample_packet 8)
           1%nat "S1" "H1").
  - reflexivity.
  - reflexivity.
  - vm_compute. apply not_elem_of_nil.
  - vm_compute. reflexivity.
Defined.

(** C10 as stated fails when the counter runs out before the pair: with TTL 1
    on the path R1, S1, H1 the pair (S1, H1), which has no entry, is never
    replayed: H1 is not appended, the counter loses 1 only and the total
    stays below 1e9. *)
Lemma sendPacket_missing_edge_not_reached :
  let path := ["R1"; "S1"; "H1"] in
  let pkt := sample_packet 1 in
  0 < ttl_ pkt ∧ (2 ≤ length path)%nat ∧
  path !! 1%nat = Some "S1" ∧ path !! 2%nat = Some "H1" ∧
  ("H1" ∉ getNeighbors (graph_ sample_sim) "S1") ∧
  hops_ (sendPacket sample_sim path pkt).2 = ["R1"; "S1"] ∧
  ("H1" ∉ hops_ (sendPacket sample_sim path pkt).2) ∧
  ttl_ (sendPacket sample_sim path pkt).2 = ttl_ pkt - 1 ∧
  Dbl.ltb (sendPacket sample_sim path pkt).1 d1e9 = true.
Proof.
  assert (Hh : hops_ (sendPacket sample_sim ["R1"; "S1"; "H1"] (sample_packet 1)).2
               = ["R1"; "S1"]) by (vm_compute; reflexivity).
  cbv zeta. rewrite Hh.
  repeat split; try (vm_compute; reflexivity); try (vm_compute; lia).
  - vm_compute. apply not_elem_of_nil.
  - set_solver.
Qed.

Lemma sendPacket_ttl_and_hops_witness :
  sendPacket sample_sim ["R1"] (sample_packet 8) = (Dbl.zero, sample_packet 8) ∧
  ∃ taken : nat,
    Z.of_nat taken = Z.min (Z.of_nat (length ["R1"; "S1"; "H1"]) - 1) (Z.max (ttl_ (sample_packet 1)) 0) ∧
    ttl_ (sendPacket sample_sim ["R1"; "S1"; "H1"] (sample_packet 1)).2
      = ttl_ (sample_packet 1) - Z.of_nat taken ∧
    hops_ (sendPacket sample_sim ["R1"; "S1"; "H1"] (sample_packet 1)).2
      = hops_ (sample_packet 1) ++ take (1 + taken) ["R1"; "S1"; "H1"] ∧
    length (hops_ (sendPacket sample_sim ["R1"; "S1"; "H1"] (sample_packet 1)).2)
      = (length (hops_ (sample_packet 1)) + 1 + taken)%nat ∧
    src_ (sendPacket sample_sim ["R1"; "S1"; "H1"] (sample_packet 1)).2 = src_ (sample_packet 1) ∧
    dst_ (sendPacket sample_sim ["R1"; "S1"; "H1"] (sample_packet 1)).2 = dst_ (sample_packet 1) ∧
    size_ (sendPacket sample_sim ["R1"; "S1"; "H1"] (sample_packet 1)).2 = size_ (sample_packet 1).
Proof.
  split.
  - apply (proj1 (sendPacket_ttl_and_hops sample_sim ["R1"] (sample_packet 8))).
    simpl. lia.
  - apply (proj2 (sendPacket_ttl_and_hops sample_sim ["R1"; "S1"; "H1"] (sample_packet 1))).
    simpl. lia.
Defined.

Lemma addDevice_connect_errors_witness :
  addDevice None sample_sim = (inl (runtime_error "Null device"), sample_sim) ∧
  connect "R1" "X9" sample_link true sample_sim
    = (inl (runtime_error "Unknown node in connect()"), sample_sim) ∧
  ∃ sim', connect "S1" "H1" sample_link true sample_sim = (inr tt, sim') ∧
    devices_ sim' = devices_ sample_sim ∧
    directed_ (graph_ sim') = true ∧
    dom (adjacency (graph_ sim')) = dom (adjacency (graph_ sample_sim)) ∧
    ∀ k, adj (graph_ sim') k =
         adj (graph_ sample_sim) k
           ++ (if decide ("S1" = k) then [("H1", sample_link)] else [])
           ++ (if decide ("H1" = k) then [("S1", sample_link)] else []).
Proof.
  destruct (addDevice_connect_errors sample_sim) as (Ha1 & Ha2 & Hc1 & Hc2 & Hc3).
  split; [|split].
  - apply Ha2. apply Ha1. reflexivity.
  - apply Hc2. apply Hc1. right. vm_compute. reflexivity.
  - apply (Hc3 "S1" "H1" sample_link true).
    + intros Hr%Hc1. revert Hr. vm_compute. intros [[=]|[=]].
    + reflexivity.
Defined.

Lemma addEdge_endpoints_and_neighbors_witness :
  occurrences 2%nat (getNeighbors (addEdge (newGraph true : Graph nat nat) 1%nat 2%nat 10%nat) 1%nat) = 1%nat ∧
  (2%nat, 7%nat) ∈ adj (addEdge (newGraph false : Graph nat nat) 1%nat 2%nat 7%nat) 1%nat ∧
  (1%nat, 7%nat) ∈ adj (addEdge (newGraph false : Graph nat nat) 1%nat 2%nat 7%nat) 2%nat.
Proof.
  split; [|split].
  - apply (proj1 (proj1 (proj2 (proj2
      (addEdge_endpoints_and_neighbors (newGraph true : Graph nat nat) 1%nat 2%nat 10%nat)))
      eq_refl)).
  - apply (proj2 (proj2 (proj2
      (addEdge_endpoints_and_neighbors (newGraph false : Graph nat nat) 1%nat 2%nat 7%nat)))
      eq_refl).
  - apply (proj2 (proj2 (proj2
      (addEdge_endpoints_and_neighbors (newGraph false : Graph nat nat) 1%nat 2%nat 7%nat)))
      eq_refl).
Defined.

Lemma removeNode_no_dangling_edges_witness :
  let g := addEdge (addEdge (newGraph true : Graph nat nat) 1%nat 2%nat 10%nat) 2%nat 3%nat 20%nat in
  hasNode (removeNode g 2%nat) 2%nat = false ∧
  (2%nat ∉ getNeighbors (removeNode g 2%nat) 1%nat) ∧
  adj (removeNode g 2%nat) 1%nat = filter (λ p, p.1 ≠ 2%nat) (adj g 1%nat).
Proof.
  intros g.
  destruct (removeNode_no_dangling_edges g 2%nat) as (H1 & _ & H3 & H4).
  split; [exact H1|]. split; [apply H3|]. apply H4. lia.
Defined.

(** ** Traversals *)

Section Traversals.
Context `{Countable K} {E : Type}.
Implicit Types (g : Graph K E) (q st out : list K) (visited : gset K).

Lemma getNeighbors_graph_nodes g u v : v ∈ getNeighbors g u → v ∈ graph_nodes g.
Proof.
  unfold getNeighbors, graph_nodes. destruct (adjacency g !! u) as [l|] eqn:Hu.
  - intros Hv. apply elem_of_union_r, elem_of_list_to_set, list_elem_of_bind.
    exists (u, l). split; [done|]. by apply elem_of_map_to_list.
  - by intros ?%elem_of_nil.
Qed.

Lemma bfs_visit_fold neighbors : ∀ q visited,
  ∃ new, fold_left bfs_visit neighbors (q, visited)
         = (q ++ new, list_to_set new ∪ visited) ∧
         NoDup new ∧ ∀ x, x ∈ new → x ∈ neighbors ∧ x ∉ visited.
Proof.
  induction neighbors as [|a neighbors IH]; intros q visited; simpl.
  - exists []. rewrite app_nil_r. split; [f_equal; set_solver|].
    split; [constructor|]. by intros x ?%elem_of_nil.
  - destruct (decide (a ∈ visited)) as [Ha|Ha].
    + destruct (IH q visited) as (new & -> & Hnd & Hnew).
      exists new. split; [done|]. split; [done|].
      intros x Hx. destruct (Hnew x Hx). split; [by right|done].
    + destruct (IH (q ++ [a]) ({[a]} ∪ visited)) as (new & -> & Hnd & Hnew).
      exists (a :: new). split; [|split].
      * rewrite <-app_assoc. f_equal. set_solver.
      * constructor; [|done]. intros Hx. apply Hnew in Hx. set_solver.
      * intros x [->|Hx]%elem_of_cons; [split; [by left|done]|].
        destruct (Hnew x Hx). split; [by right|set_solver].
Qed.

Lemma bfs_loop_fuel_mono fuel : ∀ fuel' g q visited out r,
  bfs_loop fuel g q visited out = Some r → (fuel ≤ fuel')%nat →
  bfs_loop fuel' g q visited out = Some r.
Proof.
  induction fuel as [|fuel IH]; intros fuel' g q visited out r; [done|].
  intros Hrun Hle. destruct fuel' as [|fuel']; [lia|].
  simpl in *. destruct q as [|node q']; [done|].
  destruct (fold_left bfs_visit (getNeighbors g node) (q', visited)) as [q'' visited'].
  apply IH; [done|lia].
Qed.

Lemma bfs_loop_prefix fuel : ∀ g q visited out r,
  bfs_loop fuel g q visited out = Some r → ∃ rest, r.1 = out ++ rest.
Proof.
  induction fuel as [|fuel IH]; intros g q visited out r; [done|].
  simpl. destruct q as [|node q'].
  - intros [= <-]. exists []. by rewrite app_nil_r.
  - destruct (fold_left bfs_visit (getNeighbors g node) (q', visited)) as [q'' visited'].
    intros (rest & ->)%IH. exists (node :: rest). by rewrite <-app_assoc.
Qed.

Lemma bfs_loop_NoDup fuel : ∀ g q visited out r,
  bfs_inv q visited out →
  bfs_loop fuel g q visited out = Some r → NoDup r.1.
Proof.
  induction fuel as [|fuel IH]; intros g q visited out r [Hnd Hvis]; [done|].
  simpl. destruct q as [|node q'].
  - intros [= <-]. by rewrite app_nil_r in Hnd.
  - destruct (bfs_visit_fold (getNeighbors g node) q' visited)
      as (new & -> & Hnew & Hfresh).
    apply IH. split.
    + replace ((out ++ [node]) ++ q' ++ new) with ((out ++ node :: q') ++ new)
        by (by rewrite <-!app_assoc).
      apply NoDup_app. split; [done|]. split; [|done].
      intros x Hx Hx'. apply Hfresh in Hx' as [_ Hx']. by apply Hx', Hvis.
    + intros x.
      replace ((out ++ [node]) ++ q' ++ new) with ((out ++ node :: q') ++ new)
        by (by rewrite <-!app_assoc).
      rewrite elem_of_app, Hvis, elem_of_union, elem_of_list_to_set. tauto.
Qed.

Lemma size_difference_fresh (U visited : gset K) (new : list K) :
  NoDup new → (∀ x, x ∈ new → x ∈ U ∧ x ∉ visited) →
  (size (U ∖ (list_to_set new ∪ visited)) + length new)%nat = size (U ∖ visited).
Proof.
  intros Hnd Hnew.
  rewrite <-(size_list_to_set (C := gset K) new) by done.
  rewrite <-size_union by set_solver.
  f_equal. apply set_eq. intros x.
  rewrite elem_of_union, !elem_of_difference, elem_of_union, elem_of_list_to_set.
  split.
  - intros [[? ?]|Hx]; [tauto|]. by apply Hnew.
  - intros [HU Hv]. destruct (decide (x ∈ new)); tauto.
Qed.

Lemma bfs_loop_terminates g (U : gset K) n : ∀ q visited out,
  (∀ u v, v ∈ getNeighbors g u → v ∈ U) →
  (size (U ∖ visited) + length q ≤ n)%nat →
  ∃ r, bfs_loop (S n) g q visited out = Some r.
Proof.
  induction n as [|n IH]; intros q visited out HU Hm.
  - destruct q; [by eexists|simpl in Hm; lia].
  - destruct q as [|node q']; [by eexists|].
    cbn [bfs_loop].
    destruct (bfs_visit_fold (getNeighbors g node) q' visited)
      as (new & -> & Hnew & Hfresh).
    apply IH; [done|].
    pose proof (size_difference_fresh U visited new Hnew) as Hsz.
    rewrite length_app. simpl in Hm.
    assert (size (U ∖ (list_to_set new ∪ visited)) + length new = size (U ∖ visited))%nat.
    { apply Hsz. intros x Hx. destruct (Hfresh x Hx). split; [by eapply HU|done]. }
    lia.
Qed.

Lemma dfs_loop_fuel_mono fuel : ∀ fuel' g st visited out r,
  dfs_loop fuel g st visited out = Some r → (fuel ≤ fuel')%nat →
  dfs_loop fuel' g st visited out = Some r.
Proof.
  induction fuel as [|fuel IH]; intros fuel' g st visited out r; [done|].
  intros Hrun Hle. destruct fuel' as [|fuel']; [lia|].
  simpl in *. destruct st as [|node st']; [done|].
  destruct (decide (node ∈ visited)); (apply IH; [done|lia]).
Qed.

Lemma dfs_loop_prefix fuel : ∀ g st visited out r,
  dfs_loop fuel g st visited out = Some r → ∃ rest, r.1 = out ++ rest.
Proof.
  induction fuel as [|fuel IH]; intros g st visited out r; [done|].
  simpl. destruct st as [|node st'].
  - intros [= <-]. exists []. by rewrite app_nil_r.
  - destruct (decide (node ∈ visited)); [by apply IH|].
    intros (rest & ->)%IH. exists (node :: rest). by rewrite <-app_assoc.
Qed.

Lemma dfs_loop_NoDup fuel : ∀ g st visited out r,
  NoDup out → (∀ x, x ∈ out ↔ x ∈ visited) →
  dfs_loop fuel g st visited out = Some r → NoDup r.1.
Proof.
  induction fuel as [|fuel IH]; intros g st visited out r Hnd Hvis; [done|].
  simpl. destruct st as [|node st'].
  - by intros [= <-].
  - destruct (decide (node ∈ visited)) as [Hin|Hin]; [by apply IH|].
    apply IH.
    + apply NoDup_app. split; [done|]. split; [|apply NoDup_singleton].
      intros x Hx ->%list_elem_of_singleton. by apply Hin, Hvis.
    + intros x. rewrite elem_of_app, list_elem_of_singleton, Hvis. set_solver.
Qed.

Lemma elem_of_push_all (l : list K) : ∀ st x,
  x ∈ fold_left (λ s neighbor, neighbor :: s) l st ↔ x ∈ l ∨ x ∈ st.
Proof.
  induction l as [|a l IH]; intros st x; simpl.
  - rewrite elem_of_nil. tauto.
  - rewrite IH, !elem_of_cons. tauto.
Qed.

Lemma dfs_loop_terminates g (U : gset K) n :
  (∀ u v, v ∈ getNeighbors g u → v ∈ U) →
  ∀ st visited out,
    (size (U ∖ visited) ≤ n)%nat → (∀ x, x ∈ st → x ∈ U) →
    ∃ fuel r, dfs_loop fuel g st visited out = Some r.
Proof.
  intros HU. induction n as [|n IHn]; intros st.
  - induction st as [|node st IHst]; intros visited out Hsz Hst.
    + by exists 1%nat; eexists.
    + destruct (IHst visited out Hsz) as (fuel & r & Hr).
      { intros x Hx. apply Hst. by right. }
      exists (S fuel), r. simpl. rewrite decide_True; [done|].
      assert (node ∈ U) by (apply Hst; by left).
      assert (size (U ∖ visited) = 0%nat) as Hsz'%size_empty_iff by lia.
      set_solver.
  - induction st as [|node st IHst]; intros visited out Hsz Hst.
    + by exists 1%nat; eexists.
    + destruct (decide (node ∈ visited)) as [Hin|Hin].
      * destruct (IHst visited out Hsz) as (fuel & r & Hr).
        { intros x Hx. apply Hst. by right. }
        exists (S fuel), r. simpl. by rewrite decide_True.
      * destruct (IHn (fold_left (λ s neighbor, neighbor :: s) (getNeighbors g node) st)
                    ({[node]} ∪ visited) (out ++ [node])) as (fuel & r & Hr).
        { assert (HnU : node ∈ U) by (apply Hst; by left).
          pose proof (size_difference_fresh U visited [node]) as Hs.
          simpl in Hs. rewrite (right_id_L ∅ (∪)) in Hs.
          rewrite <-Hs in Hsz; [lia|apply NoDup_singleton|].
          intros x ->%list_elem_of_singleton. done. }
        { intros x [Hx|Hx]%elem_of_push_all; [by eapply HU|]. apply Hst. by right. }
        exists (S fuel), r. simpl. by rewrite decide_False.
Qed.

Lemma BFS_run_result g start :
  ∃ fuel out visited,
    BFS_run fuel g start = Some (out, visited) ∧
    (∀ fuel' r, BFS_run fuel' g start = Some r → r = (out, visited)) ∧
    NoDup out ∧ head out = Some start ∧
    ((∀ v, v ∈ getNeighbors g start → v = start) → out = [start]).
Proof.
  set (U := graph_nodes g ∪ {[start]}).
  destruct (bfs_loop_terminates g U (size U + 1) [start] {[start]} [])
    as ([out visited] & Hrun).
  { intros u v Hv. apply elem_of_union_l. by eapply getNeighbors_graph_nodes. }
  { assert (size (U ∖ {[start]}) ≤ size U)%nat by (apply subseteq_size; set_solver).
    cbn [length]. lia. }
  exists (S (size U + 1)), out, visited. split; [done|].
  split; [|split; [|split]].
  - intros fuel' r Hr. unfold BFS_run in *.
    destruct (Nat.le_ge_cases fuel' (S (size U + 1))) as [Hle|Hle].
    + pose proof (bfs_loop_fuel_mono _ _ _ _ _ _ _ Hr Hle). congruence.
    + pose proof (bfs_loop_fuel_mono _ _ _ _ _ _ _ Hrun Hle). congruence.
  - apply (bfs_loop_NoDup _ _ _ _ _ _ (conj
        (NoDup_singleton start : NoDup ([] ++ [start]))
        (λ x, conj (λ Hx, proj2 (elem_of_singleton x start)
                           (proj1 (list_elem_of_singleton x start) Hx))
                   (λ Hx, proj2 (list_elem_of_singleton x start)
                           (proj1 (elem_of_singleton x start) Hx)))) Hrun).
  - unfold BFS_run in Hrun. cbn [bfs_loop] in Hrun.
    destruct (fold_left bfs_visit (getNeighbors g start) ([], {[start]})) as [q' v'].
    apply bfs_loop_prefix in Hrun as (rest & Hrest). simpl in Hrest. by subst.
  - intros Hself. unfold BFS_run in Hrun. cbn [bfs_loop] in Hrun.
    destruct (bfs_visit_fold (getNeighbors g start) [] {[start]})
      as (new & Hfold & _ & Hfresh).
    rewrite Hfold in Hrun.
    destruct new as [|x new].
    + replace (size U + 1)%nat with (S (size U)) in Hrun by lia.
      simpl in Hrun. congruence.
    + destruct (Hfresh x) as [Hx Hnx]; [by left|].
      apply Hself in Hx. set_solver.
Qed.

Lemma DFS_run_result g start :
  ∃ fuel out visited,
    DFS_run fuel g start = Some (out, visited) ∧
    (∀ fuel' r, DFS_run fuel' g start = Some r → r = (out, visited)) ∧
    NoDup out ∧ head out = Some start ∧
    ((∀ v, v ∈ getNeighbors g start → v = start) → out = [start]).
Proof.
  set (U := graph_nodes g ∪ {[start]}).
  destruct (dfs_loop_terminates g U (size U)
              (λ u v Hv, elem_of_union_l _ _ _ (getNeighbors_graph_nodes g u v Hv))
              [start] ∅ []) as (fuel & [out visited] & Hrun).
  { apply subseteq_size. set_solver. }
  { intros x ->%list_elem_of_singleton. set_solver. }
  exists fuel, out, visited. split; [done|].
  split; [|split; [|split]].
  - intros fuel' r Hr. unfold DFS_run in *.
    destruct (Nat.le_ge_cases fuel' fuel) as [Hle|Hle].
    + pose proof (dfs_loop_fuel_mono _ _ _ _ _ _ _ Hr Hle). congruence.
    + pose proof (dfs_loop_fuel_mono _ _ _ _ _ _ _ Hrun Hle). congruence.
  - apply (dfs_loop_NoDup _ _ _ _ _ _ (NoDup_nil_2 : NoDup []) 
             (λ x, conj (λ Hx, False_ind _ (proj1 (elem_of_nil x) Hx))
                        (λ Hx, False_ind _ (not_elem_of_empty x Hx))) Hrun).
  - unfold DFS_run in Hrun. destruct fuel as [|fuel]; [done|].
    cbn [dfs_loop] in Hrun. rewrite decide_False in Hrun by set_solver.
    apply dfs_loop_prefix in Hrun as (rest & Hrest). simpl in Hrest. by subst.
  - intros Hself. unfold DFS_run in Hrun. destruct fuel as [|fuel]; [done|].
    cbn [dfs_loop] in Hrun. rewrite decide_False in Hrun by set_solver.
    assert (Hall : ∀ fuel st out r,
      (∀ x, x ∈ st → x = start) →
      dfs_loop fuel g st ({[start]} ∪ ∅) out = Some r → r.1 = out).
    { clear. intros fuel. induction fuel as [|fuel IH]; intros st out r Hst; [done|].
      simpl. destruct st as [|node st]; [by intros [= <-]|].
      rewrite decide_True.
      - apply IH. intros x Hx. apply Hst. by right.
      - rewrite (Hst node) by (by left). set_solver. }
    apply Hall in Hrun; [done|].
    intros x [Hx|Hx]%elem_of_push_all; [by apply Hself|by apply elem_of_nil in Hx].
Qed.

(** C9: on every graph and from every start node, present in the adjacency
    map or not, both traversals run to completion within a finite number of
    iterations, the outcome does not depend on the bound, no node is emitted
    twice, the start node is emitted first, and a start node that has no
    neighbour other than itself is the only node emitted. *)
Theorem traversals_terminate_start_first_no_repeats g start :
  (∃ fuel out visited,
     BFS_run fuel g start = Some (out, visited) ∧
     (∀ fuel' r, BFS_run fuel' g start = Some r → r = (out, visited)) ∧
     NoDup out ∧ head out = Some start ∧
     ((∀ v, v ∈ getNeighbors g start → v = start) → out = [start])) ∧
  (∃ fuel out visited,
     DFS_run fuel g start = Some (out, visited) ∧
     (∀ fuel' r, DFS_run fuel' g start = Some r → r = (out, visited)) ∧
     NoDup out ∧ head out = Some start ∧
     ((∀ v, v ∈ getNeighbors g start → v = start) → out = [start])).
Proof. split; [apply BFS_run_result|apply DFS_run_result]. Qed.

End Traversals.

(** ** Order and addition on [double] *)

Module DblFacts.
Import Dbl.

Lemma ltb_Fin x y : ltb (Fin x) (Fin y) = true ↔ (x < y)%Q.
Proof.
  simpl. rewrite negb_true_iff, <-not_true_iff_false, Qle_bool_iff.
  split; [apply Qnot_le_lt|apply Qlt_not_le].
Qed.

Lemma eqb_Fin x y : eqb (Fin x) (Fin y) = true ↔ (x == y)%Q.
Proof. apply Qeq_bool_iff. Qed.

Lemma leb_Fin x y : leb (Fin x) (Fin y) = true ↔ (x <= y)%Q.
Proof.
  unfold leb. rewrite orb_true_iff, ltb_Fin, eqb_Fin. split.
  - intros [?|?]; lra.
  - intros ?. destruct (Qlt_le_dec x y); [by left|right; lra].
Qed.

(** Case analysis on every [double] in sight, comparisons of finite values
    turned into comparisons of rationals. *)
Ltac dbl_cases :=
  unfold nonneg, geb, gtb, neqb, zero, infinity in *;
  repeat match goal with
  | a : double |- _ => destruct a as [?| | |]
  end;
  cbn [add] in *;
  rewrite ?negb_true_iff, ?negb_false_iff in *;
  rewrite <-?not_true_iff_false in *;
  rewrite ?ltb_Fin, ?leb_Fin, ?eqb_Fin in *;
  simpl in *;
  try done; try tauto; try (intros; lra).

Lemma nonneg_add a b : nonneg a → nonneg b → nonneg (add a b).
Proof. dbl_cases. Qed.

Lemma leb_refl a : nonneg a → leb a a = true.
Proof. dbl_cases. Qed.

Lemma eqb_refl a : nonneg a → eqb a a = true.
Proof. dbl_cases. Qed.

Lemma leb_trans a b c : leb a b = true → leb b c = true → leb a c = true.
Proof. dbl_cases. Qed.

Lemma ltb_leb a b : ltb a b = true → leb a b = true.
Proof. unfold leb. by intros ->. Qed.

Lemma leb_total a b : nonneg a → nonneg b → ltb a b = false → leb b a = true.
Proof. dbl_cases. Qed.

Lemma leb_ltb_false a b : leb a b = true → ltb b a = false.
Proof. dbl_cases. Qed.

Lemma ltb_eqb_false a b : ltb a b = true → eqb b a = false.
Proof. dbl_cases. Qed.

Lemma ltb_leb_trans a b c : ltb a b = true → leb b c = true → ltb a c = true.
Proof. dbl_cases. Qed.

Lemma leb_add_r a w : nonneg a → nonneg w → leb a (add a w) = true.
Proof. dbl_cases. Qed.

Lemma add_mono_l a b w :
  nonneg a → nonneg w → leb a b = true → leb (add a w) (add b w) = true.
Proof. dbl_cases. Qed.

Lemma ltb_finite a b : ltb a b = true → eqb a PInf = false.
Proof. dbl_cases. Qed.

Lemma eqb_PInf a : eqb a PInf = true ↔ a = PInf.
Proof. destruct a; simpl; split; try done. Qed.

Lemma neqb_false a b : neqb a b = false ↔ eqb a b = true.
Proof. unfold neqb. by rewrite negb_false_iff. Qed.

Lemma neqb_true a b : neqb a b = true ↔ eqb a b = false.
Proof. unfold neqb. by rewrite negb_true_iff. Qed.

Lemma leb_PInf a : nonneg a → leb a PInf = true.
Proof. dbl_cases. Qed.

(** Cancellation of a finite summand. *)
Lemma leb_add_cancel a b q :
  nonneg a → nonneg b →
  leb (add a (Fin q)) (add b (Fin q)) = true → leb a b = true.
Proof. dbl_cases. Qed.

Lemma eqb_nonneg a b : nonneg a → eqb a b = true → nonneg b.
Proof. dbl_cases. Qed.

Lemma add_mono_r a b w :
  nonneg w → nonneg a → leb a b = true → leb (add w a) (add w b) = true.
Proof. dbl_cases. Qed.

Lemma leb_antisym a b : leb a b = true → leb b a = true → eqb a b = true.
Proof. dbl_cases. Qed.

Lemma eqb_add_l a b w :
  nonneg w → eqb a b = true → nonneg a → eqb (add a w) (add b w) = true.
Proof. dbl_cases. Qed.

Lemma eqb_trans a b c : eqb a b = true → eqb b c = true → eqb a c = true.
Proof. dbl_cases. Qed.

Lemma eqb_leb_trans a b c : eqb a b = true → leb b c = true → leb a c = true.
Proof. dbl_cases. Qed.

Lemma leb_finite a b : nonneg a → leb a b = true → eqb b PInf = false → eqb a PInf = false.
Proof. dbl_cases. Qed.

Lemma add_finite a q : nonneg a → eqb a PInf = false → eqb (add a (Fin q)) PInf = false.
Proof. dbl_cases. Qed.

Lemma add_PInf_l w : nonneg w → add PInf w = PInf.
Proof. dbl_cases. Qed.

Lemma finite_nonneg_nonneg a : finite_nonneg a → nonneg a.
Proof. intros (q & -> & Hq). by apply leb_Fin. Qed.

Lemma eqb_sym a b : eqb a b = true → eqb b a = true.
Proof. dbl_cases. Qed.

End DblFacts.

(** ** Dijkstra: the priority queue *)

Section PriorityQueue.
Context `{Countable K}.
Variable node_ltb : K → K → bool.

Lemma pq_extract_perm (l : list (QItem (K := K))) : ∀ x m r,
  pq_extract node_ltb x l = (m, r) → x :: l ≡ₚ m :: r.
Proof.
  induction l as [|y l IH]; intros x m r; simpl.
  - by intros [= <- <-].
  - destruct (pq_extract node_ltb y l) as [m' r'] eqn:Hex.
    specialize (IH _ _ _ Hex).
    destruct (qitem_ltb node_ltb m' x); intros [= <- <-].
    + rewrite IH. apply perm_swap.
    + by rewrite IH.
Qed.

Lemma pq_extract_min (l : list (QItem (K := K))) : ∀ x m r,
  (∀ y, y ∈ x :: l → Dbl.nonneg y.1) →
  pq_extract node_ltb x l = (m, r) →
  ∀ y, y ∈ r → Dbl.leb m.1 y.1 = true.
Proof.
  induction l as [|y l IH]; intros x m r Hnn; simpl.
  - intros [= <- <-] z Hz. by apply elem_of_nil in Hz.
  - destruct (pq_extract node_ltb y l) as [m' r'] eqn:Hex.
    assert (Hnn' : ∀ z, z ∈ y :: l → Dbl.nonneg z.1).
    { intros z Hz. apply Hnn. by right. }
    pose proof (IH _ _ _ Hnn' Hex) as Hmin.
    assert (Hm' : Dbl.nonneg m'.1).
    { apply Hnn'. rewrite (pq_extract_perm _ _ _ _ Hex). by left. }
    assert (Hx : Dbl.nonneg x.1) by (apply Hnn; by left).
    destruct (qitem_ltb node_ltb m' x) eqn:Hlt; intros [= <- <-] z Hz.
    + apply elem_of_cons in Hz as [->|Hz]; [|by apply Hmin].
      unfold qitem_ltb in Hlt. apply orb_true_iff in Hlt as [Hlt|Hlt].
      * by apply DblFacts.ltb_leb.
      * apply andb_true_iff in Hlt as [Hlt _]. apply negb_true_iff in Hlt.
        by apply DblFacts.leb_total.
    + assert (Hxm : Dbl.leb x.1 m'.1 = true).
      { unfold qitem_ltb in Hlt. apply orb_false_iff in Hlt as [Hlt _].
        by apply DblFacts.leb_total. }
      apply elem_of_cons in Hz as [->|Hz]; [done|].
      eapply DblFacts.leb_trans; [done|]. by apply Hmin.
Qed.

End PriorityQueue.

(** ** Dijkstra: walks *)

Section Walks.
Context `{Countable K}.
Implicit Types (g : Graph K WeightedEdge) (p : list (K * WeightedEdge)).

Lemma walk_weight_from_app d p1 p2 :
  walk_weight_from d (p1 ++ p2) = walk_weight_from (walk_weight_from d p1) p2.
Proof. unfold walk_weight_from. by rewrite fold_left_app. Qed.

Lemma walk_weight_snoc p v w :
  walk_weight (p ++ [(v, w)]) = Dbl.add (walk_weight p) (weight w).
Proof. unfold walk_weight. by rewrite walk_weight_from_app. Qed.

Lemma walk_end_snoc (s : K) p v w : walk_end s (p ++ [(v, w)]) = v.
Proof. unfold walk_end. rewrite fmap_app. simpl. by rewrite last_snoc. Qed.

Lemma walk_walk_end g s p v : walk g s p v → walk_end s p = v.
Proof. destruct 1; [done|apply walk_end_snoc]. Qed.

Lemma walk_app g s p1 u p2 v :
  walk g s p1 u → walk g u p2 v → walk g s (p1 ++ p2) v.
Proof.
  intros H1 H2. induction H2 as [|p2 a b w Hp IH Hin].
  - by rewrite app_nil_r.
  - rewrite app_assoc. by econstructor.
Qed.

Lemma walk_snoc_inv g s p e v :
  walk g s (p ++ [e]) v → v = e.1 ∧ ∃ u, walk g s p u ∧ e ∈ adj g u.
Proof.
  intros Hw. remember (p ++ [e]) as pe eqn:Heq.
  destruct Hw as [|p' u v w Hp Hin].
  - by destruct p.
  - apply app_inj_tail in Heq as [Hp' He]. subst. eauto.
Qed.

Lemma walk_prefix g s p1 : ∀ p2 v,
  walk g s (p1 ++ p2) v → walk g s p1 (walk_end s p1) ∧ walk g (walk_end s p1) p2 v.
Proof.
  intros p2. induction p2 as [|[x w] p2 IH] using rev_ind; intros v Hw.
  - rewrite app_nil_r in Hw. rewrite (walk_walk_end _ _ _ _ Hw).
    split; [done|constructor].
  - rewrite app_assoc in Hw.
    apply walk_snoc_inv in Hw as (-> & u & Hp & Hin).
    destruct (IH _ Hp) as [H1 H2]. split; [done|]. by econstructor.
Qed.

Lemma tree_walk_walk g s settled dist parent p v :
  tree_walk g s settled dist parent p v → walk g s p v.
Proof. induction 1; by econstructor. Qed.

Lemma tree_walk_settled_mono g s settled settled' dist parent p v :
  settled ⊆ settled' →
  tree_walk g s settled dist parent p v → tree_walk g s settled' dist parent p v.
Proof. intros Hsub. induction 1; econstructor; eauto. Qed.

(** Changing [dist] and [parent] at a node that is not settled leaves the
    tree walks to the other nodes as they are. *)
Lemma tree_walk_update g s settled dist parent p x v nd u :
  v ∉ settled → x ≠ v →
  tree_walk g s settled dist parent p x →
  tree_walk g s settled (<[v := nd]> dist) (<[v := u]> parent) p x.
Proof.
  intros Hv Hx Hw. induction Hw as [|p a b w Hp IH Ha Hda Hb Hpar Hin].
  - constructor.
  - assert (a ≠ v) by (intros ->; done).
    econstructor; eauto.
    + by rewrite lookup_insert_ne.
    + by rewrite lookup_insert_ne.
Qed.

(** [getPathTo] walks a tree walk back to its source. *)
Lemma getPathTo_loop_tree_walk g s settled dist parent p v :
  tree_walk g s settled dist parent p v →
  ∀ fuel acc, (length p < fuel)%nat →
    getPathTo_loop fuel parent s v acc = Some (walk_nodes s p ++ reverse acc).
Proof.
  induction 1 as [|p a b w Hp IH Ha Hda Hb Hpar Hin]; intros fuel acc Hfuel.
  - destruct fuel as [|fuel]; [lia|]. simpl.
    rewrite decide_False by (intros ?; done).
    by rewrite reverse_snoc.
  - destruct fuel as [|fuel]; [simpl in Hfuel; lia|]. simpl.
    rewrite decide_True by done. rewrite Hpar.
    rewrite IH by (rewrite length_app in Hfuel; simpl in Hfuel; lia).
    f_equal. unfold walk_nodes. rewrite fmap_app, reverse_snoc. simpl.
    by rewrite <-app_assoc.
Qed.

(** From a node that has a tree walk the loop comes to an end, whatever
    node it is asked to stop at. *)
Lemma getPathTo_loop_terminates g s settled dist parent p v :
  parent !! s = None →
  tree_walk g s settled dist parent p v →
  ∀ start fuel acc, (length p < fuel)%nat →
    ∃ l, getPathTo_loop fuel parent start v acc = Some l.
Proof.
  intros Hs. induction 1 as [|p a b w Hp IH Ha Hda Hb Hpar Hin];
    intros start fuel acc Hfuel.
  - destruct fuel as [|fuel]; [lia|]. simpl.
    destruct (decide (s ≠ start)); [|by eexists].
    rewrite Hs. by eexists.
  - destruct fuel as [|fuel]; [simpl in Hfuel; lia|]. simpl.
    destruct (decide (b ≠ start)); [|by eexists].
    rewrite Hpar. apply IH. rewrite length_app in Hfuel. simpl in Hfuel. lia.
Qed.

Lemma getPathTo_loop_fuel_mono (parent : gmap K K) start fuel : ∀ fuel' cur acc l,
  getPathTo_loop fuel parent start cur acc = Some l → (fuel ≤ fuel')%nat →
  getPathTo_loop fuel' parent start cur acc = Some l.
Proof.
  induction fuel as [|fuel IH]; intros fuel' cur acc l; [done|].
  intros Hrun Hle. destruct fuel' as [|fuel']; [lia|].
  simpl in *. destruct (decide (cur ≠ start)); [|done].
  destruct (parent !! cur); [|done]. apply IH; [done|lia].
Qed.

(** A sequence that the loop returns is empty, or runs from [start] to the
    node where the loop began. *)
Lemma getPathTo_loop_ends (parent : gmap K K) start fuel : ∀ cur acc l,
  getPathTo_loop fuel parent start cur acc = Some l →
  l = [] ∨ ∃ more, l = reverse (acc ++ more ++ [start]) ∧
                   head (more ++ [start]) = Some cur.
Proof.
  induction fuel as [|fuel IH]; intros cur acc l; [done|]. simpl.
  destruct (decide (cur ≠ start)) as [Hne|Heq].
  - destruct (parent !! cur) as [p|]; [|intros [= <-]; by left].
    intros [->|(more & -> & Hhd)]%IH; [by left|]. right.
    exists (cur :: more). split; [by rewrite <-app_assoc|done].
  - intros [= <-]. right. exists []. split; [done|].
    simpl. f_equal. by destruct (decide (cur = start)); [|destruct Heq; intros ?].
Qed.

Lemma getPathTo_loop_broken (parent : gmap K K) start n : ∀ cur fuel acc,
  broken_chain parent start cur n → (n < fuel)%nat →
  getPathTo_loop fuel parent start cur acc = Some [].
Proof.
  induction n as [|n IH]; intros cur fuel acc [Hne Hb] Hfuel;
    (destruct fuel as [|fuel]; [lia|]); simpl; rewrite decide_True by done.
  - by destruct (parent !! cur).
  - destruct (parent !! cur) as [p|]; [|done]. apply IH; [done|lia].
Qed.

End Walks.

(** ** Dijkstra: the main loop *)

Section DijkstraLoop.
Context `{Countable K}.
Variable node_ltb : K → K → bool.
Variable g : Graph K WeightedEdge.
Variable s : K.
Hypothesis Hwf : graph_wf g.
Hypothesis Hnn : ∀ u v w, (v, w) ∈ adj g u → Dbl.nonneg (weight w).

Implicit Types (settled : gset K) (dist : gmap K double) (parent : gmap K K)
  (pq : list (QItem (K := K))) (pending : list (K * WeightedEdge)).

Lemma adj_target_in_dom dist u v w :
  dom dist = dom (adjacency g) → (v, w) ∈ adj g u → is_Some (dist !! v).
Proof.
  intros Hdom Hin. apply elem_of_dom. rewrite Hdom. apply elem_of_dom.
  by eapply (proj1 (graph_wf_adj g) Hwf).
Qed.

Lemma map_index_present dist v dv :
  dist !! v = Some dv → map_index Dbl.zero dist v = (dv, dist).
Proof. unfold map_index. by intros ->. Qed.

(** One adjacency entry of the node being settled. *)
Lemma relax_step settled lo dist parent pq cur v w pending :
  dijkstra_inv g s settled lo dist parent pq cur ((v, w) :: pending) →
  cur ∈ settled → dist !! cur = Some lo → (v, w) ∈ adj g cur →
  ∃ dist' parent' pq',
    relax lo cur (dist, parent, pq) (v, w) = (dist', parent', pq') ∧
    dist' !! cur = Some lo ∧
    dijkstra_inv g s settled lo dist' parent' pq' cur pending.
Proof.
  intros Hinv Hcur Hlo Hin.
  destruct Hinv as [Hdom Hstart Hsp Hlonn Hdnn Htree Hq Hitems Hset].
  destruct (adj_target_in_dom dist cur v w Hdom Hin) as [dv Hdv].
  pose proof (Hnn _ _ _ Hin) as Hw.
  pose proof (DblFacts.nonneg_add _ _ Hlonn Hw) as Hndnn.
  pose proof (Hdnn _ _ Hdv) as Hdvnn.
  unfold relax. rewrite (map_index_present _ _ _ Hdv).
  set (nd := Dbl.add lo (weight w)) in *.
  destruct (Dbl.ltb nd dv) eqn:Hlt.
  - (* the entry improves [dist[v]] *)
    assert (Hvs : v ∉ settled).
    { intros Hv. destruct (Hset v Hv) as (dv' & Hdv' & _ & Hle & _).
      rewrite Hdv in Hdv'. injection Hdv' as <-.
      assert (Hge : Dbl.leb dv nd = true).
      { eapply DblFacts.leb_trans; [done|]. by apply DblFacts.leb_add_r. }
      apply DblFacts.leb_ltb_false in Hge. congruence. }
    assert (Hvne : v ≠ s).
    { intros ->. rewrite Hstart in Hdv. injection Hdv as <-.
      apply DblFacts.leb_ltb_false in Hndnn. congruence. }
    assert (Hvcur : cur ≠ v) by (intros ->; done).
    assert (Hfin : Dbl.eqb nd Dbl.infinity = false) by (by eapply DblFacts.ltb_finite).
    eexists _, _, _. split; [reflexivity|].
    split; [by rewrite lookup_insert_ne|]. split.
    + rewrite dom_insert_L, <-Hdom.
      apply (elem_of_dom_2 (D := gset K)) in Hdv. set_solver.
    + by rewrite lookup_insert_ne.
    + by rewrite lookup_insert_ne.
    + done.
    + intros x dx. rewrite lookup_insert. case_decide; [by intros [= <-]|]. apply Hdnn.
    + intros x dx. rewrite lookup_insert. case_decide as Hx.
      * subst x. intros [= <-] _.
        destruct (Hset cur Hcur) as (du & Hdu & Hdufin & _).
        rewrite Hlo in Hdu. injection Hdu as <-.
        destruct (Htree cur lo Hlo Hdufin) as (p & Hp & Hpw).
        exists (p ++ [(v, w)]). split.
        -- econstructor; eauto.
           ++ by apply tree_walk_update.
           ++ rewrite lookup_insert_ne by done. by rewrite <-Hpw.
           ++ by rewrite lookup_insert_eq.
        -- rewrite walk_weight_snoc. by rewrite <-Hpw.
      * intros Hdx Hdxfin. destruct (Htree x dx Hdx Hdxfin) as (p & Hp & Hpw).
        exists p. split; [|done]. apply tree_walk_update; [done|congruence|done].
    + intros x dx. rewrite lookup_insert. case_decide as Hx.
      * subst x. intros [= <-] _ _. apply elem_of_app. right. by left.
      * intros Hdx Hdxfin Hxs. apply elem_of_app. left. by apply Hq.
    + intros d x [Hdx|Hdx%list_elem_of_singleton]%elem_of_app.
      * destruct (Hitems d x Hdx) as (Hd1 & Hd2 & Hd3 & dx & Hx & Hle & Heq).
        split; [done|]. split; [done|]. split; [done|].
        rewrite lookup_insert. case_decide as Hvx.
        -- subst x. rewrite Hdv in Hx. injection Hx as <-.
           assert (Hltd : Dbl.ltb nd d = true) by (by eapply DblFacts.ltb_leb_trans).
           exists nd. split; [done|]. split; [by apply DblFacts.ltb_leb|].
           intros Heq'. apply DblFacts.ltb_eqb_false in Hltd. congruence.
        -- exists dx. done.
      * injection Hdx as -> ->.
        split; [done|]. split; [done|].
        split; [by apply DblFacts.leb_add_r|].
        exists nd. rewrite lookup_insert_eq. split; [done|].
        split; [by apply DblFacts.leb_refl|done].
    + intros u Hu. destruct (Hset u Hu) as (du & Hdu & Hdufin & Hdule & Hedges).
      assert (Huv : v ≠ u) by (intros ->; done).
      exists du. rewrite lookup_insert_ne by done.
      split; [done|]. split; [done|]. split; [done|].
      intros x wx Hx. destruct (Hedges x wx Hx) as [[-> Hpend]|(dx & Hdx & Hle)].
      * apply elem_of_cons in Hpend as [[= -> ->]|Hpend]; [|by left].
        right. exists nd. rewrite lookup_insert_eq. split; [done|].
        rewrite Hlo in Hdu. injection Hdu as <-. by apply DblFacts.leb_refl.
      * right. rewrite lookup_insert. case_decide as Hvx.
        -- subst x. rewrite Hdv in Hdx. injection Hdx as <-.
           exists nd. split; [done|].
           apply DblFacts.ltb_leb. by eapply DblFacts.ltb_leb_trans.
        -- by exists dx.
  - (* the entry does not improve [dist[v]] *)
    eexists _, _, _. split; [reflexivity|]. split; [done|]. split; try done.
    intros u Hu. destruct (Hset u Hu) as (du & Hdu & Hdufin & Hdule & Hedges).
    exists du. split; [done|]. split; [done|]. split; [done|].
    intros x wx Hx. destruct (Hedges x wx Hx) as [[-> Hpend]|Hrel]; [|by right].
    apply elem_of_cons in Hpend as [[= -> ->]|Hpend]; [|by left].
    right. exists dv. split; [done|].
    rewrite Hlo in Hdu. injection Hdu as <-. by apply DblFacts.leb_total.
Qed.

Lemma relax_fold settled lo cur pending : ∀ dist parent pq,
  dijkstra_inv g s settled lo dist parent pq cur pending →
  cur ∈ settled → dist !! cur = Some lo →
  (∀ e, e ∈ pending → e ∈ adj g cur) →
  ∃ dist' parent' pq',
    fold_left (relax lo cur) pending (dist, parent, pq) = (dist', parent', pq') ∧
    dijkstra_inv g s settled lo dist' parent' pq' cur [].
Proof.
  induction pending as [|[v w] pending IH]; intros dist parent pq Hinv Hcur Hlo Hsub.
  - by eexists _, _, _.
  - destruct (relax_step _ _ _ _ _ _ _ _ _ Hinv Hcur Hlo)
      as (d1 & p1 & q1 & Hr & Hlo1 & Hinv1).
    { apply Hsub. by left. }
    cbn [fold_left]. rewrite Hr. apply IH; [done|done|done|].
    intros e He. apply Hsub. by right.
Qed.

(** Relaxing entries that are relaxed already changes nothing. *)
Lemma relax_fold_noop du cur entries : ∀ dist parent pq,
  (∀ v w, (v, w) ∈ entries →
     ∃ dv, dist !! v = Some dv ∧ Dbl.leb dv (Dbl.add du (weight w)) = true) →
  fold_left (relax du cur) entries (dist, parent, pq) = (dist, parent, pq).
Proof.
  induction entries as [|[v w] entries IH]; intros dist parent pq Hrel; [done|].
  simpl. destruct (Hrel v w) as (dv & Hdv & Hle); [by left|].
  rewrite (map_index_present _ _ _ Hdv).
  rewrite (DblFacts.leb_ltb_false _ _ Hle).
  apply IH. intros v' w' Hin. apply Hrel. by right.
Qed.

(** Popping an item that is stale, or whose node is settled already. *)
Lemma inv_pop_drop settled lo dist parent pq cur d u pq' :
  dijkstra_inv g s settled lo dist parent pq cur [] →
  pq ≡ₚ (d, u) :: pq' →
  (u ∈ settled ∨ ∃ du, dist !! u = Some du ∧ Dbl.eqb d du = false) →
  dijkstra_inv g s settled lo dist parent pq' cur [].
Proof.
  intros [Hdom Hstart Hsp Hlonn Hdnn Htree Hq Hitems Hset] Hperm Hdrop.
  split; try done.
  - intros v dv Hdv Hfin Hv.
    pose proof (Hq v dv Hdv Hfin Hv) as Hin. rewrite Hperm in Hin.
    apply elem_of_cons in Hin as [[= -> ->]|Hin]; [|done].
    destruct Hdrop as [Hu|(du & Hdu & Hne)]; [done|].
    rewrite Hdv in Hdu. injection Hdu as <-.
    rewrite DblFacts.eqb_refl in Hne by (by eapply Hdnn). done.
  - intros d' v Hin. apply Hitems. rewrite Hperm. by right.
Qed.

(** Popping the item of a node that becomes settled. *)
Lemma inv_pop_settle settled lo dist parent pq cur d u pq' :
  dijkstra_inv g s settled lo dist parent pq cur [] →
  pq ≡ₚ (d, u) :: pq' →
  (∀ y, y ∈ pq' → Dbl.leb d y.1 = true) →
  dist !! u = Some d →
  dijkstra_inv g s ({[u]} ∪ settled) d dist parent pq' u (adj g u).
Proof.
  intros [Hdom Hstart Hsp Hlonn Hdnn Htree Hq Hitems Hset] Hperm Hmin Hdu.
  destruct (Hitems d u) as (Hdnn' & Hdfin & Hlod & _); [rewrite Hperm; by left|].
  split; try done.
  - intros v dv Hdv Hfin. destruct (Htree v dv Hdv Hfin) as (p & Hp & Hpw).
    exists p. split; [|done].
    eapply tree_walk_settled_mono; [|done]. set_solver.
  - intros v dv Hdv Hfin Hv.
    assert (Hin : (dv, v) ∈ pq) by (apply Hq; [done|done|set_solver]).
    rewrite Hperm in Hin. apply elem_of_cons in Hin as [[= -> ->]|Hin]; [|done].
    set_solver.
  - intros d' v Hin.
    destruct (Hitems d' v) as (H1 & H2 & H3 & H4); [rewrite Hperm; by right|].
    split; [done|]. split; [done|]. split; [|done]. by apply (Hmin (d', v)).
  - intros x [->%elem_of_singleton|Hx]%elem_of_union.
    + exists d. split; [done|]. split; [done|].
      split; [by apply DblFacts.leb_refl|]. intros v w Hin. by left.
    + destruct (Hset x Hx) as (dx & Hdx & Hdxfin & Hdxle & Hedges).
      exists dx. split; [done|]. split; [done|].
      split; [by eapply DblFacts.leb_trans|].
      intros v w Hin. destruct (Hedges v w Hin) as [[_ Hnil]|Hrel]; [|by right].
      by apply elem_of_nil in Hnil.
Qed.

Lemma dijkstra_loop_fuel_mono fuel : ∀ fuel' dist parent pq dj,
  dijkstra_loop node_ltb fuel g dist parent pq = Some dj → (fuel ≤ fuel')%nat →
  dijkstra_loop node_ltb fuel' g dist parent pq = Some dj.
Proof.
  induction fuel as [|fuel IH]; intros fuel' dist parent pq dj; [done|].
  intros Hrun Hle. destruct fuel' as [|fuel']; [lia|].
  simpl in *. destruct pq as [|x l]; [done|].
  destruct (pq_extract node_ltb x l) as [[du u] pq'].
  destruct (map_index Dbl.zero dist u) as [dist_u dist1].
  destruct (Dbl.neqb du dist_u); [apply IH; [done|lia]|].
  destruct (data g !! u) as [entries|]; [|apply IH; [done|lia]].
  destruct (fold_left (relax du u) entries (dist1, parent, pq')) as [[dist2 parent2] pq2].
  apply IH; [done|lia].
Qed.

(** The loop comes to an end, in a state that satisfies the invariant with
    an empty queue. *)
Lemma dijkstra_loop_terminates n : ∀ m settled lo dmap pmap pq cur,
  dijkstra_inv g s settled lo dmap pmap pq cur [] →
  (size (dom (adjacency g) ∖ settled) ≤ n)%nat → (length pq ≤ m)%nat →
  ∃ fuel dj settled' lo' cur',
    dijkstra_loop node_ltb fuel g dmap pmap pq = Some dj ∧
    dijkstra_inv g s settled' lo' (dist dj) (parent dj) [] cur' [].
Proof.
  induction n as [n IHn] using lt_wf_ind.
  induction m as [|m IHm]; intros settled lo dmap pmap pq cur Hinv Hn Hm.
  { destruct pq; [|simpl in Hm; lia].
    exists 1%nat, {| dist := dmap; parent := pmap |}, settled, lo, cur. done. }
  destruct pq as [|x l].
  { exists 1%nat, {| dist := dmap; parent := pmap |}, settled, lo, cur. done. }
  destruct (pq_extract node_ltb x l) as [[d u] pq'] eqn:Hex.
  pose proof (pq_extract_perm _ _ _ _ _ Hex) as Hperm.
  assert (Hlen : length pq' = length l).
  { pose proof (Permutation_length Hperm) as Hl. cbn [length] in Hl.
    injection Hl as Hl. symmetry. exact Hl. }
  assert (Hm' : (length pq' ≤ m)%nat).
  { cbn [length] in Hm. apply le_S_n in Hm.
    eapply Nat.le_trans; [|exact Hm]. apply Nat.eq_le_incl. exact Hlen. }
  assert (Hmin : ∀ y, y ∈ pq' → Dbl.leb d y.1 = true).
  { apply (pq_extract_min _ _ _ _ _ (λ y Hy, proj1 (inv_items _ _ _ _ _ _ _ _ _ Hinv y.1 y.2
             (eq_ind _ (λ z, z ∈ x :: l) Hy _ (surjective_pairing y)))) Hex). }
  destruct (inv_items _ _ _ _ _ _ _ _ _ Hinv d u) as (Hdnn & Hdfin & Hlod & du & Hdu & Hdule & Hdeq).
  { rewrite Hperm. by left. }
  assert (Hstep : ∀ fuel r,
    (if Dbl.neqb d du then dijkstra_loop node_ltb fuel g dmap pmap pq'
     else match data g !! u with
          | None => dijkstra_loop node_ltb fuel g dmap pmap pq'
          | Some entries =>
              let '(dist2, parent2, pq2) :=
                fold_left (relax d u) entries (dmap, pmap, pq') in
              dijkstra_loop node_ltb fuel g dist2 parent2 pq2
          end) = Some r →
    dijkstra_loop node_ltb (S fuel) g dmap pmap (x :: l) = Some r).
  { intros fuel r Hr. cbn [dijkstra_loop]. rewrite Hex.
    by rewrite (map_index_present _ _ _ Hdu). }
  destruct (Dbl.neqb d du) eqn:Hstale.
  - (* a stale item *)
    destruct (IHm settled lo dmap pmap pq' cur) as (fuel & dj & S' & lo' & cur' & Hrun & Hfin).
    + eapply inv_pop_drop; [done|done|]. right. exists du. split; [done|].
      by apply DblFacts.neqb_true.
    + done.
    + exact Hm'.
    + exists (S fuel), dj, S', lo', cur'. split; [|done]. by apply Hstep.
  - apply DblFacts.neqb_false in Hstale. specialize (Hdeq Hstale). subst du.
    assert (Hentries : data g !! u = Some (adj g u)).
    { unfold data, adj. apply (elem_of_dom_2 (D := gset K)) in Hdu.
      rewrite (inv_dom _ _ _ _ _ _ _ _ _ Hinv) in Hdu.
      apply elem_of_dom in Hdu as [entries ->]. done. }
    destruct (decide (u ∈ settled)) as [Hu|Hu].
    + (* the node is settled already: nothing is relaxed *)
      destruct (IHm settled lo dmap pmap pq' cur) as (fuel & dj & S' & lo' & cur' & Hrun & Hfin).
      * eapply inv_pop_drop; [done|done|]. by left.
      * done.
      * exact Hm'.
      * exists (S fuel), dj, S', lo', cur'. split; [|done]. apply Hstep.
        rewrite Hentries, relax_fold_noop; [done|].
        intros v w Hin.
        destruct (inv_settled _ _ _ _ _ _ _ _ _ Hinv u Hu) as (du & Hdu' & _ & _ & Hedges).
        rewrite Hdu in Hdu'. injection Hdu' as <-.
        destruct (Hedges v w Hin) as [[_ Hnil]|Hrel]; [|done].
        by apply elem_of_nil in Hnil.
    + (* the node becomes settled and its entries are relaxed *)
      pose proof (inv_pop_settle _ _ _ _ _ _ _ _ _ Hinv Hperm Hmin Hdu) as Hinv1.
      destruct (relax_fold ({[u]} ∪ settled) d u (adj g u) dmap pmap pq' Hinv1)
        as (dist2 & parent2 & pq2 & Hfold & Hinv2); [set_solver|done|done|].
      assert (Hsz : (size (dom (adjacency g) ∖ ({[u]} ∪ settled))
                     < size (dom (adjacency g) ∖ settled))%nat).
      { apply subset_size. apply (elem_of_dom_2 (D := gset K)) in Hdu.
        rewrite (inv_dom _ _ _ _ _ _ _ _ _ Hinv) in Hdu. set_solver. }
      destruct (IHn (size (dom (adjacency g) ∖ ({[u]} ∪ settled))) ltac:(lia)
                  (length pq2) ({[u]} ∪ settled) d dist2 parent2 pq2 u Hinv2)
        as (fuel & dj & S' & lo' & cur' & Hrun & Hfin); [done|done|].
      exists (S fuel), dj, S', lo', cur'. split; [|done]. apply Hstep.
      by rewrite Hentries, Hfold.
Qed.

End DijkstraLoop.

(** ** Dijkstra: what a run leaves *)

Section DijkstraRun.
Context `{Countable K}.
Variable node_ltb : K → K → bool.
Variable g : Graph K WeightedEdge.
Variable s : K.
Hypothesis Hwf : graph_wf g.
Hypothesis Hnn : ∀ u v w, (v, w) ∈ adj g u → Dbl.nonneg (weight w).

Lemma lookup_dist_init v :
  dist_init g !! v = (λ _, Dbl.infinity) <$> adjacency g !! v.
Proof. unfold dist_init, data. by rewrite lookup_fmap. Qed.

Lemma inv_init :
  hasNode g s = true →
  dijkstra_inv g s ∅ Dbl.zero (<[s := Dbl.zero]> (dist_init g)) ∅
    [(Dbl.zero, s)] s [].
Proof.
  intros Hs%hasNode_true%(elem_of_dom (D := gset K)). split.
  - rewrite dom_insert_L. unfold dist_init, data. rewrite dom_fmap_L. set_solver.
  - by rewrite lookup_insert_eq.
  - by rewrite lookup_empty.
  - done.
  - intros v dv. rewrite lookup_insert. case_decide; [by intros [= <-]|].
    rewrite lookup_dist_init. intros (l & _ & ->)%fmap_Some. done.
  - intros v dv. rewrite lookup_insert. case_decide as Hv.
    + subst v. intros [= <-] _. exists []. split; [constructor|done].
    + rewrite lookup_dist_init. by intros (l & _ & ->)%fmap_Some.
  - intros v dv. rewrite lookup_insert. case_decide as Hv.
    + subst v. intros [= <-] _ _. by left.
    + rewrite lookup_dist_init. by intros (l & _ & ->)%fmap_Some.
  - intros d v [= -> ->]%list_elem_of_singleton.
    split; [done|]. split; [done|]. split; [done|].
    exists Dbl.zero. by rewrite lookup_insert_eq.
  - intros u Hu. by apply not_elem_of_empty in Hu.
Qed.

(** With the start node in the graph the run comes to an end, and leaves a
    state that satisfies the invariant with an empty queue. *)
Lemma Dijkstra_run_terminates :
  hasNode g s = true →
  ∃ fuel dj settled lo cur,
    Dijkstra_run node_ltb fuel g s = Some dj ∧
    dijkstra_inv g s settled lo (dist dj) (parent dj) [] cur [].
Proof.
  intros Hs.
  destruct (dijkstra_loop_terminates node_ltb g s Hwf Hnn
              (size (dom (adjacency g) ∖ (∅ : gset K))) 1 ∅ Dbl.zero _ _ _ s
              (inv_init Hs)) as (fuel & dj & S' & lo' & cur' & Hrun & Hinv);
    [done|done|].
  exists fuel, dj, S', lo', cur'. split; [|done].
  unfold Dijkstra_run. by rewrite Hs.
Qed.

Lemma Dijkstra_run_fuel_mono fuel fuel' dj :
  Dijkstra_run node_ltb fuel g s = Some dj → (fuel ≤ fuel')%nat →
  Dijkstra_run node_ltb fuel' g s = Some dj.
Proof.
  unfold Dijkstra_run. destruct (negb (hasNode g s)); [done|].
  apply dijkstra_loop_fuel_mono.
Qed.

Lemma Dijkstra_run_unique fuel fuel' dj dj' :
  Dijkstra_run node_ltb fuel g s = Some dj →
  Dijkstra_run node_ltb fuel' g s = Some dj' → dj' = dj.
Proof.
  intros H1 H2. destruct (Nat.le_ge_cases fuel fuel') as [Hle|Hle].
  - pose proof (Dijkstra_run_fuel_mono _ _ _ H1 Hle). congruence.
  - pose proof (Dijkstra_run_fuel_mono _ _ _ H2 Hle). congruence.
Qed.

(** *** Consequences of the invariant once the queue is empty *)

Section Final.
Variables (settled : gset K) (lo : double) (dmap : gmap K double)
  (pmap : gmap K K) (cur : K).
Hypothesis Hinv : dijkstra_inv g s settled lo dmap pmap [] cur [].

Lemma final_settled v dv :
  dmap !! v = Some dv → Dbl.eqb dv Dbl.infinity = false → v ∈ settled.
Proof.
  intros Hdv Hfin. destruct (decide (v ∈ settled)) as [|Hv]; [done|].
  pose proof (inv_queued _ _ _ _ _ _ _ _ _ Hinv v dv Hdv Hfin Hv) as Hin.
  by apply elem_of_nil in Hin.
Qed.

(** Every adjacency entry is relaxed. *)
Lemma final_triangle u du v w :
  dmap !! u = Some du → (v, w) ∈ adj g u →
  ∃ dv, dmap !! v = Some dv ∧ Dbl.leb dv (Dbl.add du (weight w)) = true.
Proof.
  intros Hdu Hin. destruct (Dbl.eqb du Dbl.infinity) eqn:Hfin.
  - apply DblFacts.eqb_PInf in Hfin as ->.
    destruct (adj_target_in_dom g Hwf dmap u v w) as [dv Hdv];
      [by eapply inv_dom|done|].
    exists dv. split; [done|]. rewrite DblFacts.add_PInf_l by (by eapply Hnn).
    apply DblFacts.leb_PInf. by eapply inv_nonneg.
  - pose proof (final_settled u du Hdu Hfin) as Hu.
    destruct (inv_settled _ _ _ _ _ _ _ _ _ Hinv u Hu) as (du' & Hdu' & _ & _ & Hedges).
    rewrite Hdu in Hdu'. injection Hdu' as <-.
    destruct (Hedges v w Hin) as [[_ Hnil]|Hrel]; [|done].
    by apply elem_of_nil in Hnil.
Qed.

(** No walk is lighter than the recorded distance. *)
Lemma final_lower_bound p v :
  walk g s p v →
  ∃ dv, dmap !! v = Some dv ∧ Dbl.leb dv (walk_weight p) = true.
Proof.
  induction 1 as [|p u v w Hp (du & Hdu & Hle) Hin].
  - exists Dbl.zero. split; [by eapply inv_start|done].
  - destruct (final_triangle u du v w Hdu Hin) as (dv & Hdv & Hle').
    exists dv. split; [done|]. rewrite walk_weight_snoc.
    eapply DblFacts.leb_trans; [done|].
    apply DblFacts.add_mono_l; [by eapply inv_nonneg|by eapply Hnn|done].
Qed.

(** A finite recorded distance is the weight of a walk. *)
Lemma final_witness v dv :
  dmap !! v = Some dv → Dbl.eqb dv Dbl.infinity = false →
  ∃ p, tree_walk g s settled dmap pmap p v ∧ walk g s p v ∧ walk_weight p = dv.
Proof.
  intros Hdv Hfin.
  destruct (inv_tree _ _ _ _ _ _ _ _ _ Hinv v dv Hdv Hfin) as (p & Hp & ->).
  exists p. split; [done|]. split; [by eapply tree_walk_walk|done].
Qed.

End Final.

End DijkstraRun.

(** ** Dijkstra: weights of paths *)

Section PathWeights.
Context `{Countable K}.
Variable g : Graph K WeightedEdge.
Hypothesis Hnn : ∀ u v w, (v, w) ∈ adj g u → Dbl.nonneg (weight w).

Implicit Types (p : list (K * WeightedEdge)).

Lemma walk_weight_from_nonneg p : ∀ d s u,
  walk g s p u → Dbl.nonneg d → Dbl.nonneg (walk_weight_from d p).
Proof.
  intros d s u Hw. revert d. induction Hw as [|p a b w Hp IH Hin]; intros d Hd.
  - done.
  - rewrite walk_weight_from_app. simpl.
    apply DblFacts.nonneg_add; [by apply IH|by eapply Hnn].
Qed.

Lemma walk_weight_from_le p : ∀ d s u,
  walk g s p u → Dbl.nonneg d → Dbl.leb d (walk_weight_from d p) = true.
Proof.
  intros d s u Hw. revert d. induction Hw as [|p a b w Hp IH Hin]; intros d Hd.
  - by apply DblFacts.leb_refl.
  - rewrite walk_weight_from_app. simpl.
    eapply DblFacts.leb_trans; [by apply IH|].
    apply DblFacts.leb_add_r; [by eapply walk_weight_from_nonneg|by eapply Hnn].
Qed.

(** With finite weights a common suffix can be cancelled. *)
Lemma walk_weight_from_cancel p : ∀ d d' s u,
  (∀ a b w, (b, w) ∈ adj g a → finite_nonneg (weight w)) →
  walk g s p u → Dbl.nonneg d → Dbl.nonneg d' →
  Dbl.leb (walk_weight_from d p) (walk_weight_from d' p) = true →
  Dbl.leb d d' = true.
Proof.
  intros d d' s u Hfin Hw. revert d d'.
  induction Hw as [|p a b w Hp IH Hin]; intros d d' Hd Hd' Hle.
  - done.
  - rewrite !walk_weight_from_app in Hle. simpl in Hle.
    destruct (Hfin _ _ _ Hin) as (q & Hq & _). rewrite Hq in Hle.
    apply IH; [done|done|].
    eapply DblFacts.leb_add_cancel; [| |done]; by eapply walk_weight_from_nonneg.
Qed.

Lemma walk_weight_finite p s u :
  (∀ a b w, (b, w) ∈ adj g a → finite_nonneg (weight w)) →
  walk g s p u → Dbl.eqb (walk_weight p) Dbl.infinity = false.
Proof.
  intros Hfin. induction 1 as [|p a b w Hp IH Hin]; [done|].
  rewrite walk_weight_snoc. destruct (Hfin _ _ _ Hin) as (q & -> & _).
  apply DblFacts.add_finite; [|done].
  by eapply (walk_weight_from_nonneg p Dbl.zero).
Qed.

(** The cheapest entry toward [v] in a sequence of entries. *)
Lemma pair_weight_min (l : list (K * WeightedEdge)) (v : K) :
  (∀ e, e ∈ l → Dbl.nonneg (weight e.2)) →
  match foldr (λ e acc,
                 if decide (e.1 = v) then
                   match acc with
                   | Some m => Some (if Dbl.ltb (weight e.2) m then weight e.2 else m)
                   | None => Some (weight e.2)
                   end
                 else acc) None l with
  | Some m =>
      (∃ w, (v, w) ∈ l ∧ m = weight w) ∧
      ∀ w, (v, w) ∈ l → Dbl.leb m (weight w) = true
  | None => ∀ w, (v, w) ∉ l
  end.
Proof.
  induction l as [|[x wx] l IH]; intros Hl; simpl.
  - intros w. apply not_elem_of_nil.
  - assert (Hl' : ∀ e, e ∈ l → Dbl.nonneg (weight e.2)).
    { intros e He. apply Hl. by right. }
    specialize (IH Hl').
    assert (Hwx : Dbl.nonneg (weight wx)) by (apply (Hl (x, wx)); by left).
    destruct (decide (x = v)) as [->|Hx].
    + destruct (foldr _ None l) as [m|].
      * destruct IH as [(w0 & Hw0 & ->) Hmin].
        assert (Hw0nn : Dbl.nonneg (weight w0)) by (by apply (Hl' (v, w0))).
        destruct (Dbl.ltb (weight wx) (weight w0)) eqn:Hlt.
        -- split; [exists wx; split; [by left|done]|].
           intros w [[= ->]|Hin]%elem_of_cons; [by apply DblFacts.leb_refl|].
           eapply DblFacts.leb_trans; [by apply DblFacts.ltb_leb|by apply Hmin].
        -- split; [exists w0; split; [by right|done]|].
           intros w [[= ->]|Hin]%elem_of_cons; [by apply DblFacts.leb_total|].
           by apply Hmin.
      * split; [exists wx; split; [by left|done]|].
        intros w [[= ->]|Hin]%elem_of_cons; [by apply DblFacts.leb_refl|].
        by apply IH in Hin.
    + destruct (foldr _ None l) as [m|].
      * destruct IH as [(w0 & Hw0 & ->) Hmin].
        split; [exists w0; split; [by right|done]|].
        intros w [[= ? ?]|Hin]%elem_of_cons; [done|by apply Hmin].
      * intros w [[= ? ?]|Hin]%elem_of_cons; [done|by apply IH in Hin].
Qed.

Lemma pair_weight_spec u v w :
  (v, w) ∈ adj g u →
  ∃ m, pair_weight g u v = Some m ∧ Dbl.leb m (weight w) = true ∧
       ∃ w', (v, w') ∈ adj g u ∧ m = weight w'.
Proof.
  intros Hin. unfold pair_weight.
  pose proof (pair_weight_min (adj g u) v) as Hmin.
  destruct (foldr _ None (adj g u)) as [m|].
  - destruct Hmin as [Hex Hle].
    { intros [x wx] He. by eapply Hnn. }
    exists m. split; [done|]. split; [by apply Hle|done].
  - exfalso. eapply Hmin; [|done]. intros [x wx] He. by eapply Hnn.
Qed.

Lemma path_weight_from_snoc (l : list K) : ∀ d u v,
  path_weight_from g d u (l ++ [v]) =
  match path_weight_from g d u l with
  | Some d' =>
      match pair_weight g (default u (last l)) v with
      | Some w => Some (Dbl.add d' w)
      | None => None
      end
  | None => None
  end.
Proof.
  induction l as [|x l IH]; intros d u v; simpl.
  - by destruct (pair_weight g u v).
  - destruct (pair_weight g u x) as [w|]; [|done].
    rewrite IH, (last_cons x l). by destruct (last l).
Qed.

End PathWeights.

(** ** Dijkstra: the statements *)

Section DijkstraTheorems.
Context `{Countable K}.
Variable node_ltb : K → K → bool.

Implicit Types (g : Graph K WeightedEdge) (p : list (K * WeightedEdge)).

Lemma weights_nonneg_nonneg g :
  weights_nonneg g → ∀ u v w, (v, w) ∈ adj g u → Dbl.nonneg (weight w).
Proof. intros Hfin u v w Hin. by eapply DblFacts.finite_nonneg_nonneg, Hfin. Qed.

Lemma last_walk_nodes (s : K) p : last (walk_nodes s p) = Some (walk_end s p).
Proof.
  unfold walk_nodes, walk_end. rewrite last_cons. by destruct (last p.*1).
Qed.

(** Along a tree walk the cheapest entries add up to the recorded distance. *)
Lemma tree_path_weight g s settled lo dmap pmap cur :
  graph_wf g → (∀ u v w, (v, w) ∈ adj g u → Dbl.nonneg (weight w)) →
  dijkstra_inv g s settled lo dmap pmap [] cur [] →
  ∀ p v, tree_walk g s settled dmap pmap p v →
    dmap !! v = Some (walk_weight p) →
    ∃ d, path_weight_from g Dbl.zero s p.*1 = Some d ∧
         Dbl.eqb d (walk_weight p) = true.
Proof.
  intros Hwf Hnn Hinv. induction 1 as [|p u v w Hp IH Hu Hdu Hv Hpar Hin]; intros Hdv.
  - exists Dbl.zero. done.
  - destruct (IH Hdu) as (d' & Hd' & Heq).
    pose proof (tree_walk_walk _ _ _ _ _ _ _ Hp) as Hwalk.
    assert (Hwp : Dbl.nonneg (walk_weight p)).
    { by eapply (walk_weight_from_nonneg g Hnn p Dbl.zero). }
    destruct (pair_weight_spec g Hnn u v w Hin) as (m & Hm & Hmle & w' & Hin' & Hmw).
    assert (Hmnn : Dbl.nonneg m) by (subst m; by eapply Hnn).
    rewrite fmap_app. change ([(v, w)].*1) with [v].
    rewrite path_weight_from_snoc, Hd'.
    change (default s (last p.*1)) with (walk_end s p).
    rewrite (walk_walk_end _ _ _ _ Hwalk), Hm.
    eexists. split; [done|]. rewrite walk_weight_snoc.
    destruct (final_triangle g s Hwf Hnn _ _ _ _ _ Hinv u _ v w' Hdu Hin')
      as (dv & Hdv' & Hle).
    rewrite Hdv, walk_weight_snoc in Hdv'. injection Hdv' as <-. rewrite <-Hmw in Hle.
    eapply DblFacts.eqb_trans.
    + apply DblFacts.eqb_add_l; [done|done|].
      apply (DblFacts.eqb_nonneg (walk_weight p)); [done|by apply DblFacts.eqb_sym].
    + apply DblFacts.leb_antisym; [|done].
      by apply DblFacts.add_mono_r.
Qed.

(** Along a shortest walk the recorded distances do not decrease. *)
Lemma shortest_walk_monotone g s settled lo dmap pmap cur :
  graph_wf g → weights_nonneg g →
  dijkstra_inv g s settled lo dmap pmap [] cur [] →
  ∀ p t dt,
    walk g s p t → dmap !! t = Some dt → Dbl.eqb (walk_weight p) dt = true →
    ∀ p1 p2 p3,
      p = p1 ++ p2 ++ p3 →
      ∃ da db,
        dmap !! walk_end s p1 = Some da ∧
        dmap !! walk_end s (p1 ++ p2) = Some db ∧
        Dbl.leb da db = true.
Proof.
  intros Hwf Hfin Hinv p t dt Hp Hdt Heq p1 p2 p3 ->.
  pose proof (weights_nonneg_nonneg g Hfin) as Hnn.
  rewrite app_assoc in Hp, Heq.
  destruct (walk_prefix _ _ _ _ _ Hp) as [H12 H3].
  destruct (walk_prefix _ _ _ _ _ H12) as [H1 H2].
  set (a := walk_end s p1) in *. set (b := walk_end s (p1 ++ p2)) in *.
  destruct (final_lower_bound g s Hwf Hnn _ _ _ _ _ Hinv p1 a H1) as (da & Hda & Hle1).
  destruct (final_lower_bound g s Hwf Hnn _ _ _ _ _ Hinv _ b H12) as (db & Hdb & _).
  exists da, db. split; [done|]. split; [done|].
  assert (Hw12 : Dbl.nonneg (walk_weight (p1 ++ p2))).
  { by eapply (walk_weight_from_nonneg g Hnn (p1 ++ p2) Dbl.zero). }
  assert (Hdbnn : Dbl.nonneg db) by (by eapply inv_nonneg).
  (* up to the end of [p1 ++ p2] *)
  eapply DblFacts.leb_trans; [exact Hle1|].
  eapply (DblFacts.leb_trans _ (walk_weight (p1 ++ p2))).
  { unfold walk_weight. rewrite walk_weight_from_app.
    eapply walk_weight_from_le; [done|done|].
    by eapply (walk_weight_from_nonneg g Hnn p1 Dbl.zero). }
  (* the prefix [p1 ++ p2] is itself a shortest walk *)
  destruct (Dbl.eqb db Dbl.infinity) eqn:Hdbfin.
  { apply DblFacts.eqb_PInf in Hdbfin as ->. by apply DblFacts.leb_PInf. }
  destruct (final_witness g s _ _ _ _ _ Hinv b db Hdb Hdbfin) as (q & _ & Hq & Hqw).
  pose proof (walk_app _ _ _ _ _ _ Hq H3) as Hq3.
  destruct (final_lower_bound g s Hwf Hnn _ _ _ _ _ Hinv _ _ Hq3) as (dt' & Hdt' & Hle3).
  rewrite Hdt in Hdt'. injection Hdt' as <-.
  unfold walk_weight in Heq, Hle3. rewrite walk_weight_from_app in Heq, Hle3.
  fold (walk_weight (p1 ++ p2)) in Heq. fold (walk_weight q) in Hle3.
  rewrite Hqw in Hle3.
  eapply (walk_weight_from_cancel g Hnn p3); [exact Hfin|exact H3|done|done|].
  eapply DblFacts.eqb_leb_trans; [exact Heq|exact Hle3].
Qed.


(** C2: [getPathTo] returns the empty sequence when the target has no
    recorded distance or a distance of +infinity, and when the walk back
    along [parent] comes to a node without parent entry before it meets
    [start]; a sequence that it returns is empty or runs from [start] to
    [target]; on the state that a run leaves it always returns. *)
Theorem getPathTo_empty_or_from_start_to_target :
  (∀ (dj : Dijkstra K) start target fuel,
     dist dj !! target = None ∨
     (∃ d, dist dj !! target = Some d ∧ Dbl.eqb d Dbl.infinity = true) →
     getPathTo fuel dj start target = Some []) ∧
  (∀ (dj : Dijkstra K) start target n fuel,
     broken_chain (parent dj) start target n → (n < fuel)%nat →
     getPathTo fuel dj start target = Some []) ∧
  (∀ (dj : Dijkstra K) start target fuel l,
     getPathTo fuel dj start target = Some l → l ≠ [] →
     head l = Some start ∧ last l = Some target) ∧
  (∀ g (s : K) fuel0 dj,
     graph_wf g → weights_nonneg g →
     Dijkstra_run node_ltb fuel0 g s = Some dj →
     ∀ start target,
       ∃ fuel l, getPathTo fuel dj start target = Some l ∧
                 ∀ fuel' l', getPathTo fuel' dj start target = Some l' → l' = l).
Proof.
  split; [|split; [|split]].
  - intros dj start target fuel [Hnone|(d & Hd & Hinf)]; unfold getPathTo.
    + by rewrite Hnone.
    + by rewrite Hd, Hinf.
  - intros dj start target n fuel Hb Hfuel. unfold getPathTo.
    destruct (dist dj !! target) as [d|]; [|done].
    destruct (Dbl.eqb d Dbl.infinity); [done|].
    by eapply getPathTo_loop_broken.
  - intros dj start target fuel l. unfold getPathTo.
    destruct (dist dj !! target) as [d|]; [|by intros [= <-]].
    destruct (Dbl.eqb d Dbl.infinity); [by intros [= <-]|].
    intros [->|(more & -> & Hhd)]%getPathTo_loop_ends Hne; [done|].
    simpl. rewrite reverse_snoc. split; [done|].
    destruct more as [|x more]; simpl in *.
    + done.
    + injection Hhd as ->. rewrite reverse_cons.
      by rewrite app_comm_cons, last_snoc.
  - intros g s fuel0 dj Hwf Hfin Hrun start target.
    pose proof (weights_nonneg_nonneg g Hfin) as Hnn.
    assert (Hex : ∃ fuel l, getPathTo fuel dj start target = Some l).
    { destruct (hasNode g s) eqn:Hs.
      - destruct (Dijkstra_run_terminates node_ltb g s Hwf Hnn Hs)
          as (fuel & dj' & settled & lo & cur & Hrun' & Hinv).
        pose proof (Dijkstra_run_unique _ _ _ _ _ _ _ Hrun Hrun') as ->.
        unfold getPathTo. destruct (dist dj !! target) as [d|] eqn:Hd; [|by exists O; eexists].
        destruct (Dbl.eqb d Dbl.infinity) eqn:Hdfin; [by exists O; eexists|].
        destruct (final_witness g s _ _ _ _ _ Hinv target d Hd Hdfin) as (p & Htp & _).
        exists (S (length p)).
        eapply getPathTo_loop_terminates; [by eapply inv_start_parent|done|lia].
      - unfold Dijkstra_run in Hrun. rewrite Hs in Hrun. injection Hrun as <-.
        exists 1%nat. unfold getPathTo. simpl.
        destruct (dist_init g !! target) as [d|]; [|by eexists].
        destruct (Dbl.eqb d Dbl.infinity); [by eexists|].
        destruct (decide (target ≠ start)); by eexists. }
    destruct Hex as (fuel & l & Hl). exists fuel, l. split; [done|].
    intros fuel' l' Hl'. revert Hl Hl'. unfold getPathTo.
    destruct (dist dj !! target) as [d|]; [|congruence].
    destruct (Dbl.eqb d Dbl.infinity); [congruence|].
    intros Hl Hl'. destruct (Nat.le_ge_cases fuel fuel') as [Hle|Hle].
    + pose proof (getPathTo_loop_fuel_mono _ _ _ _ _ _ _ Hl Hle). congruence.
    + pose proof (getPathTo_loop_fuel_mono _ _ _ _ _ _ _ Hl' Hle). congruence.
Qed.

End DijkstraTheorems.

(** ** The sample graph *)

Lemma weights_nonneg_newGraph `{Countable K} d :
  weights_nonneg (newGraph d : Graph K WeightedEdge).
Proof.
  intros u v w. unfold adj, newGraph; simpl. rewrite lookup_empty. simpl.
  by intros ?%elem_of_nil.
Qed.

Lemma weights_nonneg_addNode `{Countable K} (g : Graph K WeightedEdge) n :
  weights_nonneg g → weights_nonneg (addNode g n).
Proof. intros Hg u v w. rewrite adj_addNode. apply Hg. Qed.

Lemma weights_nonneg_addEdge `{Countable K} (g : Graph K WeightedEdge) a b e :
  weights_nonneg g → finite_nonneg (weight e) → weights_nonneg (addEdge g a b e).
Proof.
  intros Hg He u v w. rewrite adj_addEdge, !elem_of_app.
  intros [Hin|[Hin|Hin]].
  - by eapply Hg.
  - case_decide; [|by apply elem_of_nil in Hin].
    by apply list_elem_of_singleton in Hin as [= -> ->].
  - destruct (directed_ g); [by apply elem_of_nil in Hin|].
    case_decide; [|by apply elem_of_nil in Hin].
    by apply list_elem_of_singleton in Hin as [= -> ->].
Qed.

Lemma finite_nonneg_Fin q : (0 <= q)%Q → finite_nonneg (Dbl.Fin q).
Proof. intros Hq. by exists q. Qed.

Lemma sample_graph_wf : graph_wf sample_graph.
Proof.
  unfold sample_graph.
  repeat first [apply graph_wf_addEdge | apply graph_wf_addNode | apply graph_wf_newGraph].
Qed.

Lemma sample_graph_weights : weights_nonneg sample_graph.
Proof.
  unfold sample_graph.
  repeat first [apply weights_nonneg_addEdge | apply weights_nonneg_addNode
               | apply weights_nonneg_newGraph | apply finite_nonneg_Fin; done].
Qed.

Example sample_graph_run :
  (dj ← Dijkstra_run String.ltb 10 sample_graph "A";
   Some (dist dj !! "A", dist dj !! "B", dist dj !! "C", dist dj !! "D",
         parent dj !! "C", parent dj !! "B", parent dj !! "A",
         getPathTo 10 dj "A" "C", getPathTo 10 dj "A" "D",
         path_weight sample_graph ["A"; "B"; "C"]))
  = Some (Some (Dbl.Fin 0), Some (Dbl.Fin 5), Some (Dbl.Fin 7), Some Dbl.PInf,
          Some "B", Some "A", None,
          Some ["A"; "B"; "C"], Some [],
          Some (Dbl.Fin 7)).
Proof. vm_compute. reflexivity. Qed.


Lemma getPathTo_empty_or_from_start_to_target_witness :
  getPathTo 5 {| dist := {["A" := Dbl.Fin 0; "B" := Dbl.PInf]}; parent := ∅ |} "A" "B"
    = Some [] ∧
  getPathTo 5 {| dist := {["A" := Dbl.Fin 0; "C" := Dbl.Fin 7]}; parent := {["C" := "B"]} |}
    "A" "C" = Some [] ∧
  (head ["A"; "B"; "C"] = Some "A" ∧ last ["A"; "B"; "C"] = Some "C") ∧
  ∃ dj, Dijkstra_run String.ltb 10 sample_graph "A" = Some dj ∧
    ∃ fuel l, getPathTo fuel dj "B" "C" = Some l ∧
              ∀ fuel' l', getPathTo fuel' dj "B" "C" = Some l' → l' = l.
Proof.
  destruct (getPathTo_empty_or_from_start_to_target String.ltb)
    as (Hinf & Hbroken & Hends & Hrun).
  split; [|split; [|split]].
  - apply Hinf. right. exists Dbl.PInf. split; reflexivity.
  - apply (Hbroken _ "A" "C" 1%nat 5%nat).
    + vm_compute. repeat split; discriminate.
    + lia.
  - apply (Hends {| dist := {["A" := Dbl.Fin 0; "C" := Dbl.Fin 7]};
                    parent := {["C" := "B"; "B" := "A"]} |} "A" "C" 5%nat).
    + vm_compute. reflexivity.
    + discriminate.
  - eexists. split; [vm_compute; reflexivity|].
    apply (Hrun sample_graph "A" 10%nat).
    + apply sample_graph_wf.
    + apply sample_graph_weights.
    + vm_compute. reflexivity.
Defined.

(** ** The traversals on the graph of the tests *)

Example BFS_run_test_order :
  let g : Graph Z Z :=
    addEdge (addEdge (addEdge (newGraph false) 1 2 0) 1 3 0) 2 4 0 in
  fst <$> BFS_run 10 g 1 = Some [1; 2; 3; 4] ∧
  fst <$> DFS_run 20 g 1 = Some [1; 3; 2; 4].
Proof. split; vm_compute; reflexivity. Qed.

Lemma traversals_terminate_start_first_no_repeats_witness :
  (∃ fuel visited, BFS_run fuel sample_graph "D" = Some (["D"], visited)) ∧
  (∃ fuel visited, DFS_run fuel sample_graph "D" = Some (["D"], visited)).
Proof.
  assert (Hnone : ∀ v, v ∈ getNeighbors sample_graph "D" → v = "D").
  { intros v. vm_compute. intros Hv. by apply elem_of_nil in Hv. }
  destruct (traversals_terminate_start_first_no_repeats sample_graph "D")
    as [(fb & ob & vb & Hb & _ & _ & _ & Hb1) (fd & od & vd & Hd & _ & _ & _ & Hd1)].
  split.
  - exists fb, vb. by rewrite <-(Hb1 Hnone).
  - exists fd, vd. by rewrite <-(Hd1 Hnone).
Defined.

(** ** The scenarios of the test suite *)

Example test_NodeAdditionAndRemoval :
  let g : Graph Z Z := addNode (addNode (newGraph true) 1) 2 in
  hasNode g 1 = true ∧ graph_size g = 2%nat ∧
  hasNode (removeNode g 1) 1 = false ∧ graph_size (removeNode g 1) = 1%nat.
Proof. repeat split; vm_compute; reflexivity. Qed.

Example test_UndirectedEdgeCreation :
  let g : Graph string Z := addEdge (newGraph false) "A" "B" 1 in
  getNeighbors g "A" = ["B"] ∧ getNeighbors g "B" = ["A"].
Proof. split; vm_compute; reflexivity. Qed.

Example test_EdgeRemoval :
  let g : Graph Z Z := addEdge (addEdge (newGraph true) 1 2 10) 2 3 20 in
  length (getNeighbors g 1) = 1%nat ∧
  getNeighbors (removeEdge g 1 2) 1 = [] ∧
  getNeighbors (removeEdge g 1 2) 2 = [3].
Proof. repeat split; vm_compute; reflexivity. Qed.

Example test_TTLAndHops :
  let pkt := addHop (decTTL (mkPacket "src" "dst" 3 100 [])) "R1" in
  ttl_ pkt = 2 ∧ hops_ pkt = ["R1"].
Proof. split; reflexivity. Qed.

Example test_NoPathToTarget :
  let wg : Graph string WeightedEdge :=
    addEdge (addNode (addNode (newGraph true) "A") "B") "A" "C"
      (mkWeightedEdge (Dbl.Fin 1)) in
  (dj ← Dijkstra_run String.ltb 10 wg "A";
   Some (dist dj !! "B", getPathTo 10 dj "A" "B"))
  = Some (Some Dbl.infinity, Some []).
Proof. vm_compute. reflexivity. Qed.

(** * Further properties of the code *)

(** ** [Graph]: nodes, edges and size *)

Section GraphMore.
Context `{Countable K} {E : Type}.
Implicit Types (g : Graph K E) (u v w : K) (e : E).

Lemma Graph_eq g1 g2 :
  adjacency g1 = adjacency g2 → directed_ g1 = directed_ g2 → g1 = g2.
Proof. destruct g1, g2; simpl. by intros -> ->. Qed.

Lemma addNode_present g n : hasNode g n = true → addNode g n = g.
Proof.
  intros [l Hl]%hasNode_true. apply Graph_eq; [|done].
  unfold addNode, map_index; simpl. by rewrite Hl.
Qed.

Lemma hasNode_addNode g n k :
  hasNode (addNode g n) k = if decide (n = k) then true else hasNode g k.
Proof.
  unfold hasNode. rewrite lookup_addNode. case_decide; [|done].
  by apply bool_decide_eq_true.
Qed.

Lemma graph_size_addNode g n :
  graph_size (addNode g n) = (graph_size g + if hasNode g n then 0 else 1)%nat.
Proof.
  destruct (hasNode g n) eqn:Hn.
  - rewrite addNode_present by done. lia.
  - apply hasNode_false in Hn. unfold graph_size, addNode, map_index; simpl.
    rewrite Hn; simpl. rewrite map_size_insert_None by done. lia.
Qed.

(** X1: [addNode] is idempotent: it creates the node when it is missing, with an
    empty adjacency sequence, and changes nothing when the node is there; no
    adjacency sequence and no other node is touched. *)
Theorem addNode_idempotent g n :
  hasNode (addNode g n) n = true ∧
  (hasNode g n = true → addNode g n = g) ∧
  addNode (addNode g n) n = addNode g n ∧
  (hasNode g n = false → getNeighbors (addNode g n) n = []) ∧
  (∀ k, adj (addNode g n) k = adj g k) ∧
  (∀ k, k ≠ n → hasNode (addNode g n) k = hasNode g k) ∧
  graph_size (addNode g n) = (graph_size g + if hasNode g n then 0 else 1)%nat.
Proof.
  assert (Hn : hasNode (addNode g n) n = true).
  { rewrite hasNode_addNode. by rewrite decide_True. }
  split; [done|]. split; [apply addNode_present|].
  split; [by apply addNode_present|]. split; [|split; [|split]].
  - intros Habs%hasNode_false. rewrite getNeighbors_adj, adj_addNode.
    unfold adj. by rewrite Habs.
  - apply adj_addNode.
  - intros k Hk. rewrite hasNode_addNode. by rewrite decide_False.
  - apply graph_size_addNode.
Qed.

Lemma lookup_removeEdge g u v k :
  adjacency (removeEdge g u v) !! k =
  (if directed_ g then id
   else if decide (v = k) then fmap (erase_first_eq u) else id)
    ((if decide (u = k) then fmap (erase_first_eq v) else id) (adjacency g !! k)).
Proof.
  unfold removeEdge; simpl. destruct (directed_ g); simpl.
  - rewrite lookup_alter. by case_decide; subst.
  - rewrite !lookup_alter. repeat case_decide; by subst.
Qed.

Lemma adj_removeEdge g u v k :
  adj (removeEdge g u v) k =
  (if directed_ g then id
   else if decide (v = k) then erase_first_eq u else id)
    ((if decide (u = k) then erase_first_eq v else id) (adj g k)).
Proof.
  unfold adj. rewrite lookup_removeEdge.
  destruct (adjacency g !! k) as [l|], (directed_ g);
    repeat case_decide; done.
Qed.

Lemma hasNode_removeEdge g u v k : hasNode (removeEdge g u v) k = hasNode g k.
Proof.
  unfold hasNode. rewrite lookup_removeEdge. apply bool_decide_ext.
  destruct (adjacency g !! k) as [l|], (directed_ g);
    repeat case_decide; simpl; rewrite <-?not_eq_None_Some; naive_solver.
Qed.

Lemma erase_first_eq_twice (n : K) (l : list (K * E)) :
  erase_first_eq n (erase_first_eq n l) = erase_first_eq n l.
Proof. unfold erase_first_eq. apply list_filter_filter_l. done. Qed.

Lemma erase_first_eq_absent (n : K) (l : list (K * E)) :
  n ∉ l.*1 → erase_first_eq n l = l.
Proof.
  unfold erase_first_eq. induction l as [|[x e] l IH]; [done|].
  rewrite fmap_cons, not_elem_of_cons. intros [Hne Hl]. simpl in Hne.
  rewrite filter_cons_True by (simpl; congruence). by rewrite IH.
Qed.

Lemma erase_first_eq_app (n : K) (l1 l2 : list (K * E)) :
  erase_first_eq n (l1 ++ l2) = erase_first_eq n l1 ++ erase_first_eq n l2.
Proof. apply filter_app. Qed.

(** X2: [removeEdge from to] removes every entry toward [to] from the adjacency
    sequence of [from], not only the first one, and keeps the other entries
    in their order; on an undirected graph it does the same with the entries
    toward [from] of [to]; it touches no other adjacency sequence (on a
    directed graph the entries of [to] toward [from] stay) and removes no
    node. *)
Theorem removeEdge_removes_all_entries g u v :
  adj (removeEdge g u v) u = filter (λ p, p.1 ≠ v) (adj g u) ∧
  (v ∉ getNeighbors (removeEdge g u v) u) ∧
  (∀ k, hasNode (removeEdge g u v) k = hasNode g k) ∧
  directed_ (removeEdge g u v) = directed_ g ∧
  (directed_ g = true → ∀ k, k ≠ u → adj (removeEdge g u v) k = adj g k) ∧
  (directed_ g = false →
     adj (removeEdge g u v) v = filter (λ p, p.1 ≠ u) (adj g v) ∧
     (u ∉ getNeighbors (removeEdge g u v) v) ∧
     ∀ k, k ≠ u → k ≠ v → adj (removeEdge g u v) k = adj g k).
Proof.
  assert (Hu : adj (removeEdge g u v) u = filter (λ p, p.1 ≠ v) (adj g u)).
  { rewrite adj_removeEdge. rewrite (decide_True (P := u = u)) by done.
    destruct (directed_ g); [done|]. case_decide; [|done]. subst v.
    apply erase_first_eq_twice. }
  assert (Hnot : ∀ (n : K) (l : list (K * E)), n ∉ (filter (λ p, p.1 ≠ n) l).*1).
  { intros n l (p & -> & Hp)%list_elem_of_fmap.
    apply list_elem_of_filter in Hp as [Hne _]. done. }
  split; [done|]. split; [rewrite getNeighbors_adj, Hu; apply Hnot|].
  split; [apply hasNode_removeEdge|]. split; [done|]. split.
  - intros Hd k Hk. rewrite adj_removeEdge, Hd. by rewrite decide_False.
  - intros Hd.
    assert (Hv : adj (removeEdge g u v) v = filter (λ p, p.1 ≠ u) (adj g v)).
    { rewrite adj_removeEdge, Hd. rewrite (decide_True (P := v = v)) by done.
      case_decide; [|done]. subst v. apply erase_first_eq_twice. }
    split; [done|]. split; [rewrite getNeighbors_adj, Hv; apply Hnot|].
    intros k Hku Hkv. rewrite adj_removeEdge, Hd. by rewrite !decide_False.
Qed.

(** X3: On a directed graph, adding an edge between two nodes of the graph that
    were not joined in that direction and removing it again gives the graph
    back. *)
Theorem removeEdge_addEdge_round_trip g u v e :
  directed_ g = true → hasNode g u = true → hasNode g v = true →
  v ∉ getNeighbors g u →
  removeEdge (addEdge g u v e) u v = g.
Proof.
  intros Hd [lu Hlu]%hasNode_true [lv Hlv]%hasNode_true Hnot.
  apply Graph_eq; [|done]. apply map_eq. intros k.
  rewrite lookup_removeEdge, directed_addEdge, Hd, lookup_addEdge, Hd. simpl.
  rewrite getNeighbors_adj in Hnot.
  destruct (decide (u = k)) as [<-|Hk].
  - rewrite decide_True by auto. cbn [fmap option_fmap option_map].
    rewrite app_nil_r, erase_first_eq_app, erase_first_eq_absent by done.
    unfold erase_first_eq. rewrite filter_cons_False by (simpl; tauto).
    rewrite filter_nil, app_nil_r. unfold adj. by rewrite Hlu.
  - case_decide as Hk'; [|done]. destruct Hk' as [->| ->]; [done|].
    simpl. rewrite !app_nil_r. unfold adj. by rewrite Hlv.
Qed.

End GraphMore.

Lemma removeEdge_addEdge_round_trip_witness :
  let g : Graph Z Z := addEdge (addNode (newGraph true) 1) 2 3 20 in
  removeEdge (addEdge g 1 2 10) 1 2 = g.
Proof.
  intros g. apply (removeEdge_addEdge_round_trip g 1 2 10).
  - reflexivity.
  - vm_compute. reflexivity.
  - vm_compute. reflexivity.
  - vm_compute. apply not_elem_of_nil.
Defined.

Section GraphInvariants.
Context `{Countable K} {E : Type}.
Implicit Types (g : Graph K E) (u v w : K) (e : E) (ops : list (graph_op K E)).

Lemma graph_size_dom g1 g2 :
  dom (adjacency g1) = dom (adjacency g2) → graph_size g1 = graph_size g2.
Proof.
  intros Hdom. unfold graph_size.
  rewrite <-!(size_dom (D := gset K)). by rewrite Hdom.
Qed.

Lemma hasNode_dom g k : hasNode g k = true ↔ k ∈ dom (adjacency g).
Proof. by rewrite hasNode_true, elem_of_dom. Qed.

Lemma adj_removeNode g n k :
  adj (removeNode g n) k =
  if decide (n = k) then [] else filter (λ p, p.1 ≠ n) (adj g k).
Proof.
  unfold adj. rewrite lookup_removeNode. case_decide; [done|].
  by destruct (adjacency g !! k).
Qed.

Lemma adj_clear g k : adj (clear g) k = [].
Proof. unfold adj, clear; simpl. by rewrite lookup_empty. Qed.

(** X4: [size] counts the nodes: [clear] leaves none, [removeNode] takes one
    away when the node is there and none otherwise, [addEdge] adds the end
    points that are missing, and [removeEdge] never changes the count. *)
Theorem graph_size_counts_nodes g :
  (graph_size g = 0%nat ↔ ∀ k, hasNode g k = false) ∧
  graph_size (clear g) = 0%nat ∧
  (∀ n, graph_size (removeNode g n)
        = (graph_size g - if hasNode g n then 1 else 0)%nat) ∧
  (∀ u v e, graph_size (addEdge g u v e)
            = (graph_size g + (if hasNode g u then 0 else 1)
               + (if hasNode g v || bool_decide (u = v) then 0 else 1))%nat) ∧
  (∀ u v, graph_size (removeEdge g u v) = graph_size g).
Proof.
  split; [|split; [|split; [|split]]].
  - unfold graph_size. rewrite map_size_empty_iff. split.
    + intros Hg k. apply hasNode_false. by rewrite Hg, lookup_empty.
    + intros Hno. apply map_eq. intros k. rewrite lookup_empty.
      by apply hasNode_false.
  - unfold graph_size, clear; simpl. apply map_size_empty.
  - intros n. unfold graph_size, removeNode; simpl.
    rewrite map_size_fmap, map_size_delete.
    destruct (hasNode g n) eqn:Hn.
    + apply hasNode_true in Hn as [l ->]. simpl. lia.
    + apply hasNode_false in Hn as ->. simpl. lia.
  - intros u v e.
    rewrite (graph_size_dom (addEdge g u v e) (addNode (addNode g u) v)).
    + rewrite !graph_size_addNode, hasNode_addNode.
      case_decide as Huv.
      * rewrite bool_decide_eq_true_2 by done. by rewrite orb_true_r.
      * rewrite bool_decide_eq_false_2 by done. by rewrite orb_false_r.
    + apply set_eq. intros k.
      rewrite !elem_of_dom, is_Some_lookup_addEdge, <-!hasNode_true.
      rewrite !hasNode_addNode. repeat case_decide; subst; naive_solver.
  - intros u v. apply graph_size_dom. apply set_eq. intros k.
    by rewrite <-!hasNode_dom, hasNode_removeEdge.
Qed.

Lemma apply_ops_wf ops : ∀ g,
  graph_wf g →
  graph_wf (apply_ops g ops) ∧ directed_ (apply_ops g ops) = directed_ g.
Proof.
  induction ops as [|op ops IH]; intros g Hwf; [done|].
  unfold apply_ops. cbn [fold_left]. fold (apply_ops (apply_op g op) ops).
  assert (Hop : graph_wf (apply_op g op) ∧ directed_ (apply_op g op) = directed_ g).
  { destruct op; simpl; (split; [|done]).
    - by apply graph_wf_addNode.
    - by apply graph_wf_addEdge.
    - by apply graph_wf_removeNode.
    - by apply graph_wf_removeEdge.
    - apply graph_wf_clear. }
  destruct Hop as [Hwf' Hd']. destruct (IH _ Hwf') as [? ?].
  split; [done|congruence].
Qed.

(** X5: Whatever mutators are called on a graph, in whatever order, every
    neighbour that [getNeighbors] returns is a node of the graph (no entry
    dangles), and the graph is directed or not as it was constructed. *)
Theorem graph_ops_keep_edges_inside (directed : bool) ops :
  graph_wf (apply_ops (newGraph directed) ops) ∧
  (∀ u v, v ∈ getNeighbors (apply_ops (newGraph directed) ops) u →
          hasNode (apply_ops (newGraph directed) ops) u = true ∧
          hasNode (apply_ops (newGraph directed) ops) v = true) ∧
  directed_ (apply_ops (newGraph directed) ops) = directed.
Proof.
  destruct (apply_ops_wf ops (newGraph directed) (graph_wf_newGraph directed))
    as [Hwf Hd].
  split; [done|]. split; [|done].
  intros u v Hv. rewrite getNeighbors_adj in Hv.
  apply list_elem_of_fmap in Hv as ([v' e] & -> & Hin). simpl. split.
  - apply hasNode_true. apply elem_of_adj in Hin as (l & -> & _). eauto.
  - apply hasNode_true. by eapply (proj1 (graph_wf_adj _) Hwf).
Qed.

Lemma elem_of_adj_removeEdge_undirected g u v k p :
  directed_ g = false →
  p ∈ adj (removeEdge g u v) k ↔
  p ∈ adj g k ∧ (u = k → p.1 ≠ v) ∧ (v = k → p.1 ≠ u).
Proof.
  intros Hd. rewrite adj_removeEdge, Hd.
  repeat case_decide; simpl; rewrite ?erase_first_eq_spec; naive_solver.
Qed.

Lemma adj_symmetric_apply_op g op :
  directed_ g = false → adj_symmetric g → adj_symmetric (apply_op g op).
Proof.
  intros Hd Hsym a b x. destruct op as [n|u v e|n|u v|]; simpl.
  - rewrite !adj_addNode. apply Hsym.
  - rewrite !adj_addEdge, Hd, !elem_of_app.
    intros [Hin|[Hin|Hin]].
    + left. by apply Hsym.
    + case_decide; [|by apply elem_of_nil in Hin].
      apply list_elem_of_singleton in Hin as [= -> ->]. subst a.
      right; right. rewrite decide_True by done. by apply list_elem_of_singleton.
    + case_decide; [|by apply elem_of_nil in Hin].
      apply list_elem_of_singleton in Hin as [= -> ->]. subst a.
      right; left. rewrite decide_True by done. by apply list_elem_of_singleton.
  - rewrite !adj_removeNode. case_decide; [by intros ?%elem_of_nil|].
    intros [Hne Hin]%list_elem_of_filter. simpl in Hne.
    rewrite decide_False by done. apply list_elem_of_filter. split; [done|].
    by apply Hsym.
  - rewrite !elem_of_adj_removeEdge_undirected by done. simpl.
    intros (Hin & H1 & H2). split; [by apply Hsym|]. naive_solver.
  - rewrite !adj_clear. by intros ?%elem_of_nil.
Qed.

Lemma apply_ops_symmetric ops : ∀ g,
  directed_ g = false → adj_symmetric g → adj_symmetric (apply_ops g ops).
Proof.
  induction ops as [|op ops IH]; intros g Hd Hsym; [done|].
  unfold apply_ops. cbn [fold_left]. apply IH.
  - by destruct op.
  - by apply adj_symmetric_apply_op.
Qed.

(** X6: On a graph constructed as undirected the neighbour relation stays
    symmetric under every sequence of mutator calls: each entry has its
    mirror entry with the same payload. *)
Theorem undirected_graph_stays_symmetric ops :
  adj_symmetric (apply_ops (newGraph false) ops) ∧
  ∀ u v, v ∈ getNeighbors (apply_ops (newGraph false) ops) u ↔
         u ∈ getNeighbors (apply_ops (newGraph false) ops) v.
Proof.
  assert (Hsym : adj_symmetric (apply_ops (newGraph false : Graph K E) ops)).
  { apply apply_ops_symmetric; [done|].
    intros u v e. unfold adj, newGraph; simpl. rewrite lookup_empty.
    by intros ?%elem_of_nil. }
  split; [done|].
  assert (Hhalf : ∀ u v, v ∈ getNeighbors (apply_ops (newGraph false) ops) u →
                         u ∈ getNeighbors (apply_ops (newGraph false) ops) v).
  { intros u v. rewrite !getNeighbors_adj.
    intros ([v' e] & -> & Hin)%list_elem_of_fmap. simpl.
    apply list_elem_of_fmap. exists (u, e). split; [done|]. by apply Hsym. }
  intros u v. split; apply Hhalf.
Qed.

End GraphInvariants.

(** ** Traversals: what is visited *)

Section TraversalReach.
Context `{Countable K} {E : Type}.
Implicit Types (g : Graph K E) (q st out : list K) (visited : gset K).

Lemma bfs_visit_fold_covers neighbors : ∀ q visited x,
  x ∈ visited ∨ x ∈ neighbors →
  x ∈ (fold_left bfs_visit neighbors (q, visited)).2.
Proof.
  induction neighbors as [|a neighbors IH]; intros q visited x Hx; simpl.
  - destruct Hx as [?|?%elem_of_nil]; done.
  - destruct (decide (a ∈ visited)) as [Ha|Ha]; apply IH.
    + destruct Hx as [?|[->|?]%elem_of_cons]; auto.
    + destruct Hx as [?|[->|?]%elem_of_cons]; [left|left|right]; set_solver.
Qed.

(** The invariant that makes the breadth-first loop visit what can be
    reached, and nothing else. *)
Lemma bfs_loop_reachable g start fuel : ∀ q visited out r,
  bfs_inv q visited out →
  start ∈ visited →
  (∀ x, x ∈ visited → reachable g start x) →
  (∀ u v, u ∈ out → v ∈ getNeighbors g u → v ∈ visited) →
  bfs_loop fuel g q visited out = Some r →
  ∀ x, x ∈ r.1 ↔ reachable g start x.
Proof.
  induction fuel as [|fuel IH]; intros q visited out r [Hnd Hvis] Hs Hreach Hclosed;
    [done|].
  simpl. destruct q as [|node q'].
  - intros [= <-] x. simpl. rewrite app_nil_r in Hvis. split.
    + intros Hx. by apply Hreach, Hvis.
    + induction 1 as [|u v Hu IHu Hv]; [by apply Hvis|].
      apply Hvis. eapply Hclosed; [exact IHu|done].
  - pose proof (bfs_visit_fold_covers (getNeighbors g node) q' visited) as Hcov.
    destruct (bfs_visit_fold (getNeighbors g node) q' visited)
      as (new & Hfold & Hnew & Hfresh).
    rewrite Hfold in Hcov |- *. simpl in Hcov.
    assert (Hnode : node ∈ visited).
    { apply Hvis. apply elem_of_app. right. by left. }
    apply IH.
    + split.
      * replace ((out ++ [node]) ++ q' ++ new) with ((out ++ node :: q') ++ new)
          by (by rewrite <-!app_assoc).
        apply NoDup_app. split; [done|]. split; [|done].
        intros x Hx Hx'. apply Hfresh in Hx' as [_ Hx']. by apply Hx', Hvis.
      * intros x.
        replace ((out ++ [node]) ++ q' ++ new) with ((out ++ node :: q') ++ new)
          by (by rewrite <-!app_assoc).
        rewrite elem_of_app, Hvis, elem_of_union, elem_of_list_to_set. tauto.
    + set_solver.
    + intros x [Hx%elem_of_list_to_set|Hx]%elem_of_union; [|by apply Hreach].
      apply Hfresh in Hx as [Hx _]. eapply reachable_step; [|done]. by apply Hreach.
    + intros u v [Hu|Hu%list_elem_of_singleton]%elem_of_app Hv.
      * apply elem_of_union_r. by eapply Hclosed.
      * subst u. apply Hcov. by right.
Qed.

Lemma dfs_loop_reachable g start fuel : ∀ st visited out r,
  NoDup out → (∀ x, x ∈ out ↔ x ∈ visited) →
  (start ∈ visited ∨ start ∈ st) →
  (∀ x, x ∈ visited ∨ x ∈ st → reachable g start x) →
  (∀ u v, u ∈ visited → v ∈ getNeighbors g u → v ∈ visited ∨ v ∈ st) →
  dfs_loop fuel g st visited out = Some r →
  ∀ x, x ∈ r.1 ↔ reachable g start x.
Proof.
  induction fuel as [|fuel IH]; intros st visited out r Hnd Hvis Hs Hreach Hclosed;
    [done|].
  simpl. destruct st as [|node st'].
  - intros [= <-] x. simpl. split.
    + intros Hx. apply Hreach. left. by apply Hvis.
    + assert (Hs' : start ∈ visited) by (by destruct Hs as [?|?%elem_of_nil]).
      induction 1 as [|u v Hu IHu Hv]; [by apply Hvis|].
      apply Hvis. apply Hvis in IHu.
      by destruct (Hclosed u v IHu Hv) as [?|?%elem_of_nil].
  - destruct (decide (node ∈ visited)) as [Hin|Hin].
    + apply IH; try done.
      * destruct Hs as [?|[->|?]%elem_of_cons]; auto.
      * intros x [?|?]; apply Hreach; [by left|right; by right].
      * intros u v Hu Hv.
        destruct (Hclosed u v Hu Hv) as [?|[->|?]%elem_of_cons]; auto.
    + assert (Hnode : reachable g start node) by (apply Hreach; right; by left).
      apply IH.
      * apply NoDup_app. split; [done|]. split; [|apply NoDup_singleton].
        intros x Hx ->%list_elem_of_singleton. by apply Hin, Hvis.
      * intros x. rewrite elem_of_app, list_elem_of_singleton, Hvis. set_solver.
      * destruct Hs as [Hs|[->|Hs]%elem_of_cons].
        -- left. by apply elem_of_union_r.
        -- left. by apply elem_of_union_l, elem_of_singleton.
        -- right. apply elem_of_push_all. by right.
      * intros x [[->%elem_of_singleton|Hx]%elem_of_union|Hx]; [done| |].
        -- apply Hreach. by left.
        -- apply elem_of_push_all in Hx as [Hx|Hx].
           ++ by eapply reachable_step.
           ++ apply Hreach. right. by right.
      * intros u v [->%elem_of_singleton|Hu]%elem_of_union Hv.
        -- right. apply elem_of_push_all. by left.
        -- destruct (Hclosed u v Hu Hv) as [?|[->|?]%elem_of_cons].
           ++ left. set_solver.
           ++ left. set_solver.
           ++ right. apply elem_of_push_all. by right.
Qed.

(** X7: A breadth-first run emits the nodes that can be reached from the start
    node along adjacency entries, each of them once, and no other node. *)
Theorem BFS_run_emits_reachable g start :
  ∃ fuel out visited,
    BFS_run fuel g start = Some (out, visited) ∧
    NoDup out ∧
    (∀ x, x ∈ out ↔ reachable g start x) ∧
    (∀ x, x ∈ visited ↔ reachable g start x).
Proof.
  destruct (BFS_run_result g start) as (fuel & out & visited & Hrun & _ & Hnd & _).
  exists fuel, out, visited. split; [done|]. split; [done|].
  assert (Hout : ∀ x, x ∈ out ↔ reachable g start x).
  { apply (bfs_loop_reachable g start fuel [start] {[start]} [] (out, visited)).
    - split; [apply NoDup_singleton|]. intros x. simpl.
      by rewrite list_elem_of_singleton, elem_of_singleton.
    - set_solver.
    - intros x ->%elem_of_singleton. constructor.
    - intros u v Hu. by apply elem_of_nil in Hu.
    - done. }
  split; [done|].
  assert (Hvis : ∀ x, x ∈ out ↔ x ∈ visited).
  { assert (Hgen : ∀ fuel q vis o r,
      (∀ x, x ∈ o ++ q ↔ x ∈ vis) →
      bfs_loop fuel g q vis o = Some r → ∀ x, x ∈ r.1 ↔ x ∈ r.2).
    { clear. intros fuel. induction fuel as [|fuel IH]; intros q vis o r Hv; [done|].
      simpl. destruct q as [|node q'].
      - intros [= <-]. simpl. intros x. by rewrite <-Hv, app_nil_r.
      - destruct (bfs_visit_fold (getNeighbors g node) q' vis)
          as (new & -> & _ & _).
        apply IH. intros x.
        replace ((o ++ [node]) ++ q' ++ new) with ((o ++ node :: q') ++ new)
          by (by rewrite <-!app_assoc).
        rewrite elem_of_app, Hv, elem_of_union, elem_of_list_to_set. tauto. }
    apply (Hgen fuel [start] {[start]} [] (out, visited)); [|done].
    intros x. simpl. by rewrite list_elem_of_singleton, elem_of_singleton. }
  intros x. by rewrite <-Hvis.
Qed.

(** X8: A depth-first run emits the nodes that can be reached from the start
    node, each of them once, and no other node. *)
Theorem DFS_run_emits_reachable g start :
  ∃ fuel out visited,
    DFS_run fuel g start = Some (out, visited) ∧
    NoDup out ∧
    (∀ x, x ∈ out ↔ reachable g start x).
Proof.
  destruct (DFS_run_result g start) as (fuel & out & visited & Hrun & _ & Hnd & _).
  exists fuel, out, visited. split; [done|]. split; [done|].
  apply (dfs_loop_reachable g start fuel [start] ∅ [] (out, visited)).
  - constructor.
  - intros x. split; [by intros ?%elem_of_nil|set_solver].
  - right. by left.
  - intros x [?| ->%list_elem_of_singleton]; [set_solver|constructor].
  - intros u v Hu. set_solver.
  - done.
Qed.

(** X9: The two traversals emit the same nodes, in general in another order. *)
Theorem BFS_DFS_emit_same_nodes g start :
  ∃ fuel out_bfs visited_bfs out_dfs visited_dfs,
    BFS_run fuel g start = Some (out_bfs, visited_bfs) ∧
    DFS_run fuel g start = Some (out_dfs, visited_dfs) ∧
    out_bfs ≡ₚ out_dfs.
Proof.
  destruct (BFS_run_result g start) as (fb & ob & vb & Hb & _ & Hndb & _).
  destruct (DFS_run_result g start) as (fd & od & vd & Hd & _ & Hndd & _).
  exists (fb + fd)%nat, ob, vb, od, vd.
  split; [eapply bfs_loop_fuel_mono; [exact Hb|lia]|].
  split; [eapply dfs_loop_fuel_mono; [exact Hd|lia]|].
  apply NoDup_Permutation; [done|done|]. intros x.
  rewrite (bfs_loop_reachable g start fb [start] {[start]} [] (ob, vb)); cycle 1.
  { split; [apply NoDup_singleton|]. intros y. simpl.
    by rewrite list_elem_of_singleton, elem_of_singleton. }
  { set_solver. }
  { intros y ->%elem_of_singleton. constructor. }
  { intros u v Hu. by apply elem_of_nil in Hu. }
  { done. }
  symmetry.
  apply (dfs_loop_reachable g start fd [start] ∅ [] (od, vd)).
  - constructor.
  - intros y. split; [by intros ?%elem_of_nil|set_solver].
  - right. by left.
  - intros y [?| ->%list_elem_of_singleton]; [set_solver|constructor].
  - intros u v Hu. set_solver.
  - done.
Qed.

End TraversalReach.

(** ** Dijkstra: further properties of a run *)

Section DijkstraMore.
Context `{Countable K}.
Variable node_ltb : K → K → bool.

Implicit Types (g : Graph K WeightedEdge) (p : list (K * WeightedEdge)).

(** X11: When the start node is not in the graph, [run] only initialises: every
    node is at +infinity, no parent is recorded, and every path query gives
    the empty sequence. *)
Theorem Dijkstra_run_start_absent g (s : K) :
  hasNode g s = false →
  ∃ dj, (∀ fuel, Dijkstra_run node_ltb fuel g s = Some dj) ∧
        parent dj = ∅ ∧
        (∀ v, dist dj !! v = if hasNode g v then Some Dbl.infinity else None) ∧
        (∀ fuel start target, getPathTo fuel dj start target = Some []).
Proof.
  intros Hs. exists {| dist := dist_init g; parent := ∅ |}.
  split; [intros fuel; unfold Dijkstra_run; by rewrite Hs|].
  split; [done|].
  assert (Hd : ∀ v, dist_init g !! v = if hasNode g v then Some Dbl.infinity else None).
  { intros v. rewrite lookup_dist_init. destruct (hasNode g v) eqn:Hv.
    - apply hasNode_true in Hv as [l ->]. done.
    - apply hasNode_false in Hv as ->. done. }
  split; [done|].
  intros fuel start target. unfold getPathTo. simpl. rewrite Hd.
  by destruct (hasNode g target).
Qed.

Lemma tree_walk_inv g s settled dmap pmap p v :
  tree_walk g s settled dmap pmap p v →
  (p = [] ∧ v = s) ∨
  ∃ p' u w, p = p' ++ [(v, w)] ∧ v ≠ s ∧
            tree_walk g s settled dmap pmap p' u ∧ u ∈ settled ∧
            dmap !! u = Some (walk_weight p') ∧
            pmap !! v = Some u ∧ (v, w) ∈ adj g u.
Proof.
  destruct 1 as [|p u v w Hp Hu Hdu Hv Hpar Hin]; [by left|].
  right. by exists p, u, w.
Qed.

(** X12: After a run the recorded distances are a fixed point of relaxation: the
    start node is at 0, no distance is negative, and no adjacency entry can
    improve the distance of its target. *)
Theorem Dijkstra_run_relaxed g (s : K) :
  graph_wf g → weights_nonneg g → hasNode g s = true →
  ∃ fuel dj,
    Dijkstra_run node_ltb fuel g s = Some dj ∧
    dist dj !! s = Some Dbl.zero ∧
    parent dj !! s = None ∧
    (∀ v dv, dist dj !! v = Some dv → Dbl.nonneg dv) ∧
    (∀ u du v w,
       dist dj !! u = Some du → (v, w) ∈ adj g u →
       ∃ dv, dist dj !! v = Some dv ∧
             Dbl.leb dv (Dbl.add du (weight w)) = true).
Proof.
  intros Hwf Hfin Hs.
  pose proof (weights_nonneg_nonneg g Hfin) as Hnn.
  destruct (Dijkstra_run_terminates node_ltb g s Hwf Hnn Hs)
    as (fuel & dj & settled & lo & cur & Hrun & Hinv).
  exists fuel, dj. split; [done|].
  split; [by eapply inv_start|]. split; [by eapply inv_start_parent|].
  split; [by eapply inv_nonneg|].
  intros u du v w. by eapply final_triangle.
Qed.

(** X13: After a run every reached node other than the start has a parent entry:
    a reached node with an adjacency entry toward it, through which its
    distance is obtained, and which is not farther than it. *)
Theorem Dijkstra_run_parent_edges g (s : K) :
  graph_wf g → weights_nonneg g → hasNode g s = true →
  ∃ fuel dj,
    Dijkstra_run node_ltb fuel g s = Some dj ∧
    ∀ v dv,
      dist dj !! v = Some dv → Dbl.eqb dv Dbl.infinity = false → v ≠ s →
      ∃ u du w,
        parent dj !! v = Some u ∧
        dist dj !! u = Some du ∧ Dbl.eqb du Dbl.infinity = false ∧
        (v, w) ∈ adj g u ∧
        dv = Dbl.add du (weight w) ∧
        Dbl.leb du dv = true.
Proof.
  intros Hwf Hfin Hs.
  pose proof (weights_nonneg_nonneg g Hfin) as Hnn.
  destruct (Dijkstra_run_terminates node_ltb g s Hwf Hnn Hs)
    as (fuel & dj & settled & lo & cur & Hrun & Hinv).
  exists fuel, dj. split; [done|].
  intros v dv Hdv Hdvfin Hvs.
  destruct (inv_tree _ _ _ _ _ _ _ _ _ Hinv v dv Hdv Hdvfin) as (p & Hp & ->).
  apply tree_walk_inv in Hp as [[_ ?]|(p' & u & w & -> & _ & Hp' & Hu & Hdu & Hpar & Hin)];
    [done|].
  destruct (inv_settled _ _ _ _ _ _ _ _ _ Hinv u Hu) as (du & Hdu' & Hdufin & _).
  rewrite Hdu in Hdu'. injection Hdu' as <-.
  exists u, (walk_weight p'), w.
  split; [done|]. split; [done|]. split; [done|]. split; [done|].
  split; [apply walk_weight_snoc|].
  rewrite walk_weight_snoc. apply DblFacts.leb_add_r; [|by eapply Hnn].
  by eapply inv_nonneg.
Qed.

End DijkstraMore.

Lemma Dijkstra_run_start_absent_witness :
  ∃ dj, (∀ fuel, Dijkstra_run String.ltb fuel sample_graph "Z" = Some dj) ∧
        parent dj = ∅ ∧
        (∀ v, dist dj !! v = if hasNode sample_graph v then Some Dbl.infinity else None) ∧
        (∀ fuel start target, getPathTo fuel dj start target = Some []).
Proof.
  apply (Dijkstra_run_start_absent String.ltb sample_graph "Z"). vm_compute. reflexivity.
Defined.

Lemma Dijkstra_run_relaxed_witness :
  ∃ fuel dj,
    Dijkstra_run String.ltb fuel sample_graph "A" = Some dj ∧
    dist dj !! "A" = Some Dbl.zero ∧
    parent dj !! "A" = None ∧
    (∀ v dv, dist dj !! v = Some dv → Dbl.nonneg dv) ∧
    (∀ u du v w,
       dist dj !! u = Some du → (v, w) ∈ adj sample_graph u →
       ∃ dv, dist dj !! v = Some dv ∧
             Dbl.leb dv (Dbl.add du (weight w)) = true).
Proof.
  apply (Dijkstra_run_relaxed String.ltb sample_graph "A").
  - apply sample_graph_wf.
  - apply sample_graph_weights.
  - vm_compute. reflexivity.
Defined.

Lemma Dijkstra_run_parent_edges_witness :
  ∃ fuel dj,
    Dijkstra_run String.ltb fuel sample_graph "A" = Some dj ∧
    ∀ v dv,
      dist dj !! v = Some dv → Dbl.eqb dv Dbl.infinity = false → v ≠ "A" →
      ∃ u du w,
        parent dj !! v = Some u ∧
        dist dj !! u = Some du ∧ Dbl.eqb du Dbl.infinity = false ∧
        (v, w) ∈ adj sample_graph u ∧
        dv = Dbl.add du (weight w) ∧
        Dbl.leb du dv = true.
Proof.
  apply (Dijkstra_run_parent_edges String.ltb sample_graph "A").
  - apply sample_graph_wf.
  - apply sample_graph_weights.
  - vm_compute. reflexivity.
Defined.

(** ** Dijkstra: reached and unreached nodes *)

Section DijkstraReach.
Context `{Countable K}.
Variable node_ltb : K → K → bool.

Implicit Types (g : Graph K WeightedEdge) (p : list (K * WeightedEdge)).

Lemma walk_reachable g (s v : K) : (∃ p, walk g s p v) ↔ reachable g s v.
Proof.
  split.
  - intros [p Hp]. induction Hp as [|p u v w Hp IH Hin]; [constructor|].
    eapply reachable_step; [exact IH|]. rewrite getNeighbors_adj.
    apply list_elem_of_fmap. by exists (v, w).
  - induction 1 as [|u v Hu [p Hp] Hv]; [exists []; constructor|].
    rewrite getNeighbors_adj in Hv.
    apply list_elem_of_fmap in Hv as ([v' w] & -> & Hin).
    exists (p ++ [(v', w)]). by econstructor.
Qed.

Lemma getPathTo_unique (dj : Dijkstra K) start target f1 f2 l1 l2 :
  getPathTo f1 dj start target = Some l1 →
  getPathTo f2 dj start target = Some l2 → l1 = l2.
Proof.
  unfold getPathTo. destruct (dist dj !! target) as [d|]; [|congruence].
  destruct (Dbl.eqb d Dbl.infinity); [congruence|].
  intros H1 H2. destruct (Nat.le_ge_cases f1 f2) as [Hle|Hle].
  - pose proof (getPathTo_loop_fuel_mono _ _ _ _ _ _ _ H1 Hle). congruence.
  - pose proof (getPathTo_loop_fuel_mono _ _ _ _ _ _ _ H2 Hle). congruence.
Qed.

(** The consecutive nodes of a walk are joined by adjacency entries. *)
Lemma walk_nodes_linked g (s t : K) p :
  walk g s p t →
  ∀ (i : nat) a b,
    walk_nodes s p !! i = Some a → walk_nodes s p !! S i = Some b →
    b ∈ getNeighbors g a.
Proof.
  induction 1 as [|p u v w Hp IH Hin]; intros i a b Ha Hb.
  - by destruct i.
  - assert (Hnodes : walk_nodes s (p ++ [(v, w)]) = walk_nodes s p ++ [v]).
    { unfold walk_nodes. by rewrite fmap_app. }
    rewrite Hnodes in Ha, Hb.
    assert (Hlen : length (walk_nodes s p) = S (length p)).
    { unfold walk_nodes. simpl. by rewrite length_fmap. }
    destruct (decide (S i < S (length p))%nat) as [Hlt|Hge].
    + rewrite lookup_app_l in Ha by (rewrite Hlen; lia).
      rewrite lookup_app_l in Hb by (rewrite Hlen; lia).
      by eapply IH.
    + assert (Hi : i = length p).
      { apply lookup_lt_Some in Hb. rewrite length_app, Hlen in Hb.
        cbn [length] in Hb. lia. }
      subst i. rewrite lookup_app_l in Ha by (rewrite Hlen; lia).
      rewrite lookup_app_r in Hb by (rewrite Hlen; lia).
      rewrite Hlen, Nat.sub_diag in Hb.
      injection Hb as <-.
      pose proof (last_walk_nodes s p) as Hlast.
      rewrite last_lookup, Hlen in Hlast. simpl in Hlast.
      rewrite Ha in Hlast. injection Hlast as ->.
      rewrite (walk_walk_end _ _ _ _ Hp).
      rewrite getNeighbors_adj. apply list_elem_of_fmap. by exists (v, w).
Qed.

Lemma getPathTo_fuel_mono (dj : Dijkstra K) start target f1 f2 l :
  getPathTo f1 dj start target = Some l → (f1 ≤ f2)%nat →
  getPathTo f2 dj start target = Some l.
Proof.
  unfold getPathTo. destruct (dist dj !! target) as [d|]; [|done].
  destruct (Dbl.eqb d Dbl.infinity); [done|].
  intros Hl Hle. by eapply getPathTo_loop_fuel_mono.
Qed.

Lemma Dijkstra_run_paths g (s : K) :
  graph_wf g → weights_nonneg g → hasNode g s = true →
  ∃ fuel dj,
    Dijkstra_run node_ltb fuel g s = Some dj ∧
    (∀ v, hasNode g v = false → dist dj !! v = None ∧ ¬ reachable g s v) ∧
    ∀ v,
      hasNode g v = true →
      ∃ dv fuelp l,
        dist dj !! v = Some dv ∧
        getPathTo fuelp dj s v = Some l ∧
        (∀ fuel' l', getPathTo fuel' dj s v = Some l' → l' = l) ∧
        (reachable g s v ↔ Dbl.eqb dv Dbl.infinity = false) ∧
        (reachable g s v ↔ l ≠ []) ∧
        (l ≠ [] →
         head l = Some s ∧ last l = Some v ∧
         (∀ (i : nat) a b, l !! i = Some a → l !! S i = Some b →
                           b ∈ getNeighbors g a) ∧
         ∃ d, path_weight g l = Some d ∧ Dbl.eqb d dv = true ∧
              ∀ p, walk g s p v → Dbl.leb d (walk_weight p) = true).
Proof.
  intros Hwf Hfin Hs.
  pose proof (weights_nonneg_nonneg g Hfin) as Hnn.
  destruct (Dijkstra_run_terminates node_ltb g s Hwf Hnn Hs)
    as (fuel & dj & settled & lo & cur & Hrun & Hinv).
  exists fuel, dj. split; [done|].
  pose proof (inv_dom _ _ _ _ _ _ _ _ _ Hinv) as Hdom.
  assert (Hfinite : ∀ v dv, dist dj !! v = Some dv →
            (reachable g s v ↔ Dbl.eqb dv Dbl.infinity = false)).
  { intros v dv Hdv. rewrite <-walk_reachable. split.
    - intros [p Hp].
      destruct (final_lower_bound g s Hwf Hnn _ _ _ _ _ Hinv p v Hp) as (dv' & Hdv' & Hle).
      rewrite Hdv in Hdv'. injection Hdv' as <-.
      eapply DblFacts.leb_finite; [by eapply inv_nonneg|done|].
      by eapply walk_weight_finite.
    - intros Hdvfin.
      destruct (final_witness g s _ _ _ _ _ Hinv v dv Hdv Hdvfin) as (p & _ & Hp & _).
      by exists p. }
  split.
  - intros v Hv. apply hasNode_false in Hv.
    assert (Hnone : dist dj !! v = None).
    { apply (not_elem_of_dom (D := gset K)). rewrite Hdom.
      by apply not_elem_of_dom. }
    split; [done|]. rewrite <-walk_reachable. intros [p Hp].
    destruct (final_lower_bound g s Hwf Hnn _ _ _ _ _ Hinv p v Hp) as (dv' & Hdv' & _).
    congruence.
  - intros v Hv.
    assert (is_Some (dist dj !! v)) as [dv Hdv].
    { apply elem_of_dom. rewrite Hdom. apply elem_of_dom. by apply hasNode_true. }
    exists dv. destruct (Dbl.eqb dv Dbl.infinity) eqn:Hdvfin.
    + exists O, []. split; [done|].
      assert (Hget : ∀ f, getPathTo f dj s v = Some []).
      { intros f. unfold getPathTo. by rewrite Hdv, Hdvfin. }
      split; [apply Hget|]. split; [intros f l'; rewrite Hget; congruence|].
      split; [rewrite (Hfinite v dv Hdv); by rewrite Hdvfin|].
      split; [|done]. rewrite (Hfinite v dv Hdv), Hdvfin. split; done.
    + destruct (final_witness g s _ _ _ _ _ Hinv v dv Hdv Hdvfin) as (p & Htp & Hp & Hpw).
      assert (Hget : getPathTo (S (length p)) dj s v = Some (walk_nodes s p)).
      { unfold getPathTo. rewrite Hdv, Hdvfin.
        rewrite (getPathTo_loop_tree_walk _ _ _ _ _ _ _ Htp) by lia.
        by rewrite app_nil_r. }
      exists (S (length p)), (walk_nodes s p). split; [done|]. split; [done|].
      split; [intros f l' Hl'; by eapply getPathTo_unique|].
      split; [rewrite (Hfinite v dv Hdv); by rewrite Hdvfin|].
      split; [rewrite (Hfinite v dv Hdv), Hdvfin; split; done|].
      intros _. split; [done|]. split; [|split].
      * rewrite last_walk_nodes. f_equal. by eapply walk_walk_end.
      * by eapply walk_nodes_linked.
      * destruct (tree_path_weight g s _ _ _ _ _ Hwf Hnn Hinv p v Htp) as (d & Hd & Hdeq).
        { by rewrite Hpw. }
        rewrite Hpw in Hdeq. exists d. split; [done|]. split; [done|].
        intros q Hq.
        destruct (final_lower_bound g s Hwf Hnn _ _ _ _ _ Hinv q v Hq) as (dv' & Hdv' & Hle).
        rewrite Hdv in Hdv'. injection Hdv' as <-.
        by eapply DblFacts.eqb_leb_trans.
Qed.



End DijkstraReach.


(** ** The link cost: sign and growth *)

Lemma payload_seconds_Fin (n : N) (b : Q) :
  (0 < b)%Q →
  Dbl.div (Dbl.mul (Dbl.of_size_t n) d8) (Dbl.mul (Dbl.Fin b) d1e6)
  = Dbl.Fin (inject_Z (Z.of_N n) * 8 / (b * 1000000)).
Proof.
  intros Hb. unfold Dbl.div, Dbl.mul, Dbl.of_size_t, d8, d1e6.
  assert (Hnz : Qeq_bool (b * 1000000) 0 = false).
  { rewrite <-not_true_iff_false, Qeq_bool_iff. intros Hz.
    assert (Hpos : (0 < b * 1000000)%Q) by (apply Qmult_lt_0_compat; [done|reflexivity]).
    rewrite Hz in Hpos. by apply Qlt_irrefl in Hpos. }
  by rewrite Hnz.
Qed.

Lemma payload_seconds_nonneg (n : N) (b : Q) :
  (0 < b)%Q → (0 <= inject_Z (Z.of_N n) * 8 / (b * 1000000))%Q.
Proof.
  intros Hb. apply Qle_shift_div_l.
  - apply Qmult_lt_0_compat; [done|reflexivity].
  - rewrite Qmult_0_l. apply Qmult_le_0_compat; [|discriminate].
    change 0%Q with (inject_Z 0). rewrite <-Zle_Qle. lia.
Qed.

Lemma payload_seconds_mono (n m : N) (b : Q) :
  (n ≤ m)%N → (0 < b)%Q →
  (inject_Z (Z.of_N n) * 8 / (b * 1000000)
   <= inject_Z (Z.of_N m) * 8 / (b * 1000000))%Q.
Proof.
  intros Hnm Hb. unfold Qdiv. apply Qmult_le_compat_r.
  - apply Qmult_le_compat_r; [|discriminate]. rewrite <-Zle_Qle. lia.
  - apply Qlt_le_weak, Qinv_lt_0_compat.
    apply Qmult_lt_0_compat; [done|reflexivity].
Qed.

Lemma gtb_zero_Fin (b : Q) :
  Dbl.gtb (Dbl.Fin b) Dbl.zero = true ↔ (0 < b)%Q.
Proof. unfold Dbl.gtb, Dbl.zero. apply DblFacts.ltb_Fin. Qed.

Lemma costForBytes_finite (l : Link) (bytes : N) :
  finite_nonneg (latencyMs l) → finite_nonneg (costForBytes l bytes).
Proof.
  intros (a & Ha & Hpos). unfold costForBytes. rewrite Ha.
  assert (Hlat : Dbl.div (Dbl.Fin a) d1000 = Dbl.Fin (a / 1000)) by done.
  rewrite Hlat.
  assert (Ha' : (0 <= a / 1000)%Q) by (apply Qle_shift_div_l; lra).
  destruct (bandwidthMbps l) as [b| | |] eqn:Hbw.
  - destruct (Dbl.gtb (Dbl.Fin b) Dbl.zero) eqn:Hgt.
    + apply gtb_zero_Fin in Hgt.
      rewrite payload_seconds_Fin by done. simpl.
      eexists. split; [reflexivity|].
      pose proof (payload_seconds_nonneg bytes b Hgt). lra.
    + simpl. eexists. split; [reflexivity|]. lra.
  - simpl. eexists. split; [reflexivity|]. lra.
  - simpl. eexists. split; [reflexivity|]. lra.
  - simpl. eexists. split; [reflexivity|]. lra.
Qed.





(** ** The routing adapter: the weighted graph *)

Section RouteGraph.
Variable payloadBytes : N.

Implicit Types (g : Graph string Link) (h : Graph string WeightedEdge)
  (L : list (string * list (string * Link))).

Lemma lookup_adj {K} `{Countable K} {E} (g : Graph K E) k :
  adjacency g !! k = if hasNode g k then Some (adj g k) else None.
Proof.
  unfold adj. destruct (hasNode g k) eqn:Hk.
  - apply hasNode_true in Hk as [l ->]. done.
  - by apply hasNode_false in Hk as ->.
Qed.

Lemma fold_addNode_spec L : ∀ h,
  directed_ (fold_left (λ wg entry, addNode wg entry.1) L h) = directed_ h ∧
  ∀ k, adjacency (fold_left (λ wg entry, addNode wg entry.1) L h) !! k =
       if decide (k ∈ L.*1) then Some (adj h k) else adjacency h !! k.
Proof.
  induction L as [|[u vec] L IH]; intros h.
  - split; [done|]. intros k. cbn [fold_left].
    destruct (decide (k ∈ ([] : list (string * list (string * Link))).*1)) as [Hk|]; [|done].
    by apply elem_of_nil in Hk.
  - cbn [fold_left]. destruct (IH (addNode h u)) as [Hd Hl]. split; [done|].
    intros k. rewrite Hl, adj_addNode, lookup_addNode. rewrite fmap_cons.
    cbn [fst]. destruct (decide (k ∈ L.*1)) as [Hk|Hk].
    + rewrite decide_True; [done|]. by right.
    + destruct (decide (u = k)) as [->|Hu].
      * rewrite decide_True; [done|]. by left.
      * rewrite decide_False; [done|]. rewrite not_elem_of_cons. split; congruence.
Qed.

Lemma fold_addEdge_spec u (vec : list (string * Link)) : ∀ h,
  directed_ h = true →
  directed_ (fold_left
    (λ wg p, addEdge wg u p.1 (linkToWeightedEdge p.2 payloadBytes)) vec h) = true ∧
  (∀ k, adj (fold_left
          (λ wg p, addEdge wg u p.1 (linkToWeightedEdge p.2 payloadBytes)) vec h) k
        = adj h k ++ if decide (u = k) then weighted_entries payloadBytes vec else []) ∧
  (∀ k, is_Some (adjacency (fold_left
          (λ wg p, addEdge wg u p.1 (linkToWeightedEdge p.2 payloadBytes)) vec h) !! k)
        ↔ is_Some (adjacency h !! k) ∨ (vec ≠ [] ∧ k = u) ∨ k ∈ vec.*1).
Proof.
  induction vec as [|[v link] vec IH]; intros h Hd.
  - split; [done|]. split.
    + intros k. simpl. by destruct (decide (u = k)); rewrite app_nil_r.
    + intros k. simpl. split; [auto|]. intros [?|[[? _]|?%elem_of_nil]]; done.
  - cbn [fold_left].
    destruct (IH (addEdge h u v (linkToWeightedEdge link payloadBytes)))
      as (Hd' & Hadj & Hsome); [done|].
    split; [done|]. split.
    + intros k. rewrite Hadj, adj_addEdge, Hd. simpl.
      rewrite app_nil_r, <-app_assoc. f_equal. by destruct (decide (u = k)).
    + intros k. rewrite Hsome, is_Some_lookup_addEdge. rewrite fmap_cons. simpl.
      rewrite elem_of_cons. split.
      * intros [[->|[->|?]]|[[_ ->]|?]]; auto.
      * intros [?|[[_ ->]|[->|?]]]; auto.
Qed.

Lemma fold_entries_spec L : ∀ h,
  NoDup L.*1 → directed_ h = true →
  directed_ (fold_left
    (λ wg entry,
       fold_left
         (λ wg p, addEdge wg entry.1 p.1 (linkToWeightedEdge p.2 payloadBytes))
         entry.2 wg) L h) = true ∧
  (∀ k, adj (fold_left
    (λ wg entry,
       fold_left
         (λ wg p, addEdge wg entry.1 p.1 (linkToWeightedEdge p.2 payloadBytes))
         entry.2 wg) L h) k
     = adj h k ++ weighted_entries payloadBytes
                    (default [] ((list_to_map L : gmap string _) !! k))) ∧
  (∀ k, is_Some (adjacency (fold_left
    (λ wg entry,
       fold_left
         (λ wg p, addEdge wg entry.1 p.1 (linkToWeightedEdge p.2 payloadBytes))
         entry.2 wg) L h) !! k)
     ↔ is_Some (adjacency h !! k) ∨
       ∃ u vec, (u, vec) ∈ L ∧ ((vec ≠ [] ∧ k = u) ∨ k ∈ vec.*1)).
Proof.
  induction L as [|[u vec] L IH]; intros h Hnd Hd.
  - split; [done|]. split.
    + intros k. simpl. rewrite lookup_empty. simpl. by rewrite app_nil_r.
    + intros k. simpl. split; [auto|].
      intros [?|(u & vec & ?%elem_of_nil & _)]; done.
  - rewrite fmap_cons in Hnd. apply NoDup_cons in Hnd as [Hu Hnd]. simpl in Hu.
    cbn [fold_left fst snd].
    destruct (fold_addEdge_spec u vec h Hd) as (Hd1 & Hadj1 & Hsome1).
    destruct (IH _ Hnd Hd1) as (Hd2 & Hadj2 & Hsome2).
    split; [done|]. split.
    + intros k. rewrite Hadj2, Hadj1, list_to_map_cons, lookup_insert, <-app_assoc.
      f_equal. destruct (decide (u = k)) as [<-|Hk]; [|done].
      apply not_elem_of_list_to_map in Hu. rewrite Hu. simpl.
      by rewrite app_nil_r.
    + intros k. rewrite Hsome2, Hsome1. split.
      * intros [[?|Hk]|(u' & vec' & Hin & Hk)]; [by left| |].
        -- right. exists u, vec. split; [by left|done].
        -- right. exists u', vec'. split; [by right|done].
      * intros [?|(u' & vec' & [[= -> ->]|Hin]%elem_of_cons & Hk)];
          [by left; left|by left; right|].
        right. by exists u', vec'.
Qed.

(** Whatever the order in which the entries of the topology are visited, the
    loops leave the graph whose entries are the weighted entries of the
    topology. *)
Lemma route_graph_from_spec g L :
  graph_wf g → L ≡ₚ map_to_list (adjacency g) →
  route_graph_from L payloadBytes
  = {| adjacency := weighted_entries payloadBytes <$> adjacency g;
       directed_ := true |}.
Proof.
  intros Hwf Hperm. unfold route_graph_from.
  assert (Hnd : NoDup L.*1).
  { rewrite Hperm. apply NoDup_fst_map_to_list. }
  assert (Hmap : (list_to_map L : gmap string _) = adjacency g).
  { rewrite (list_to_map_proper _ _ Hnd Hperm). apply list_to_map_to_list. }
  assert (Hkeys : ∀ k, k ∈ L.*1 ↔ is_Some (adjacency g !! k)).
  { intros k. rewrite Hperm, list_elem_of_fmap. split.
    - intros ([k' l] & -> & Hin%elem_of_map_to_list). eauto.
    - intros [l Hl]. exists (k, l). split; [done|]. by apply elem_of_map_to_list. }
  destruct (fold_addNode_spec L (newGraph true)) as [Hd1 Hl1].
  set (h1 := fold_left (λ wg entry, addNode wg entry.1) L (newGraph true)) in *.
  destruct (fold_entries_spec L h1 Hnd Hd1) as (Hd2 & Hadj2 & Hsome2).
  apply Graph_eq; [|done]. simpl. apply map_eq. intros k.
  rewrite lookup_fmap, lookup_adj.
  assert (Hadj1 : adj h1 k = []).
  { unfold adj at 1. rewrite Hl1. by case_decide. }
  assert (Hhas : hasNode
    (fold_left
       (λ wg entry,
          fold_left
            (λ wg p, addEdge wg entry.1 p.1 (linkToWeightedEdge p.2 payloadBytes))
            entry.2 wg) L h1) k = hasNode g k).
  { unfold hasNode. apply bool_decide_ext. rewrite Hsome2, Hl1. split.
    - intros [Hk|(u & vec & Hin & Hk)].
      + case_decide as Hk'; [by apply Hkeys|]. by destruct Hk.
      + rewrite Hperm in Hin. apply elem_of_map_to_list in Hin.
        destruct Hk as [[_ ->]|Hk]; [eauto|].
        apply list_elem_of_fmap in Hk as ([k' link] & -> & Hk). by eapply Hwf.
    - intros Hk. left. rewrite decide_True by (by apply Hkeys). eauto. }
  rewrite Hhas, Hadj2, Hadj1, Hmap. simpl.
  destruct (hasNode g k) eqn:Hk.
  - apply hasNode_true in Hk as [l ->]. done.
  - by apply hasNode_false in Hk as ->.
Qed.

Lemma route_graph_spec g :
  graph_wf g →
  route_graph g payloadBytes
  = {| adjacency := weighted_entries payloadBytes <$> adjacency g;
       directed_ := true |}.
Proof.
  intros Hwf. apply route_graph_from_spec; [done|].
  unfold entries_in_key_order, data. apply merge_sort_Permutation.
Qed.

Lemma adj_route_graph g k :
  graph_wf g →
  adj (route_graph g payloadBytes) k = weighted_entries payloadBytes (adj g k).
Proof.
  intros Hwf. rewrite route_graph_spec by done. unfold adj; simpl.
  rewrite lookup_fmap. by destruct (adjacency g !! k).
Qed.

Lemma hasNode_route_graph g k :
  graph_wf g → hasNode (route_graph g payloadBytes) k = hasNode g k.
Proof.
  intros Hwf. rewrite route_graph_spec by done. unfold hasNode; simpl.
  rewrite lookup_fmap. apply bool_decide_ext. by rewrite fmap_is_Some.
Qed.

Lemma getNeighbors_route_graph g k :
  graph_wf g → getNeighbors (route_graph g payloadBytes) k = getNeighbors g k.
Proof.
  intros Hwf. rewrite !getNeighbors_adj, adj_route_graph by done.
  unfold weighted_entries. rewrite <-list_fmap_compose. done.
Qed.

(** X17: The graph that [route] builds has the nodes of the topology and, for
    every link entry, in the same place, an entry that weighs what the link
    costs for the payload; it is directed, whether the topology is or not;
    and the order in which the topology is visited does not matter. *)
Theorem route_graph_mirrors_topology g :
  graph_wf g →
  directed_ (route_graph g payloadBytes) = true ∧
  (∀ k, hasNode (route_graph g payloadBytes) k = hasNode g k) ∧
  (∀ k, getNeighbors (route_graph g payloadBytes) k = getNeighbors g k) ∧
  (∀ k, adj (route_graph g payloadBytes) k
        = (λ p, (p.1, {| weight := costForBytes p.2 payloadBytes |})) <$> adj g k) ∧
  (∀ L, L ≡ₚ map_to_list (data g) →
        route_graph_from L payloadBytes = route_graph g payloadBytes).
Proof.
  intros Hwf. split; [by rewrite route_graph_spec|].
  split; [intros k; by apply hasNode_route_graph|].
  split; [intros k; by apply getNeighbors_route_graph|].
  split; [intros k; by apply adj_route_graph|].
  intros L HL. rewrite route_graph_spec by done. by apply route_graph_from_spec.
Qed.

End RouteGraph.

(** ** The routing adapter: the route *)

Section Route.
Implicit Types (g : Graph string Link) (sim : NetworkSimulator).

Lemma reachable_ext {E1 E2 : Type} (g1 : Graph string E1) (g2 : Graph string E2) s v :
  (∀ k, getNeighbors g1 k = getNeighbors g2 k) →
  reachable g1 s v → reachable g2 s v.
Proof.
  intros Hn. induction 1 as [|u v Hu IH Hv]; [constructor|].
  eapply reachable_step; [exact IH|]. by rewrite <-Hn.
Qed.

Lemma route_graph_wf g bytes : graph_wf g → graph_wf (route_graph g bytes).
Proof.
  intros Hwf u l v e Hl Hin.
  apply hasNode_true. rewrite hasNode_route_graph by done. apply hasNode_true.
  assert (Hadj : (v, e) ∈ adj (route_graph g bytes) u).
  { unfold adj. by rewrite Hl. }
  rewrite adj_route_graph in Hadj by done.
  apply list_elem_of_fmap in Hadj as ([v' link] & [= -> _] & Hin').
  unfold adj in Hin'. destruct (adjacency g !! u) as [l'|] eqn:Hu.
  - by eapply Hwf.
  - by apply elem_of_nil in Hin'.
Qed.

Lemma route_graph_weights g bytes :
  graph_wf g → latencies_nonneg g → weights_nonneg (route_graph g bytes).
Proof.
  intros Hwf Hlat u v w Hin. rewrite adj_route_graph in Hin by done.
  apply list_elem_of_fmap in Hin as ([v' link] & [= -> ->] & Hin').
  simpl. apply costForBytes_finite. by eapply Hlat.
Qed.

Lemma route_unique fuel1 fuel2 g src dst bytes l1 l2 :
  route fuel1 g src dst bytes = Some l1 →
  route fuel2 g src dst bytes = Some l2 → l1 = l2.
Proof.
  unfold route.
  destruct (Dijkstra_run _ fuel1 _ _) as [dj1|] eqn:H1; [|done].
  destruct (Dijkstra_run _ fuel2 _ _) as [dj2|] eqn:H2; [|done].
  rewrite (Dijkstra_run_unique _ _ _ _ _ _ _ H1 H2).
  apply getPathTo_unique.
Qed.

Lemma route_paths g src dst bytes :
  graph_wf g → latencies_nonneg g → hasNode g src = true →
  ∃ fuel path,
    route fuel g src dst bytes = Some path ∧
    (path ≠ [] ↔ reachable g src dst) ∧
    (path ≠ [] →
     head path = Some src ∧ last path = Some dst ∧
     (∀ (i : nat) a b, path !! i = Some a → path !! S i = Some b →
                       b ∈ getNeighbors g a) ∧
     ∃ d, path_weight (route_graph g bytes) path = Some d ∧
          ∀ p, walk (route_graph g bytes) src p dst →
               Dbl.leb d (walk_weight p) = true).
Proof.
  intros Hwf Hlat Hsrc.
  pose proof (route_graph_wf g bytes Hwf) as Hwf'.
  pose proof (route_graph_weights g bytes Hwf Hlat) as Hw'.
  assert (Hsrc' : hasNode (route_graph g bytes) src = true).
  { by rewrite hasNode_route_graph. }
  destruct (Dijkstra_run_paths String.ltb _ src Hwf' Hw' Hsrc')
    as (fuel & dj & Hrun & Hout & Hin).
  assert (Hreach : ∀ v, reachable (route_graph g bytes) src v ↔ reachable g src v).
  { intros v. split; apply reachable_ext; intros k;
      by rewrite getNeighbors_route_graph. }
  destruct (hasNode (route_graph g bytes) dst) eqn:Hdst.
  - destruct (Hin dst Hdst)
      as (dv & fuelp & l & Hdv & Hget & _ & _ & Hne & Hl).
    exists (fuel + fuelp)%nat, l. split.
    + unfold route.
      rewrite (Dijkstra_run_fuel_mono _ _ _ _ (fuel + fuelp)%nat _ Hrun) by lia.
      eapply getPathTo_fuel_mono; [done|lia].
    + split; [by rewrite <-Hne, Hreach|].
      intros Hl'. destruct (Hl Hl') as (Hhd & Hlast & Hlink & d & Hd & _ & Hmin).
      split; [done|]. split; [done|]. split.
      * intros i a b Ha Hb. rewrite <-(getNeighbors_route_graph bytes) by done.
        by eapply Hlink.
      * by exists d.
  - destruct (Hout dst Hdst) as [Hnone Hnot].
    exists fuel, []. split.
    + unfold route. rewrite Hrun. unfold getPathTo. by rewrite Hnone.
    + split; [|done]. split; [done|]. intros Hr. by apply Hreach in Hr.
Qed.


(** X19: A source that is not a node of the topology has no route: the result is
    the empty sequence, for every destination (the source itself included)
    and without a single loop iteration. *)
Theorem route_unknown_source g src dst bytes fuel :
  graph_wf g → hasNode g src = false → route fuel g src dst bytes = Some [].
Proof.
  intros Hwf Hsrc. unfold route, Dijkstra_run.
  rewrite hasNode_route_graph, Hsrc by done. simpl.
  unfold getPathTo. simpl.
  destruct (dist_init (route_graph g bytes) !! dst) as [d|] eqn:Hd; [|done].
  rewrite lookup_dist_init in Hd.
  destruct (adjacency (route_graph g bytes) !! dst); [|done].
  by injection Hd as <-.
Qed.

Lemma sum_from_finite costs : ∀ total,
  finite_nonneg total → Forall finite_nonneg costs →
  finite_nonneg (sum_from total costs).
Proof.
  unfold sum_from. induction costs as [|c costs IH]; intros total Ht Hc; [done|].
  apply Forall_cons in Hc as [Hc Hcs]. simpl. apply IH; [|done].
  destruct Ht as (a & -> & Ha), Hc as (b & -> & Hb). simpl.
  eexists. split; [done|]. lra.
Qed.

Lemma hop_cost_linked g u v bytes :
  v ∈ getNeighbors g u →
  ∃ link, (v, link) ∈ adj g u ∧ hop_cost g u v bytes = costForBytes link bytes.
Proof.
  rewrite getNeighbors_adj. intros Hin.
  apply list_elem_of_fmap in Hin as ([v' link] & -> & Hin).
  assert (Hex : ∃ l1 link' l2, adj g u = l1 ++ (v', link') :: l2 ∧ v' ∉ l1.*1).
  { clear -Hin. simpl. induction (adj g u) as [|[x lx] l IH]; [by apply elem_of_nil in Hin|].
    destruct (decide (x = v')) as [->|Hx].
    - exists [], lx, l. split; [done|]. apply not_elem_of_nil.
    - apply elem_of_cons in Hin as [[= <- _]|Hin]; [done|].
      destruct (IH Hin) as (l1 & link' & l2 & -> & Hnot).
      exists ((x, lx) :: l1), link', l2. split; [done|].
      rewrite fmap_cons, not_elem_of_cons. split; [by simpl; congruence|done]. }
  destruct Hex as (l1 & link' & l2 & Hadj & Hnot). exists link'. split.
  - rewrite Hadj. apply elem_of_app. right. by left.
  - by eapply hop_cost_first.
Qed.


End Route.

(** ** The simulator between calls *)

Section SimulatorCalls.
Implicit Types (sim : NetworkSimulator) (calls : list sim_call).

Lemma addDevice_returns sim dev :
  addDevice (Some dev) sim =
  (inr tt, {| graph_ := addNode (graph_ sim) (name_ dev);
              devices_ := <[name_ dev := dev]> (devices_ sim) |}).
Proof. done. Qed.

Lemma connect_raises sim a b link bidir :
  hasNode (graph_ sim) a = false ∨ hasNode (graph_ sim) b = false →
  (connect a b link bidir sim).2 = sim.
Proof.
  intros Hab. unfold connect, bind, get, throw.
  by destruct Hab as [-> | ->]; [|rewrite orb_true_r].
Qed.

Lemma hasNode_addEdge_present (g : Graph string Link) u v e k :
  hasNode g u = true → hasNode g v = true →
  hasNode (addEdge g u v e) k = hasNode g k.
Proof.
  intros Hu%hasNode_true Hv%hasNode_true.
  unfold hasNode. apply bool_decide_ext.
  rewrite is_Some_lookup_addEdge. split; [|auto].
  by intros [->|[->|?]].
Qed.

Lemma sim_consistent_addEdge P sim a b link :
  sim_consistent P sim → P link →
  hasNode (graph_ sim) a = true → hasNode (graph_ sim) b = true →
  sim_consistent P {| graph_ := addEdge (graph_ sim) a b link;
                      devices_ := devices_ sim |}.
Proof.
  intros (Hd & Hwf & Hnodes & Hnames & Hlinks) HP Ha Hb.
  split; [done|]. split; [by apply graph_wf_addEdge|]. split; [|split; [done|]].
  - intros n. cbn [graph_ devices_]. by rewrite hasNode_addEdge_present.
  - intros u v link'. cbn [graph_]. rewrite adj_addEdge, Hd, app_nil_r.
    intros [Hin|Hin]%elem_of_app; [by eapply Hlinks|].
    case_decide; [|by apply elem_of_nil in Hin].
    by apply list_elem_of_singleton in Hin as [= _ ->].
Qed.

Lemma run_call_consistent P sim c :
  sim_consistent P sim → Forall P (call_links [c]) →
  sim_consistent P (run_call sim c).
Proof.
  intros Hinv HP. destruct c as [[dev|]|a b link bidir]; cbn [run_call].
  - rewrite addDevice_returns. cbn [snd].
    destruct Hinv as (Hd & Hwf & Hnodes & Hnames & Hlinks).
    split; [done|]. split; [by apply graph_wf_addNode|].
    split; [|split].
    + intros n. cbn [graph_ devices_]. rewrite hasNode_addNode.
      rewrite lookup_insert_is_Some. case_decide as Hn.
      * split; [intros _; by left|done].
      * rewrite Hnodes. split; [intros ?; by right|]. by intros [?|[_ ?]].
    + intros n d. cbn [devices_]. rewrite lookup_insert.
      case_decide; [by intros [= <-]|apply Hnames].
    + intros u v link. cbn [graph_]. rewrite adj_addNode. apply Hlinks.
  - done.
  - cbn [call_links mbind list_bind] in HP. simpl in HP.
    apply Forall_cons in HP as [HP _].
    destruct (hasNode (graph_ sim) a) eqn:Ha; [|by rewrite connect_raises; auto].
    destruct (hasNode (graph_ sim) b) eqn:Hb; [|by rewrite connect_raises; auto].
    rewrite connect_returns by done. cbn [snd].
    pose proof (sim_consistent_addEdge P sim a b link Hinv HP Ha Hb) as Hinv1.
    destruct bidir; [|done].
    apply (sim_consistent_addEdge P _ b a link Hinv1 HP); cbn [graph_];
      by rewrite hasNode_addEdge_present.
Qed.

Lemma run_calls_consistent P calls : ∀ sim,
  sim_consistent P sim → Forall P (call_links calls) →
  sim_consistent P (run_calls sim calls).
Proof.
  induction calls as [|c calls IH]; intros sim Hinv HP; [done|].
  unfold run_calls. cbn [fold_left]. apply IH.
  - apply run_call_consistent; [done|].
    apply Forall_forall. intros link Hin. rewrite Forall_forall in HP. apply HP.
    unfold call_links in *. rewrite bind_cons. apply elem_of_app. left.
    by rewrite bind_cons, app_nil_r in Hin.
  - rewrite Forall_forall in *. intros link Hin. apply HP.
    unfold call_links. rewrite bind_cons. apply elem_of_app. by right.
Qed.

Lemma newNetworkSimulator_consistent P : sim_consistent P newNetworkSimulator.
Proof.
  split; [done|]. split; [apply graph_wf_newGraph|]. split; [|split].
  - intros n. unfold hasNode. simpl. rewrite bool_decide_eq_true, !lookup_empty. done.
  - intros n d. simpl. by rewrite lookup_empty.
  - intros u v link. unfold adj. simpl. rewrite lookup_empty. by intros ?%elem_of_nil.
Qed.

(** X20: Whatever calls of [addDevice] and [connect] a new simulator has been
    given, failed ones included: the topology is directed, every link ends in
    a node, the nodes are exactly the names under which a device is
    registered, every device is registered under its own name, and every
    link of the topology was passed to a call of [connect]. *)
Theorem simulator_calls_keep_topology_consistent calls :
  let sim := run_calls newNetworkSimulator calls in
  directed_ (graph_ sim) = true ∧
  graph_wf (graph_ sim) ∧
  (∀ n, hasNode (graph_ sim) n = true ↔ is_Some (devices_ sim !! n)) ∧
  (∀ n d, devices_ sim !! n = Some d → name_ d = n) ∧
  (∀ u v link, (v, link) ∈ adj (graph_ sim) u → link ∈ call_links calls).
Proof.
  apply (run_calls_consistent (λ link, link ∈ call_links calls)).
  - apply newNetworkSimulator_consistent.
  - by apply Forall_forall.
Qed.

(** X21: Registering a device adds its name as a node and keeps every adjacency
    sequence; under a name that is registered already it replaces the
    device and leaves the topology as it is, links of the node included. *)
Theorem addDevice_registers_and_keeps_links sim dev :
  ∃ sim',
    addDevice (Some dev) sim = (inr tt, sim') ∧
    devices_ sim' = <[name_ dev := dev]> (devices_ sim) ∧
    hasNode (graph_ sim') (name_ dev) = true ∧
    (∀ k, hasNode (graph_ sim') k = hasNode (graph_ sim) k || bool_decide (k = name_ dev)) ∧
    (∀ k, adj (graph_ sim') k = adj (graph_ sim) k) ∧
    (hasNode (graph_ sim) (name_ dev) = true → graph_ sim' = graph_ sim).
Proof.
  eexists. split; [apply addDevice_returns|]. cbn [graph_ devices_].
  split; [done|]. split.
  { rewrite hasNode_addNode. by case_decide. }
  split.
  { intros k. rewrite hasNode_addNode. case_decide as Hk.
    - rewrite bool_decide_true by done. by rewrite orb_true_r.
    - rewrite bool_decide_false by congruence. by rewrite orb_false_r. }
  split; [intros k; apply adj_addNode|].
  apply addNode_present.
Qed.

End SimulatorCalls.

Lemma demo_sim_consistent :
  sim_consistent (λ link, finite_nonneg (latencyMs link)) demo_sim.
Proof.
  apply run_calls_consistent; [apply newNetworkSimulator_consistent|].
  repeat constructor; simpl; eexists; (split; [reflexivity|]); lra.
Qed.

Lemma demo_sim_wf : graph_wf (graph_ demo_sim).
Proof. apply demo_sim_consistent. Qed.

Lemma demo_sim_latencies : latencies_nonneg (graph_ demo_sim).
Proof. intros u v link. apply demo_sim_consistent. Qed.

(** ** The demo topology of the tests *)

(** The scenario of [BuildDemoRouteAndSend]: the route from H1 to H2 goes
    over S1 and R1, and the replay uses three of the eight units of the
    counter. *)
Example test_BuildDemoRouteAndSend :
  route 10 (graph_ demo_sim) "H1" "H2" (size_ demo_packet)
    = Some ["H1"; "S1"; "R1"; "H2"] ∧
  ttl_ (sendPacket demo_sim ["H1"; "S1"; "R1"; "H2"] demo_packet).2 = 5 ∧
  Dbl.gtb (sendPacket demo_sim ["H1"; "S1"; "R1"; "H2"] demo_packet).1 Dbl.zero = true.
Proof. vm_compute. done. Qed.

Lemma route_graph_mirrors_topology_witness :
  directed_ (route_graph (graph_ demo_sim) 1500) = true ∧
  (∀ k, hasNode (route_graph (graph_ demo_sim) 1500) k = hasNode (graph_ demo_sim) k) ∧
  (∀ k, getNeighbors (route_graph (graph_ demo_sim) 1500) k
        = getNeighbors (graph_ demo_sim) k) ∧
  (∀ k, adj (route_graph (graph_ demo_sim) 1500) k
        = (λ p, (p.1, {| weight := costForBytes p.2 1500 |})) <$> adj (graph_ demo_sim) k) ∧
  (∀ L, L ≡ₚ map_to_list (data (graph_ demo_sim)) →
        route_graph_from L 1500 = route_graph (graph_ demo_sim) 1500).
Proof.
  apply (route_graph_mirrors_topology 1500 (graph_ demo_sim)).
  apply demo_sim_wf.
Defined.


Lemma route_unknown_source_witness :
  route 0 (graph_ demo_sim) "H9" "H1" 1500 = Some [].
Proof.
  apply (route_unknown_source (graph_ demo_sim) "H9" "H1" 1500 0).
  - apply demo_sim_wf.
  - vm_compute. reflexivity.
Defined.


(** ** The bill of a replay against the weight of the route *)

Section RouteBill.
Variables (g : Graph string Link) (bytes : N).
Hypothesis Hwf : graph_wf g.
Hypothesis Hlat : latencies_nonneg g.

Lemma entries_same_key {A : Type} (l : list (string * A)) k x y :
  NoDup l.*1 → (k, x) ∈ l → (k, y) ∈ l → x = y.
Proof.
  induction l as [|[k' z] l IH]; [by intros _ ?%elem_of_nil|].
  rewrite fmap_cons. intros [Hk Hnd]%NoDup_cons. simpl in Hk.
  intros [Hx|Hx]%elem_of_cons [Hy|Hy]%elem_of_cons.
  - congruence.
  - injection Hx as <- <-. destruct Hk. apply list_elem_of_fmap. by exists (k, y).
  - injection Hy as <- <-. destruct Hk. apply list_elem_of_fmap. by exists (k, x).
  - by apply IH.
Qed.

Lemma pair_weight_hop_cost a b :
  b ∈ getNeighbors g a →
  ∃ m c, pair_weight (route_graph g bytes) a b = Some (Dbl.Fin m) ∧
         hop_cost g a b bytes = Dbl.Fin c ∧ (0 <= m)%Q ∧ (m <= c)%Q ∧
         (NoDup (getNeighbors g a) → (m == c)%Q).
Proof.
  intros Hb.
  destruct (hop_cost_linked g a b bytes Hb) as (link & Hin & Hcost).
  destruct (costForBytes_finite link bytes) as (c & Hc & Hc0); [by eapply Hlat|].
  pose proof (weights_nonneg_nonneg _ (route_graph_weights g bytes Hwf Hlat)) as Hnn.
  assert (Hin' : (b, linkToWeightedEdge link bytes) ∈ adj (route_graph g bytes) a).
  { rewrite adj_route_graph by done. apply list_elem_of_fmap. by exists (b, link). }
  destruct (pair_weight_spec _ Hnn a b _ Hin') as (m' & Hm' & Hle & w' & Hw' & ->).
  rewrite adj_route_graph in Hw' by done.
  apply list_elem_of_fmap in Hw' as ([b' link'] & [= <- ->] & Hlink').
  cbn [snd linkToWeightedEdge weight] in *.
  destruct (costForBytes_finite link' bytes) as (m & Hm & Hm0); [by eapply Hlat|].
  exists m, c. rewrite Hm' , Hm, Hcost, Hc. split; [done|]. split; [done|].
  split; [done|]. rewrite Hm, Hc in Hle. apply DblFacts.leb_Fin in Hle.
  split; [done|]. intros Hnd. rewrite getNeighbors_adj in Hnd.
  assert (link' = link) as -> by (by eapply entries_same_key).
  rewrite Hm in Hc. by injection Hc as ->.
Qed.

Lemma path_weight_from_le_charges : ∀ rest a d t,
  (0 <= d)%Q → (d <= t)%Q →
  (∀ (i : nat) x y, (a :: rest) !! i = Some x → (a :: rest) !! S i = Some y →
                    y ∈ getNeighbors g x) →
  ∃ d' t',
    path_weight_from (route_graph g bytes) (Dbl.Fin d) a rest = Some (Dbl.Fin d') ∧
    sum_from (Dbl.Fin t) ((λ p, hop_cost g p.1 p.2 bytes) <$> zip (a :: rest) rest)
      = Dbl.Fin t' ∧
    (0 <= d')%Q ∧ (d' <= t')%Q ∧
    ((∀ x, NoDup (getNeighbors g x)) → (d == t)%Q → (d' == t')%Q).
Proof.
  induction rest as [|b rest IH]; intros a d t Hd Hdt Hlink.
  - exists d, t. done.
  - destruct (pair_weight_hop_cost a b) as (m & c & Hm & Hc & Hm0 & Hmc & Heq).
    { by apply (Hlink O). }
    destruct (IH b (d + m)%Q (t + c)%Q) as (d' & t' & Hd' & Ht' & Hd0 & Hle & Heq').
    { lra. }
    { lra. }
    { intros i x y Hx Hy. by apply (Hlink (S i)). }
    exists d', t'. cbn [path_weight_from zip zip_with fmap list_fmap fst snd].
    rewrite Hm. unfold sum_from in *. cbn [fold_left]. rewrite Hc.
    split; [exact Hd'|]. split; [exact Ht'|]. split; [done|]. split; [done|].
    intros Hnd Hdt'. apply Heq'; [done|]. rewrite (Heq (Hnd a)), Hdt'. reflexivity.
Qed.

End RouteBill.



(** With two parallel links, the slow one first, the router weighs the fast
    link and the replay charges the slow one. *)
Example parallel_links_bill_exceeds_route_weight :
  route 10 (graph_ parallel_sim) "R1" "S1" 1500 = Some ["R1"; "S1"] ∧
  ∃ d, path_weight (route_graph (graph_ parallel_sim) 1500) ["R1"; "S1"] = Some d ∧
       Dbl.ltb d (sendPacket parallel_sim ["R1"; "S1"] (mkPacket "R1" "S1" 8 1500 [])).1
         = true.
Proof. split; [by vm_compute|]. eexists. split; [by vm_compute|]. by vm_compute. Qed.

(** ** Breadth-first order *)

Section BFSLevels.
Context `{Countable K} {E : Type}.
Implicit Types (g : Graph K E) (q out : list K) (visited : gset K) (lvl : gmap K nat).

Lemma bfs_level_step g s lvl h q' visited out :
  bfs_level_inv g s lvl (h :: q') visited out →
  ∃ lvl',
    bfs_level_inv g s lvl'
      (fold_left bfs_visit (getNeighbors g h) (q', visited)).1
      (fold_left bfs_visit (getNeighbors g h) (q', visited)).2
      (out ++ [h]).
Proof.
  intros (Hdom & Hmem & Hs & Hreach & Hclosed & Hsorted & n0 & qa0 & qb0 & Hq & Hqa0 & Hqb0 & Hout0).
  assert (Hwin : ∃ n qa qb, q' = qa ++ qb ∧ lvl !! h = Some n ∧
            (∀ x, x ∈ qa → lvl !! x = Some n) ∧
            (∀ x, x ∈ qb → lvl !! x = Some (S n)) ∧
            (∀ x nx, x ∈ out → lvl !! x = Some nx → (nx ≤ n)%nat)).
  { destruct qa0 as [|h0 qa0].
    - simpl in Hq. subst qb0. exists (S n0), q', []. rewrite app_nil_r.
      split; [done|]. split; [apply Hqb0; by left|].
      split; [intros x Hx; apply Hqb0; by right|].
      split; [by intros x ?%elem_of_nil|].
      intros x nx Hx Hnx. specialize (Hout0 x nx Hx Hnx). lia.
    - injection Hq as <- ->. exists n0, qa0, qb0.
      split; [done|]. split; [apply Hqa0; by left|].
      split; [intros x Hx; apply Hqa0; by right|done]. }
  clear n0 qa0 qb0 Hq Hqa0 Hqb0 Hout0.
  destruct Hwin as (n & qa & qb & -> & Hh & Hqa & Hqb & Hout).
  pose proof (bfs_visit_fold_covers (getNeighbors g h) (qa ++ qb) visited) as Hcov.
  destruct (bfs_visit_fold (getNeighbors g h) (qa ++ qb) visited)
    as (new & Hfold & Hnd & Hnew).
  rewrite Hfold in Hcov |- *. cbn [fst snd] in *.
  set (lvl' := gset_to_gmap (S n) (list_to_set new : gset K) ∪ lvl).
  assert (F1 : ∀ y m, lvl !! y = Some m → lvl' !! y = Some m).
  { intros y m Hy. apply lookup_union_Some_raw. right. split; [|done].
    apply lookup_gset_to_gmap_None. rewrite elem_of_list_to_set. intros Hy'.
    apply Hnew in Hy' as [_ Hy']. apply Hy'. rewrite Hdom. by apply elem_of_dom. }
  assert (F2 : ∀ y, y ∈ new → lvl' !! y = Some (S n)).
  { intros y Hy. apply lookup_union_Some_raw. left.
    apply lookup_gset_to_gmap_Some. by rewrite elem_of_list_to_set. }
  assert (F3 : ∀ y m, lvl' !! y = Some m → (y ∈ new ∧ m = S n) ∨ lvl !! y = Some m).
  { intros y m [Hy|[_ Hy]]%lookup_union_Some_raw; [|by right].
    apply lookup_gset_to_gmap_Some in Hy as [Hy <-].
    left. by rewrite elem_of_list_to_set in Hy. }
  assert (Fold : ∀ y m, y ∈ visited → lvl' !! y = Some m → lvl !! y = Some m).
  { intros y m Hy Hm. destruct (F3 y m Hm) as [[Hy' _]|?]; [|done].
    by apply Hnew in Hy' as [_ ?]. }
  assert (Hvis : ∀ y, y ∈ visited → ∃ ny, lvl !! y = Some ny ∧ (ny ≤ S n)%nat).
  { intros y Hy. apply Hmem in Hy.
    apply elem_of_app in Hy as [Hy|[->|[Hy|Hy]%elem_of_app]%elem_of_cons].
    - assert (is_Some (lvl !! y)) as [ny Hny].
      { apply elem_of_dom. rewrite <-Hdom. apply Hmem, elem_of_app. by left. }
      exists ny. split; [done|]. specialize (Hout y ny Hy Hny). lia.
    - exists n. split; [done|lia].
    - exists n. split; [by apply Hqa|lia].
    - exists (S n). split; [by apply Hqb|lia]. }
  exists lvl'. split; [|split; [|split; [|split; [|split; [|split]]]]].
  - unfold lvl'. rewrite dom_union_L, dom_gset_to_gmap, Hdom. done.
  - intros x. rewrite elem_of_union, elem_of_list_to_set, <-Hmem.
    rewrite !elem_of_app, !elem_of_cons, !elem_of_app, elem_of_nil. tauto.
  - by apply F1.
  - intros x m Hx. destruct (F3 x m Hx) as [[Hx' ->]|Hx']; [|by apply Hreach].
    apply Hnew in Hx' as [Hx' _]. eapply reach_in_S; [|exact Hx']. by apply Hreach.
  - intros x y nx [Hx|Hx]%elem_of_app Hy Hnx.
    + assert (Hxv : x ∈ visited) by (apply Hmem, elem_of_app; by left).
      apply Fold in Hnx; [|done].
      destruct (Hclosed x y nx Hx Hy Hnx) as (ny & Hny & Hle).
      exists ny. split; [by apply F1|done].
    + apply list_elem_of_singleton in Hx as ->.
      assert (Hhv : h ∈ visited) by (apply Hmem, elem_of_app; right; by left).
      apply Fold in Hnx; [|done]. rewrite Hh in Hnx. injection Hnx as <-.
      specialize (Hcov y (or_intror Hy)).
      apply elem_of_union in Hcov as [Hy'|Hy'].
      * exists (S n). split; [|lia]. apply F2. by rewrite elem_of_list_to_set in Hy'.
      * destruct (Hvis y Hy') as (ny & Hny & Hle). exists ny. split; [by apply F1|done].
  - intros i j x y nx ny Hij Hx Hy Hnx Hny.
    assert (Hj : (j < length (out ++ [h]))%nat) by (by eapply lookup_lt_Some).
    rewrite length_app in Hj. cbn [length] in Hj.
    rewrite lookup_app_l in Hx by lia.
    assert (Hxo : x ∈ out) by (by eapply list_elem_of_lookup_2).
    assert (Hxv : x ∈ visited) by (apply Hmem, elem_of_app; by left).
    apply Fold in Hnx; [|done].
    destruct (decide (j < length out)%nat) as [Hlt|Hge].
    + rewrite lookup_app_l in Hy by lia.
      assert (Hyo : y ∈ out) by (by eapply list_elem_of_lookup_2).
      assert (Hyv : y ∈ visited) by (apply Hmem, elem_of_app; by left).
      apply Fold in Hny; [|done]. exact (Hsorted i j x y nx ny Hij Hx Hy Hnx Hny).
    + rewrite lookup_app_r in Hy by lia.
      replace (j - length out)%nat with O in Hy by lia. injection Hy as <-.
      assert (Hhv : h ∈ visited) by (apply Hmem, elem_of_app; right; by left).
      apply Fold in Hny; [|done]. rewrite Hh in Hny. injection Hny as <-.
      by eapply Hout.
  - exists n, qa, (qb ++ new). split; [by rewrite app_assoc|].
    split; [intros x Hx; by apply F1, Hqa|]. split.
    + intros x [Hx|Hx]%elem_of_app; [by apply F1, Hqb|by apply F2].
    + intros x nx [Hx|Hx]%elem_of_app Hnx.
      * assert (Hxv : x ∈ visited) by (apply Hmem, elem_of_app; by left).
        apply Fold in Hnx; [|done]. by eapply Hout.
      * apply list_elem_of_singleton in Hx as ->.
        assert (Hhv : h ∈ visited) by (apply Hmem, elem_of_app; right; by left).
        apply Fold in Hnx; [|done]. rewrite Hh in Hnx. by injection Hnx as <-.
Qed.

Lemma bfs_loop_levels g s fuel : ∀ lvl q visited out r,
  bfs_level_inv g s lvl q visited out →
  bfs_loop fuel g q visited out = Some r →
  ∃ lvl', bfs_level_inv g s lvl' [] r.2 r.1.
Proof.
  induction fuel as [|fuel IH]; intros lvl q visited out r Hinv; [done|].
  simpl. destruct q as [|h q'].
  - intros [= <-]. by exists lvl.
  - destruct (bfs_level_step g s lvl h q' visited out Hinv) as (lvl' & Hinv').
    destruct (fold_left bfs_visit (getNeighbors g h) (q', visited)) as [q'' visited'].
    by apply (IH lvl').
Qed.

Lemma bfs_level_init g s : bfs_level_inv g s {[s := O]} [s] {[s]} [].
Proof.
  split; [by rewrite dom_singleton_L|]. split.
  { intros x. simpl. by rewrite list_elem_of_singleton, elem_of_singleton. }
  split; [apply lookup_singleton_eq|]. split.
  { intros x n [<- <-]%lookup_singleton_Some. constructor. }
  split; [by intros x y nx ?%elem_of_nil|].
  split; [intros i j x y nx ny _ Hx; by rewrite lookup_nil in Hx|].
  exists O, [s], []. split; [done|]. split.
  { intros x ->%list_elem_of_singleton. apply lookup_singleton_eq. }
  split; [by intros x ?%elem_of_nil|by intros x nx ?%elem_of_nil].
Qed.

(** When the queue is empty the levels are the hop distances. *)
Lemma bfs_level_final g s lvl visited out :
  bfs_level_inv g s lvl [] visited out →
  (∀ m v, reach_in g s m v → ∃ k, lvl !! v = Some k ∧ (k ≤ m)%nat) ∧
  (∀ v n, lvl !! v = Some n → hop_distance g s v n).
Proof.
  intros (Hdom & Hmem & Hs & Hreach & Hclosed & _ & _).
  assert (Hlow : ∀ m v, reach_in g s m v → ∃ k, lvl !! v = Some k ∧ (k ≤ m)%nat).
  { induction 1 as [|m u v Hu (k & Hk & Hle) Hv]; [by exists O|].
    assert (Huo : u ∈ out).
    { specialize (Hmem u). rewrite app_nil_r in Hmem. apply Hmem.
      rewrite Hdom. by apply elem_of_dom. }
    destruct (Hclosed u v k Huo Hv Hk) as (ny & Hny & Hle').
    exists ny. split; [done|lia]. }
  split; [done|]. intros v n Hn. split; [by apply Hreach|].
  intros m Hm. destruct (Hlow m v Hm) as (k & Hk & Hle). congruence.
Qed.

(** X10: A breadth-first run emits the nodes in the order of their hop distance
    from the start node: each emitted node has a distance, and a node is
    never emitted before a node that is nearer. *)
Theorem BFS_run_emits_in_distance_order g start :
  ∃ fuel out visited,
    BFS_run fuel g start = Some (out, visited) ∧
    (∀ v, v ∈ out → ∃ n, hop_distance g start v n) ∧
    ∀ (i j : nat) u v du dv,
      (i ≤ j)%nat → out !! i = Some u → out !! j = Some v →
      hop_distance g start u du → hop_distance g start v dv → (du ≤ dv)%nat.
Proof.
  destruct (BFS_run_result g start) as (fuel & out & visited & Hrun & _).
  exists fuel, out, visited. split; [done|].
  destruct (bfs_loop_levels g start fuel _ _ _ _ _ (bfs_level_init g start) Hrun)
    as (lvl & Hinv).
  cbn [fst snd] in Hinv.
  destruct (bfs_level_final g start lvl visited out Hinv) as [Hlow Hdist].
  destruct Hinv as (Hdom & Hmem & _ & _ & _ & Hsorted & _).
  assert (Hlvl : ∀ v, v ∈ out → is_Some (lvl !! v)).
  { intros v Hv. apply elem_of_dom. rewrite <-Hdom. apply Hmem.
    by rewrite app_nil_r. }
  split.
  { intros v Hv. destruct (Hlvl v Hv) as [n Hn]. exists n. by apply Hdist. }
  intros i j u v du dv Hij Hu Hv [Hdu Hdumin] [Hdv Hdvmin].
  destruct (decide (i = j)) as [->|Hne].
  { rewrite Hu in Hv. injection Hv as <-. by apply Hdumin. }
  destruct (Hlvl u) as [nu Hnu]; [by eapply list_elem_of_lookup_2|].
  destruct (Hlow dv v Hdv) as (nv & Hnv & Hle).
  assert (nu ≤ nv)%nat by (eapply (Hsorted i j); [lia|done..]).
  assert (du ≤ nu)%nat by (apply Hdumin; by apply (Hdist u nu)).
  lia.
Qed.

End BFSLevels.

(** ** Concrete instances *)

Lemma addNode_idempotent_witness :
  let g : Graph Z Z := addEdge (newGraph true) 1 2 10 in
  addNode g 1 = g ∧
  getNeighbors (addNode g 5) 5 = [] ∧
  graph_size (addNode g 5) = 3%nat.
Proof.
  intros g.
  destruct (addNode_idempotent g 1) as (_ & H1 & _).
  destruct (addNode_idempotent g 5) as (_ & _ & _ & H5 & _ & _ & H6).
  split; [apply H1; vm_compute; reflexivity|].
  split; [apply H5; vm_compute; reflexivity|].
  rewrite H6. vm_compute. reflexivity.
Defined.

Lemma removeEdge_removes_all_entries_witness :
  let g : Graph Z Z :=
    addEdge (addEdge (addEdge (newGraph true) 1 2 10) 1 2 11) 2 1 12 in
  let h : Graph Z Z := addEdge (newGraph false) 1 2 10 in
  (2 ∉ getNeighbors (removeEdge g 1 2) 1) ∧
  adj (removeEdge g 1 2) 2 = adj g 2 ∧
  (1 ∉ getNeighbors (removeEdge h 1 2) 2).
Proof.
  intros g h.
  destruct (removeEdge_removes_all_entries g 1 2) as (_ & H2 & _ & _ & H5 & _).
  destruct (removeEdge_removes_all_entries h 1 2) as (_ & _ & _ & _ & _ & H6).
  split; [exact H2|]. split; [apply H5; [reflexivity|lia]|].
  destruct (H6 eq_refl) as (_ & H7 & _). exact H7.
Defined.

Lemma addDevice_registers_and_keeps_links_witness :
  ∃ sim',
    addDevice (Some (mkDevice 9 "R1" "Firewall")) sample_sim = (inr tt, sim') ∧
    devices_ sim' !! "R1" = Some (mkDevice 9 "R1" "Firewall") ∧
    graph_ sim' = graph_ sample_sim.
Proof.
  destruct (addDevice_registers_and_keeps_links sample_sim (mkDevice 9 "R1" "Firewall"))
    as (sim' & H1 & H2 & _ & _ & _ & H6).
  exists sim'. split; [exact H1|]. split.
  - rewrite H2. apply lookup_insert_eq.
  - apply H6. vm_compute. reflexivity.
Defined.

(** ** Depth-first order *)

Section DFSOrder.
Context `{Countable K} {E : Type}.
Implicit Types (g : Graph K E) (st out pending : list K) (visited : gset K).

Lemma push_all_reverse (neighbors st : list K) :
  fold_left (λ s neighbor, neighbor :: s) neighbors st = reverse neighbors ++ st.
Proof.
  revert st. induction neighbors as [|a neighbors IH]; intros st; [done|].
  simpl. rewrite IH, reverse_cons, <-app_assoc. done.
Qed.

Lemma recursive_dfs_app g a : ∀ b visited out visited',
  recursive_dfs g (a ++ b) visited out visited' →
  ∃ out1 visited1 out2,
    recursive_dfs g a visited out1 visited1 ∧
    recursive_dfs g b visited1 out2 visited' ∧
    out = out1 ++ out2.
Proof.
  induction a as [|x a IH]; intros b visited out visited' Hrun.
  - exists [], visited, out. split; [constructor|done].
  - simpl in Hrun. inversion Hrun as [|x' p v o v2 Hx Hrest|x' p v o1 v1 o2 v2 Hx Hsub Hrest]; subst.
    + destruct (IH _ _ _ _ Hrest) as (out1 & visited1 & out2 & Ha & Hb & ->).
      exists out1, visited1, out2. split; [by apply recursive_dfs_skip|done].
    + destruct (IH _ _ _ _ Hrest) as (out1 & visited1' & out2 & Ha & Hb & ->).
      exists (x :: o1 ++ out1), visited1', out2.
      split; [by eapply recursive_dfs_visit|]. split; [done|].
      simpl. by rewrite <-app_assoc.
Qed.

Lemma recursive_dfs_unique g pending visited out visited' :
  recursive_dfs g pending visited out visited' →
  ∀ out2 visited2,
    recursive_dfs g pending visited out2 visited2 →
    out2 = out ∧ visited2 = visited'.
Proof.
  induction 1 as [v|x p v o v' Hx Hrest IH|x p v o1 v1 o2 v2 Hx Hsub IHsub Hrest IHrest];
    intros out2 visited2 Hrun.
  - by inversion Hrun.
  - inversion Hrun; subst; [by apply IH|done].
  - inversion Hrun as [| |x' p' v' o1' v1' o2' v2' Hx' Hsub' Hrest']; subst; [done|].
    destruct (IHsub _ _ Hsub') as [-> ->].
    destruct (IHrest _ _ Hrest') as [-> ->]. done.
Qed.

Lemma dfs_loop_recursive g fuel : ∀ st visited out r,
  dfs_loop fuel g st visited out = Some r →
  ∃ rest, r.1 = out ++ rest ∧ recursive_dfs g st visited rest r.2.
Proof.
  induction fuel as [|fuel IH]; intros st visited out r; [done|].
  simpl. destruct st as [|node st'].
  - intros [= <-]. exists []. rewrite app_nil_r. split; [done|constructor].
  - destruct (decide (node ∈ visited)) as [Hin|Hnot].
    + intros (rest & Hr & Hrec)%IH. exists rest.
      split; [done|by apply recursive_dfs_skip].
    + rewrite push_all_reverse. intros (rest & Hr & Hrec)%IH.
      destruct (recursive_dfs_app _ _ _ _ _ _ Hrec)
        as (out1 & visited1 & out2 & Ha & Hb & ->).
      exists (node :: out1 ++ out2). split.
      * rewrite Hr, <-app_assoc. done.
      * by eapply recursive_dfs_visit.
Qed.

(** X24: the loop of [DFS::run] with its stack emits the nodes in the order
    of a recursive depth-first search from the start node that goes through
    the neighbours of each node from the last to the first: the run
    terminates, its output and visited set are those of the recursive
    search, and the recursive search has no other result. *)
Theorem DFS_run_is_recursive_preorder g start :
  ∃ fuel out visited,
    DFS_run fuel g start = Some (out, visited) ∧
    recursive_dfs g [start] ∅ out visited ∧
    ∀ out' visited',
      recursive_dfs g [start] ∅ out' visited' → out' = out ∧ visited' = visited.
Proof.
  destruct (DFS_run_result g start) as (fuel & out & visited & Hrun & _).
  exists fuel, out, visited. split; [done|].
  destruct (dfs_loop_recursive g fuel _ _ _ _ Hrun) as (rest & Hr & Hrec).
  simpl in Hr. subst rest. cbn [snd] in Hrec.
  split; [done|]. by apply recursive_dfs_unique.
Qed.

End DFSOrder.
